(** * tlsprotocol: a TLS listener that demultiplexes by ALPN protocol

    A shallow embedding of the Go package [tlsprotocol] (listener.go,
    protocol.go, and worker.go in its version with the mutex).  Go values
    that are shared by reference (channels, workers) live in heaps of a
    [Store] and are named by their index; a call either returns, panics,
    or parks its goroutine on a channel or mutex operation. *)

From stdpp Require Import gmap strings list fin_maps pretty.
From Stdlib Require Import ZArith Lia.

Local Open Scope string_scope.
Local Open Scope list_scope.
Local Open Scope Z_scope.

(** ** Values *)

(** Go's [error]: the message of the error value, [fmt.Errorf] the message
    it formats. *)
Definition error := string.

(** [tls.ConnectionState], the two fields the listener reads. *)
Record tls_ConnectionState := mkConnectionState {
  NegotiatedProtocol : string;
  NegotiatedProtocolIsMutual : bool
}.

(** A [*tls.Conn] as the listener sees it: what [Handshake()] answers
    ([None] is the nil error) and what [ConnectionState()] reports
    afterwards.  Both are decided by the peer. *)
Record tls_Conn := mkConn {
  conn_fd : nat;
  Handshake : option error;
  ConnectionState : tls_ConnectionState
}.

(** [tls.Config], the field the listener reads. *)
Record tls_Config := mkConfig {
  NextProtos : list string
}.

(** [net.IPAddr], [net.TCPAddr] and [syscall.Sockaddr]. *)
Record net_IPAddr := mkIPAddr { ipaddr_IP : list Byte.byte; ipaddr_Zone : string }.

Record net_TCPAddr := mkTCPAddr {
  tcp_IP : list Byte.byte;
  tcp_Port : Z;
  tcp_Zone : string
}.

Inductive Sockaddr :=
| SockaddrInet4 (Port : Z) (Addr : list Byte.byte)
| SockaddrInet6 (Port : Z) (Addr : list Byte.byte).

(** ** Channels *)

(** A Go channel: its buffer (head is the next element received), its
    capacity and whether [close] was called on it. *)
Record chan (A : Type) := mkChan {
  buf : list A;
  cap : nat;
  closed : bool
}.
Arguments mkChan {A} _ _ _.
Arguments buf {A} _.
Arguments cap {A} _.
Arguments closed {A} _.

(** [make(chan A, n)] *)
Definition make_chan {A} (n : nat) : chan A := mkChan [] n false.

(** ** The objects of the package *)

(** [worker]: [parent] is the listener of the store; [socket] names the
    TLS listener socket; [lock] is true while the mutex is held. *)
Record worker := mkWorker {
  running : bool;
  socket : nat;
  lock : bool
}.

(** [Protocol]: [parent] is the listener of the store; [channel] points
    into the heap of connection channels.  The struct is never written
    after its creation, so a [*Protocol] is modelled by its contents. *)
Record Protocol := mkProtocol {
  proto : string;
  channel : nat
}.

(** [Listener].  A nil pointer, slice entry, interface, map or channel is
    [None]; [workers = []] is the nil (or empty) slice. *)
Record Listener := mkListener {
  BindAddr : string;
  TLSConfig : option tls_Config;
  Listeners : Z;
  workers : list (option nat);
  addr : option net_TCPAddr;
  sockAddr : option Sockaddr;
  channels : option (gmap string Protocol);
  defaultChannel : option nat;
  errors : option nat
}.

(** What a [go] statement starts. *)
Inductive goroutine :=
| GoListen (w : nat)
| GoConnectionReceived (c : tls_Conn).

(** The state of the program: the listener, the heaps of workers and of
    channels, the sockets and connections on which [Close] was called (in
    call order), the goroutines started (in start order) and the number of
    sockets the kernel was asked for. *)
Record Store := mkStore {
  lst : Listener;
  workerHeap : list worker;
  connChans : list (chan tls_Conn);
  errChans : list (chan error);
  closedSockets : list nat;
  closedConns : list nat;
  goroutines : list goroutine;
  syscalls : nat
}.

(** ** Calls *)

(** How a call ends: it returns, it panics (with the state at the panic),
    or its goroutine is parked on an operation no other call of the same
    goroutine can complete. *)
Inductive outcome (A : Type) :=
| Ret (a : A) (s : Store)
| Panic (msg : string) (s : Store)
| Block (s : Store).
Arguments Ret {A} _ _.
Arguments Panic {A} _ _.
Arguments Block {A} _.

Definition M (A : Type) := Store -> outcome A.

Definition ret {A} (a : A) : M A := fun s => Ret a s.

Definition bind {A B} (m : M A) (k : A -> M B) : M B :=
  fun s => match m s with
           | Ret a s' => k a s'
           | Panic msg s' => Panic msg s'
           | Block s' => Block s'
           end.

Definition panic {A} (msg : string) : M A := fun s => Panic msg s.
Definition block {A} : M A := fun s => Block s.
Definition get_listener : M Listener := fun s => Ret (lst s) s.
Definition gets {A} (f : Store -> A) : M A := fun s => Ret (f s) s.
Definition modify (f : Store -> Store) : M unit := fun s => Ret tt (f s).

#[export] Instance M_ret : MRet M := @ret.
#[export] Instance M_bind : MBind M := fun A B k m => bind m k.

Definition outcome_store {A} (o : outcome A) : Store :=
  match o with Ret _ s | Panic _ s | Block s => s end.

Definition returns {A} (o : outcome A) : bool :=
  match o with Ret _ _ => true | _ => false end.

Definition panics {A} (o : outcome A) : bool :=
  match o with Panic _ _ => true | _ => false end.

Definition blocks {A} (o : outcome A) : bool :=
  match o with Block _ => true | _ => false end.

(** *** Field updates *)

Definition set_lst (f : Listener -> Listener) (s : Store) : Store :=
  mkStore (f (lst s)) (workerHeap s) (connChans s) (errChans s)
          (closedSockets s) (closedConns s) (goroutines s) (syscalls s).

Definition set_workerHeap (h : list worker) (s : Store) : Store :=
  mkStore (lst s) h (connChans s) (errChans s)
          (closedSockets s) (closedConns s) (goroutines s) (syscalls s).

Definition set_connChans (h : list (chan tls_Conn)) (s : Store) : Store :=
  mkStore (lst s) (workerHeap s) h (errChans s)
          (closedSockets s) (closedConns s) (goroutines s) (syscalls s).

Definition set_errChans (h : list (chan error)) (s : Store) : Store :=
  mkStore (lst s) (workerHeap s) (connChans s) h
          (closedSockets s) (closedConns s) (goroutines s) (syscalls s).

Definition set_closedSockets (c : list nat) (s : Store) : Store :=
  mkStore (lst s) (workerHeap s) (connChans s) (errChans s)
          c (closedConns s) (goroutines s) (syscalls s).

Definition set_closedConns (c : list nat) (s : Store) : Store :=
  mkStore (lst s) (workerHeap s) (connChans s) (errChans s)
          (closedSockets s) c (goroutines s) (syscalls s).

Definition set_goroutines (g : list goroutine) (s : Store) : Store :=
  mkStore (lst s) (workerHeap s) (connChans s) (errChans s)
          (closedSockets s) (closedConns s) g (syscalls s).

Definition set_syscalls (n : nat) (s : Store) : Store :=
  mkStore (lst s) (workerHeap s) (connChans s) (errChans s)
          (closedSockets s) (closedConns s) (goroutines s) n.

Definition set_workers (ws : list (option nat)) (l : Listener) : Listener :=
  mkListener (BindAddr l) (TLSConfig l) (Listeners l) ws (addr l)
             (sockAddr l) (channels l) (defaultChannel l) (errors l).

Definition set_Listeners (n : Z) (l : Listener) : Listener :=
  mkListener (BindAddr l) (TLSConfig l) n (workers l) (addr l)
             (sockAddr l) (channels l) (defaultChannel l) (errors l).

Definition set_addr (a : option net_TCPAddr) (l : Listener) : Listener :=
  mkListener (BindAddr l) (TLSConfig l) (Listeners l) (workers l) a
             (sockAddr l) (channels l) (defaultChannel l) (errors l).

Definition set_sockAddr (a : option Sockaddr) (l : Listener) : Listener :=
  mkListener (BindAddr l) (TLSConfig l) (Listeners l) (workers l) (addr l)
             a (channels l) (defaultChannel l) (errors l).

Definition set_channels (m : option (gmap string Protocol)) (l : Listener) : Listener :=
  mkListener (BindAddr l) (TLSConfig l) (Listeners l) (workers l) (addr l)
             (sockAddr l) m (defaultChannel l) (errors l).

Definition set_defaultChannel (c : option nat) (l : Listener) : Listener :=
  mkListener (BindAddr l) (TLSConfig l) (Listeners l) (workers l) (addr l)
             (sockAddr l) (channels l) c (errors l).

Definition set_errors (c : option nat) (l : Listener) : Listener :=
  mkListener (BindAddr l) (TLSConfig l) (Listeners l) (workers l) (addr l)
             (sockAddr l) (channels l) (defaultChannel l) c.

(** *** Channel operations on a heap of channels

    A channel value is [None] (the nil channel) or [Some p], a pointer to
    the [p]-th channel of the heap.  Go never produces a pointer outside
    the heap; the operations panic on one so that they stay total. *)

Definition dangling : string := "invalid channel pointer".

Inductive chan_result (A R : Type) :=
| ChOk (r : R) (h : list (chan A))
| ChPanic (msg : string)
| ChBlock.
Arguments ChOk {A R} _ _.
Arguments ChPanic {A R} _.
Arguments ChBlock {A R}.

(** [c <- x]: parks for ever on a nil channel, panics on a closed one,
    parks while the buffer is full. *)
Definition heap_send {A} (c : option nat) (x : A) (h : list (chan A))
  : chan_result A unit :=
  match c with
  | None => ChBlock
  | Some p =>
      match h !! p with
      | None => ChPanic dangling
      | Some ch =>
          if closed ch then ChPanic "send on closed channel"
          else if (length (buf ch) <? cap ch)%nat
               then ChOk tt (<[p := mkChan (buf ch ++ [x]) (cap ch) false]> h)
               else ChBlock
      end
  end.

(** [x, ok := <-c]: parks for ever on a nil channel; yields the head of
    the buffer while there is one, also after [close]; yields
    [(zero, false)], here [None], on a closed and drained channel; parks
    on an open empty one. *)
Definition heap_recv {A} (c : option nat) (h : list (chan A))
  : chan_result A (option A) :=
  match c with
  | None => ChBlock
  | Some p =>
      match h !! p with
      | None => ChPanic dangling
      | Some ch =>
          match buf ch with
          | x :: rest => ChOk (Some x) (<[p := mkChan rest (cap ch) (closed ch)]> h)
          | [] => if closed ch then ChOk None h else ChBlock
          end
      end
  end.

(** [close(c)] *)
Definition heap_close {A} (c : option nat) (h : list (chan A))
  : chan_result A unit :=
  match c with
  | None => ChPanic "close of nil channel"
  | Some p =>
      match h !! p with
      | None => ChPanic dangling
      | Some ch =>
          if closed ch then ChPanic "close of closed channel"
          else ChOk tt (<[p := mkChan (buf ch) (cap ch) true]> h)
      end
  end.

(** [len(c)]: 0 for the nil channel. *)
Definition heap_len {A} (c : option nat) (h : list (chan A)) : nat :=
  match c with
  | None => 0%nat
  | Some p => match h !! p with Some ch => length (buf ch) | None => 0%nat end
  end.

(** Whether a receive from [c] can proceed at once. *)
Definition heap_recv_ready {A} (c : option nat) (h : list (chan A)) : bool :=
  match heap_recv c h with ChOk _ _ => true | ChPanic _ => true | ChBlock => false end.

Definition lift_conn {R} (r : chan_result tls_Conn R) : M R :=
  fun s => match r with
           | ChOk x h => Ret x (set_connChans h s)
           | ChPanic msg => Panic msg s
           | ChBlock => Block s
           end.

Definition lift_err {R} (r : chan_result error R) : M R :=
  fun s => match r with
           | ChOk x h => Ret x (set_errChans h s)
           | ChPanic msg => Panic msg s
           | ChBlock => Block s
           end.

Definition send_conn (c : option nat) (x : tls_Conn) : M unit :=
  fun s => lift_conn (heap_send c x (connChans s)) s.
Definition recv_conn (c : option nat) : M (option tls_Conn) :=
  fun s => lift_conn (heap_recv c (connChans s)) s.
Definition close_conn_chan (c : option nat) : M unit :=
  fun s => lift_conn (heap_close c (connChans s)) s.
Definition send_err (c : option nat) (e : error) : M unit :=
  fun s => lift_err (heap_send c e (errChans s)) s.
Definition recv_err (c : option nat) : M (option error) :=
  fun s => lift_err (heap_recv c (errChans s)) s.

(** [make(chan net.Conn, n)] and [make(chan error, n)]: a fresh channel at
    the end of the heap. *)
Definition make_conn_chan (n : nat) : M nat :=
  fun s => Ret (length (connChans s)) (set_connChans (connChans s ++ [make_chan n]) s).
Definition make_err_chan (n : nat) : M nat :=
  fun s => Ret (length (errChans s)) (set_errChans (errChans s ++ [make_chan n]) s).

(** [conn.Close()] and [socket.Close()]; the error they return is dropped
    by every caller. *)
Definition conn_Close (c : tls_Conn) : M unit :=
  modify (fun s => set_closedConns (closedConns s ++ [conn_fd c]) s).
Definition socket_Close (sk : nat) : M unit :=
  modify (fun s => set_closedSockets (closedSockets s ++ [sk]) s).

(** [go f()] *)
Definition go (g : goroutine) : M unit :=
  modify (fun s => set_goroutines (goroutines s ++ [g]) s).

(** ** worker.go *)

Definition nil_deref : string :=
  "invalid memory address or nil pointer dereference".

Definition get_worker (w : nat) : M worker :=
  fun s => match workerHeap s !! w with
           | Some x => Ret x s
           | None => Panic nil_deref s
           end.

Definition put_worker (w : nat) (x : worker) : M unit :=
  modify (fun s => set_workerHeap (<[w := x]> (workerHeap s)) s).

(** [&worker{parent: listener, socket: socket}]: a fresh worker, not
    running, its mutex free. *)
Definition new_worker (sk : nat) : M nat :=
  fun s => Ret (length (workerHeap s))
               (set_workerHeap (workerHeap s ++ [mkWorker false sk false]) s).

(** [worker.lock.Lock()]: parks while the mutex is held. *)
Definition mutex_Lock (w : nat) : M unit :=
  x ← get_worker w;
  if lock x then block else put_worker w (mkWorker (running x) (socket x) true).

(** [worker.lock.Unlock()] *)
Definition mutex_Unlock (w : nat) : M unit :=
  x ← get_worker w;
  if lock x then put_worker w (mkWorker (running x) (socket x) false)
  else panic "sync: unlock of unlocked mutex".

Definition set_running (w : nat) (b : bool) : M unit :=
  x ← get_worker w; put_worker w (mkWorker b (socket x) (lock x)).

(** [func (worker *worker) isRunning() bool] *)
Definition isRunning (w : nat) : M bool :=
  mutex_Lock w;;
  x ← get_worker w;
  mutex_Unlock w;;
  mret (running x).

(** [func (worker *worker) start()]: the deferred [Unlock] runs after the
    [go] statement. *)
Definition start (w : nat) : M unit :=
  r ← isRunning w;
  if (r : bool) then mret tt
  else
    mutex_Lock w;;
    set_running w true;;
    go (GoListen w);;
    mutex_Unlock w.

(** [func (worker *worker) stop()] *)
Definition stop (w : nat) : M unit :=
  mutex_Lock w;;
  set_running w false;;
  x ← get_worker w;
  socket_Close (socket x);;
  mutex_Unlock w.

(** ** protocol.go *)

(** The routes of a listener; a nil map reads as the empty map. *)
Definition registry (l : Listener) : gmap string Protocol :=
  default ∅ (channels l).

(** [func (protocol *Protocol) Accept() (net.Conn, error)] *)
Definition Protocol_Accept (p : Protocol) : M (option tls_Conn * option error) :=
  r ← recv_conn (Some (channel p));
  match r with
  | None => mret (None, Some "use of closed socket")
  | Some conn => mret (Some conn, None)
  end.

(** [func (protocol *Protocol) Close() error] *)
Definition Protocol_Close (p : Protocol) : M (option error) :=
  l ← get_listener;
  match registry l !! proto p with
  | Some _ =>
      close_conn_chan (Some (channel p));;
      modify (set_lst (fun l => set_channels (delete (proto p) <$> channels l) l));;
      mret None
  | None => mret (Some "listener already closed")
  end.

(** [func (protocol *Protocol) Addr() net.Addr] *)
Definition Protocol_Addr (p : Protocol) (s : Store) : option net_TCPAddr :=
  addr (lst s).

(** ** listener.go *)

Definition AF_INET : Z := 2.
Definition AF_INET6 : Z := 10.
Definition IPv4len : nat := 4.
Definition IPv6len : nat := 16.

(** [listener.TLSConfig.NextProtos[i] == proto] for some [i], scanning
    from the front. *)
Fixpoint protos_contain (protos : list string) (p : string) : bool :=
  match protos with
  | [] => false
  | q :: rest => if String.eqb q p then true else protos_contain rest p
  end.

(** [func (listener *Listener) protocolConfigured(proto string) bool] *)
Definition protocolConfigured (p : string) : M bool :=
  l ← get_listener;
  match TLSConfig l with
  | None => panic nil_deref
  | Some cfg => mret (protos_contain (NextProtos cfg) p)
  end.

(** [func (listener *Listener) Protocol(proto string) (net.Listener, error)] *)
Definition Listener_Protocol (p : string) : M (option Protocol * option error) :=
  l ← get_listener;
  if (0 <? length (workers l))%nat then
    mret (None, Some "protocol listener must be created before starting listener")
  else
    match registry l !! p with
    | Some _ =>
        mret (None, Some ("protocol listener already declared for proto: " +:+ p))
    | None =>
        configured ← protocolConfigured p;
        if negb configured then
          mret (None, Some ("protocol not specified in the TLS configuration: " +:+ p))
        else
          (match channels l with
           | None => modify (set_lst (set_channels (Some ∅)))
           | Some _ => mret tt
           end);;
          c ← make_conn_chan 1;
          modify (set_lst (fun l =>
            set_channels (<[p := mkProtocol p c]> <$> channels l) l));;
          l' ← get_listener;
          mret (registry l' !! p, None)
    end.

(** [func (listener *Listener) Addr() net.Addr] *)
Definition Listener_Addr (s : Store) : option net_TCPAddr := addr (lst s).

(** The loop over [listener.workers] in [Stop]. *)
Fixpoint stop_workers (ws : list (option nat)) : M unit :=
  match ws with
  | [] => mret tt
  | None :: rest => stop_workers rest
  | Some w :: rest => stop w;; stop_workers rest
  end.

(** The loop over [listener.channels] in [Stop], along the keys in the
    order the iteration yields them.  A key whose entry was deleted before
    the iteration reached it is not produced. *)
Fixpoint close_protocols (keys : list string) : M unit :=
  match keys with
  | [] => mret tt
  | k :: rest =>
      l ← get_listener;
      match registry l !! k with
      | None => close_protocols rest
      | Some p => Protocol_Close p;; close_protocols rest
      end
  end.

(** [func (listener *Listener) Stop()].  Nothing writes
    [listener.workers] or [listener.defaultChannel] before the last
    three statements, so the model reads them once; the registry is read
    anew at every route.  Go leaves the order of a map
    iteration open; the model takes the order of [map_to_list], and
    [Stop_any_order] below shows that every order gives the same result
    on a registry as [Protocol] builds it. *)
Definition Listener_Stop : M unit :=
  l ← get_listener;
  stop_workers (workers l);;
  close_protocols (map_to_list (registry l)).*1;;
  n ← gets (fun s => heap_len (defaultChannel l) (connChans s));
  (if (n =? 1)%nat then
     r ← recv_conn (defaultChannel l);
     match r with
     | Some conn => conn_Close conn
     | None => panic nil_deref
     end
   else mret tt);;
  close_conn_chan (defaultChannel l);;
  modify (set_lst (set_workers []));;
  modify (set_lst (set_channels None));;
  modify (set_lst (set_sockAddr None)).

(** [func (listener *Listener) Close() error] *)
Definition Listener_Close : M (option error) :=
  Listener_Stop;; mret None.

(** [func (listener *Listener) connectionReceived(conn net.Conn)].  The
    workers' sockets are TLS listeners, so [conn] is a [*tls.Conn] and the
    type assertion holds. *)
Definition connectionReceived (tlsConn : tls_Conn) : M unit :=
  match Handshake tlsConn with
  | Some err => conn_Close tlsConn
  | None =>
      l ← get_listener;
      match registry l !! NegotiatedProtocol (ConnectionState tlsConn) with
      | Some p =>
          if NegotiatedProtocolIsMutual (ConnectionState tlsConn)
          then send_conn (Some (channel p)) tlsConn
          else send_conn (defaultChannel l) tlsConn
      | None => send_conn (defaultChannel l) tlsConn
      end
  end.

Section External.

(** What the package asks of the Go library and of the kernel. *)

(** [net.SplitHostPort] *)
Variable SplitHostPort : string -> error + (string * string).
(** [strconv.ParseInt(s, base, bitSize)] *)
Variable ParseInt : string -> Z -> Z -> error + Z.
(** [net.ResolveIPAddr(network, address)] *)
Variable ResolveIPAddr : string -> string -> error + net_IPAddr.
(** The [String()] method of [net.TCPAddr] *)
Variable TCPAddr_String : net_TCPAddr -> string.
(** The system calls of [buildSocket] once the address is known
    ([Socket], [SetsockoptInt] twice, [SetNonblock], [Bind], [Listen],
    [net.FileListener], [tls.NewListener]): the answer to the [n]-th
    request for a socket of a family on an address is the error
    [buildSocket] returns for the call that failed, or the TLS listener
    socket. *)
Variable kernel_listen : nat -> Z -> Sockaddr -> error + nat.

Definition TCPAddr_Network (a : net_TCPAddr) : string := "tcp".

(** [func (listener *Listener) getSocketAddress() (syscall.Sockaddr, error)] *)
Definition getSocketAddress : M (error + Sockaddr) :=
  l ← get_listener;
  match sockAddr l with
  | Some sa => mret (inr sa)
  | None =>
      match SplitHostPort (BindAddr l) with
      | inl err =>
          mret (inl ("split listener address to host and port: " +:+ err))
      | inr (host, port) =>
          match ParseInt port 10 16 with
          | inl err =>
              mret (inl ("parse listener address port to int: " +:+ err))
          | inr portInt =>
              match ResolveIPAddr "ip" host with
              | inl err => mret (inl ("resolove listener address: " +:+ err))
              | inr a =>
                  let n := length (ipaddr_IP a) in
                  if (n =? IPv4len)%nat || (n =? IPv6len)%nat then
                    let sa := if (n =? IPv4len)%nat
                              then SockaddrInet4 portInt (ipaddr_IP a)
                              else SockaddrInet6 portInt (ipaddr_IP a) in
                    modify (set_lst (set_sockAddr (Some sa)));;
                    modify (set_lst (set_addr
                      (Some (mkTCPAddr (ipaddr_IP a) portInt (ipaddr_Zone a)))));;
                    mret (inr sa)
                  else
                    mret (inl ("invalid IP address length: " +:+ pretty n))
              end
          end
      end
  end.

(** [func (listener *Listener) buildSocket() (net.Listener, error)] *)
Definition buildSocket : M (error + nat) :=
  r ← getSocketAddress;
  match r with
  | inl err => mret (inl ("get socket address for bind: " +:+ err))
  | inr socketAddress =>
      let inetFamily := match socketAddress with
                        | SockaddrInet6 _ _ => AF_INET6
                        | SockaddrInet4 _ _ => AF_INET
                        end in
      n ← gets syscalls;
      modify (set_syscalls (S n));;
      mret (kernel_listen n inetFamily socketAddress)
  end.

(** The loop of [Start]: [n] iterations are left, the next index is [i]. *)
Fixpoint Start_loop (n i : nat) : M (option error) :=
  match n with
  | O => mret None
  | S n' =>
      r ← buildSocket;
      match r with
      | inl err =>
          Listener_Stop;;
          mret (Some ("builder worker socket: " +:+ err))
      | inr sk =>
          w ← new_worker sk;
          l ← get_listener;
          if (i <? length (workers l))%nat then
            modify (set_lst (set_workers (<[i := Some w]> (workers l))));;
            start w;;
            Start_loop n' (S i)
          else panic "index out of range"
      end
  end.

(** [func (listener *Listener) Start() error] *)
Definition Listener_Start : M (option error) :=
  l ← get_listener;
  (if (Listeners l =? 0)%Z then modify (set_lst (set_Listeners 1)) else mret tt);;
  l ← get_listener;
  if (Listeners l <? 0)%Z then panic "makeslice: len out of range"
  else
    modify (set_lst (set_workers (replicate (Z.to_nat (Listeners l)) None)));;
    d ← make_conn_chan 1;
    modify (set_lst (set_defaultChannel (Some d)));;
    e ← make_err_chan 1;
    modify (set_lst (set_errors (Some e)));;
    Start_loop (Z.to_nat (Listeners l)) 0.

(** [func (listener *Listener) Accept() (net.Conn, error)].  When both
    cases of the [select] are ready Go picks one at random: [pick] says
    whether it is the first. *)
Definition Listener_Accept (pick : bool) : M (option tls_Conn * option error) :=
  l ← get_listener;
  ready_default ← gets (fun s => heap_recv_ready (defaultChannel l) (connChans s));
  ready_errors ← gets (fun s => heap_recv_ready (errors l) (errChans s));
  if ready_default && (negb ready_errors || pick) then
    r ← recv_conn (defaultChannel l);
    match r with
    | None =>
        match addr l with
        | None => panic nil_deref
        | Some a =>
            mret (None, Some ("accept " +:+ TCPAddr_Network a +:+ " "
                                +:+ TCPAddr_String a
                                +:+ ": use of closed network connection"))
        end
    | Some conn => mret (Some conn, None)
    end
  else if (ready_errors : bool) then
    err ← recv_err (errors l); mret (None, err)
  else block.

End External.

(** *** The system calls of [buildSocket]

    The calls [buildSocket] makes once the address is known, one by one.
    An answer of the kernel may depend on the request it belongs to: [n]
    numbers the calls of [buildSocket]. *)

Definition SOCK_STREAM : Z := 1.
Definition IPPROTO_TCP : Z := 6.
Definition SOL_SOCKET : Z := 1.
Definition SO_REUSEADDR : Z := 2.
Definition SOMAXCONN : Z := 128.

Record Kernel := mkKernel {
  (** [syscall.Socket(domain, typ, proto)] *)
  sys_Socket : nat -> Z -> Z -> Z -> error + nat;
  (** [syscall.SetsockoptInt(fd, level, opt, value)] *)
  sys_SetsockoptInt : nat -> nat -> Z -> Z -> Z -> option error;
  (** [syscall.SetNonblock(fd, nonblocking)] *)
  sys_SetNonblock : nat -> nat -> bool -> option error;
  (** [syscall.Bind(fd, sa)] *)
  sys_Bind : nat -> nat -> Sockaddr -> option error;
  (** [syscall.Listen(fd, backlog)] *)
  sys_Listen : nat -> nat -> Z -> option error;
  (** [net.FileListener(os.NewFile(fd, name))] *)
  net_FileListener : nat -> nat -> error + nat
}.

(** The body of [buildSocket] after the address and the family are
    known: the socket or the error it returns, and the descriptors it
    has passed to [syscall.Close].  [so_reuseport] is the constant of
    that name, which the package takes from a file for each platform;
    [tls.NewListener] wraps the listener it is given.  What the library
    does with the descriptor inside [os.NewFile] and [net.FileListener]
    is not part of the model. *)
Definition build_fd (K : Kernel) (so_reuseport : Z) (n : nat) (inetFamily : Z)
           (socketAddress : Sockaddr) : (error + nat) * list nat :=
  match sys_Socket K n inetFamily SOCK_STREAM IPPROTO_TCP with
  | inl err => (inl ("unable to create socket in kernel: " +:+ err), [])
  | inr fileDescriptor =>
  match sys_SetsockoptInt K n fileDescriptor SOL_SOCKET SO_REUSEADDR 1 with
  | Some err =>
      (inl ("failed to set SO_REUSEADDR on socket: " +:+ err), [fileDescriptor])
  | None =>
  match sys_SetsockoptInt K n fileDescriptor SOL_SOCKET so_reuseport 1 with
  | Some err =>
      (inl ("failed to set SO_REUSEPORT on socket: " +:+ err), [fileDescriptor])
  | None =>
  match sys_SetNonblock K n fileDescriptor true with
  | Some err =>
      (inl ("failed to set non-blocking on socket: " +:+ err), [fileDescriptor])
  | None =>
  match sys_Bind K n fileDescriptor socketAddress with
  | Some err =>
      (inl ("failed to bind socket to address: " +:+ err), [fileDescriptor])
  | None =>
  match sys_Listen K n fileDescriptor SOMAXCONN with
  | Some err =>
      (inl ("failed to start listening for socket: " +:+ err), [fileDescriptor])
  | None =>
  match net_FileListener K n fileDescriptor with
  | inl err =>
      (inl ("failed to convert file descriptor to listener: " +:+ err),
       [fileDescriptor])
  | inr socket => (inr socket, [])
  end end end end end end end.

(** The kernel as [buildSocket] sees it. *)
Definition kernel_of (K : Kernel) (so_reuseport : Z)
  : nat -> Z -> Sockaddr -> error + nat :=
  fun n inetFamily socketAddress =>
    (build_fd K so_reuseport n inetFamily socketAddress).1.

(** ** Goroutines of worker.go

    The three methods of a worker, cut at their mutex, flag, socket and
    channel operations: a goroutine is the worker it runs on and the
    operation it is at.  Each operation is one atomic step; a scheduler
    picks which goroutine moves next. *)

Inductive pc :=
(* start(): isRunning() { Lock; read running; deferred Unlock }, the test,
   then Lock; running = true; go listen(); deferred Unlock *)
| start_isRunning_Lock
| start_isRunning_read
| start_isRunning_Unlock (r : bool)
| start_if (r : bool)
| start_Lock
| start_set
| start_go
| start_Unlock
(* stop(): Lock; running = false; socket.Close(); deferred Unlock *)
| stop_Lock
| stop_set
| stop_Close
| stop_Unlock
(* listen(): for isRunning() { Accept; errors <- err or
   go connectionReceived(conn) } *)
| listen_isRunning_Lock
| listen_isRunning_read
| listen_isRunning_Unlock (r : bool)
| listen_for (r : bool)
| listen_Accept
| listen_send (err : error)
| listen_go (conn : tls_Conn)
(* the method has returned *)
| returned.

Definition thread : Type := nat * pc.

(** What [Accept] on a socket yields when something arrives. *)
Definition accept_event : Type := error + tls_Conn.

(** The error of [Accept] on a socket that was closed. *)
Definition ErrNetClosing : error := "use of closed network connection".

Definition nat_mem (n : nat) (l : list nat) : bool := existsb (Nat.eqb n) l.

(** One operation of goroutine [t]; [ev] is what arrives at the socket, if
    anything does.  The result is the goroutine afterwards and the
    goroutines it started. *)
Definition step_thread (t : thread) (ev : option accept_event)
  : M (thread * list thread) :=
  let w := t.1 in
  match t.2 with
  | start_isRunning_Lock =>
      mutex_Lock w;; mret ((w, start_isRunning_read), [])
  | start_isRunning_read =>
      x ← get_worker w; mret ((w, start_isRunning_Unlock (running x)), [])
  | start_isRunning_Unlock r =>
      mutex_Unlock w;; mret ((w, start_if r), [])
  | start_if r =>
      mret ((w, if r then returned else start_Lock), [])
  | start_Lock =>
      mutex_Lock w;; mret ((w, start_set), [])
  | start_set =>
      set_running w true;; mret ((w, start_go), [])
  | start_go =>
      go (GoListen w);; mret ((w, start_Unlock), [(w, listen_isRunning_Lock)])
  | start_Unlock =>
      mutex_Unlock w;; mret ((w, returned), [])
  | stop_Lock =>
      mutex_Lock w;; mret ((w, stop_set), [])
  | stop_set =>
      set_running w false;; mret ((w, stop_Close), [])
  | stop_Close =>
      x ← get_worker w; socket_Close (socket x);; mret ((w, stop_Unlock), [])
  | stop_Unlock =>
      mutex_Unlock w;; mret ((w, returned), [])
  | listen_isRunning_Lock =>
      mutex_Lock w;; mret ((w, listen_isRunning_read), [])
  | listen_isRunning_read =>
      x ← get_worker w; mret ((w, listen_isRunning_Unlock (running x)), [])
  | listen_isRunning_Unlock r =>
      mutex_Unlock w;; mret ((w, listen_for r), [])
  | listen_for r =>
      mret ((w, if r then listen_Accept else returned), [])
  | listen_Accept =>
      x ← get_worker w;
      cs ← gets closedSockets;
      if nat_mem (socket x) cs then mret ((w, listen_send ErrNetClosing), [])
      else match ev with
           | None => block
           | Some (inl err) => mret ((w, listen_send err), [])
           | Some (inr conn) => mret ((w, listen_go conn), [])
           end
  | listen_send err =>
      l ← get_listener;
      send_err (errors l) err;; mret ((w, listen_isRunning_Lock), [])
  | listen_go conn =>
      go (GoConnectionReceived conn);; mret ((w, listen_isRunning_Lock), [])
  | returned => block
  end.

(** Goroutine [i] of the pool takes a step. *)
Definition step (i : nat) (ev : option accept_event) (pool : list thread)
  : M (list thread) :=
  match pool !! i with
  | None => block
  | Some t =>
      r ← step_thread t ev;
      mret ((<[i := r.1]> pool ++ r.2)%list)
  end.

(** A schedule is run from left to right; an entry whose goroutine cannot
    move leaves everything as it is. *)
Fixpoint run (sched : list (nat * option accept_event)) (pool : list thread)
  : M (list thread) :=
  match sched with
  | [] => mret pool
  | (i, ev) :: rest =>
      fun s => match step i ev pool s with
               | Ret pool' s' => run rest pool' s'
               | Panic msg s' => Panic msg s'
               | Block _ => run rest pool s
               end
  end.

(** [n] steps of goroutine [i], nothing arriving. *)
Definition steps (n i : nat) : list (nat * option accept_event) :=
  replicate n (i, None).

(** ** Notions used by the statements *)

(** *** Queues and routing *)

(** A channel with room for one more element: open and not full. *)
Definition has_room {A} (ch : chan A) : bool :=
  negb (closed ch) && (length (buf ch) <? cap ch)%nat.

(** [ch] after a send of [x]. *)
Definition pushed {A} (x : A) (ch : chan A) : chan A :=
  mkChan (buf ch ++ [x]) (cap ch) false.

(** The connections queued in channel [q]. *)
Definition queue (s : Store) (q : nat) : option (list tls_Conn) :=
  buf <$> connChans s !! q.

(** The errors queued in channel [q]. *)
Definition err_queue (s : Store) (q : nat) : option (list error) :=
  buf <$> errChans s !! q.

(** The call [o] from state [s] returned after it appended [conn] to the
    queue of channel [q] and left every other channel as it was. *)
Definition delivered (conn : tls_Conn) (q : nat) (s : Store) (o : outcome unit) : Prop :=
  ∃ s' ch, o = Ret tt s'
           ∧ connChans s !! q = Some ch
           ∧ connChans s' = <[q := pushed conn ch]> (connChans s).

(** The routing rule in the words of the specification: the queue of the
    route registered for the negotiated name when there is one and the
    negotiation was mutual, the default queue in every other case. *)
Definition spec_target (l : Listener) (st : tls_ConnectionState) : option nat :=
  if bool_decide (is_Some (registry l !! NegotiatedProtocol st))
     && NegotiatedProtocolIsMutual st
  then channel <$> registry l !! NegotiatedProtocol st
  else defaultChannel l.

(** The listener refuses a registration in exactly three cases. *)
Definition registration_refused (s : Store) (cfg : tls_Config) (p : string) : Prop :=
  (0 < length (workers (lst s)))%nat
  ∨ is_Some (registry (lst s) !! p)
  ∨ p ∉ NextProtos cfg.

(** *** What a call leaves alone *)

(** [m] relates every state to the state it ends in, however it ends. *)
Definition preserves {A} (R : Store -> Store -> Prop) (m : M A) : Prop :=
  ∀ s, R s (outcome_store (m s)).

(** What [Stop] leaves alone: the fields of the listener other than the
    worker list, the registry and the cached socket address, and the
    error channels.  The default channel is closed in place: the field
    still names it. *)
Record Stop_frame (s s' : Store) : Prop := mkStopFrame {
  frame_BindAddr : BindAddr (lst s') = BindAddr (lst s);
  frame_TLSConfig : TLSConfig (lst s') = TLSConfig (lst s);
  frame_Listeners : Listeners (lst s') = Listeners (lst s);
  frame_addr : addr (lst s') = addr (lst s);
  frame_defaultChannel : defaultChannel (lst s') = defaultChannel (lst s);
  frame_errors : errors (lst s') = errors (lst s);
  frame_errChans : errChans s' = errChans s;
  frame_goroutines : goroutines s' = goroutines s;
  frame_syscalls : syscalls s' = syscalls s
}.

(** The listener still names the same default and error channels. *)
Definition same_channels (s s' : Store) : Prop :=
  defaultChannel (lst s') = defaultChannel (lst s)
  ∧ errors (lst s') = errors (lst s).

(** The listener names the same default and error channels and the
    error channels hold what they held. *)
Definition keeps_channels (s s' : Store) : Prop :=
  same_channels s s' ∧ errChans s' = errChans s.

(** The connection channels hold what they held. *)
Definition same_connChans (s s' : Store) : Prop :=
  connChans s' = connChans s.

(** The workers and the closed sockets are as they were. *)
Definition same_workers (s s' : Store) : Prop :=
  workerHeap s' = workerHeap s ∧ closedSockets s' = closedSockets s.

(** The worker list, the worker heap and the closed sockets are as they
    were, and so are the connection channels, the registry and the
    default channel. *)
Record build_frame (s s' : Store) : Prop := mkBuildFrame {
  build_workers : workers (lst s') = workers (lst s);
  build_workerHeap : workerHeap s' = workerHeap s;
  build_closedSockets : closedSockets s' = closedSockets s;
  build_connChans : connChans s' = connChans s;
  build_channels : channels (lst s') = channels (lst s);
  build_defaultChannel : defaultChannel (lst s') = defaultChannel (lst s);
  build_goroutines : goroutines s' = goroutines s
}.

(** The listener and the connection channels are as they were. *)
Definition conn_frame (s s' : Store) : Prop :=
  lst s' = lst s ∧ connChans s' = connChans s.

(** *** Stop and Start *)

(** The end of [Stop], after the loops over the workers and the routes;
    [d] is [listener.defaultChannel]. *)
Definition Stop_tail (d : option nat) : M unit :=
  n ← gets (fun s => heap_len d (connChans s));
  (if (n =? 1)%nat then
     r ← recv_conn d;
     match r with
     | Some conn => conn_Close conn
     | None => panic nil_deref
     end
   else mret tt);;
  close_conn_chan d;;
  modify (set_lst (set_workers []));;
  modify (set_lst (set_channels None));;
  modify (set_lst (set_sockAddr None)).

(** The state after route [p], whose channel is [ch], was closed. *)
Definition closed_route (p : Protocol) (ch : chan tls_Conn) (s : Store) : Store :=
  set_lst (fun l => set_channels (delete (proto p) <$> channels l) l)
    (set_connChans (<[channel p := mkChan (buf ch) (cap ch) true]> (connChans s)) s).

(** A route that [Stop] can close: filed under its own name, its channel
    in the heap and open. *)
Definition route_ok (s : Store) (kp : string * Protocol) : bool :=
  String.eqb (proto kp.2) kp.1
  && match connChans s !! channel kp.2 with
     | Some ch => negb (closed ch)
     | None => false
     end.

(** The registry as [Protocol] builds it: every route is filed under its
    own name and has an open channel of its own. *)
Definition registry_ok (s : Store) : bool :=
  forallb (route_ok s) (map_to_list (registry (lst s)))
  && bool_decide (NoDup ((λ kp : string * Protocol, channel kp.2)
                           <$> map_to_list (registry (lst s)))).

(** The routes under [keys] can be closed one after the other, and the
    default channel [d] is not one of theirs and is open. *)
Definition routes_open (d : nat) (keys : list string) (s : Store) : Prop :=
  NoDup keys
  ∧ (∀ k, k ∈ keys →
          ∃ p ch, registry (lst s) !! k = Some p
                  ∧ proto p = k
                  ∧ channel p ≠ d
                  ∧ connChans s !! channel p = Some ch
                  ∧ closed ch = false)
  ∧ (∀ k1 k2 p1 p2, k1 ∈ keys → k2 ∈ keys →
                    registry (lst s) !! k1 = Some p1 →
                    registry (lst s) !! k2 = Some p2 →
                    channel p1 = channel p2 → k1 = k2)
  ∧ ∃ chd, connChans s !! d = Some chd ∧ closed chd = false.

(** Every worker of the list is in the heap with its mutex free. *)
Definition workers_free (s : Store) : Prop :=
  ∀ w, Some w ∈ workers (lst s) →
       ∃ x, workerHeap s !! w = Some x ∧ lock x = false.

(** Worker [w] has been stopped: not running, its socket closed, its
    mutex free. *)
Definition stopped (w : nat) (s : Store) : Prop :=
  ∃ x, workerHeap s !! w = Some x
       ∧ running x = false
       ∧ lock x = false
       ∧ nat_mem (socket x) (closedSockets s) = true.

(** The number of workers [Start] makes: [Listeners], or 1 when it is 0. *)
Definition worker_count (l : Listener) : Z :=
  if (Listeners l =? 0)%Z then 1 else Listeners l.

(** The state in which [Start] enters its loop: the worker count is
    settled, the worker list is made of nils, the default and the error
    channel are fresh. *)
Definition Start_entry (s : Store) : Store :=
  let l := lst s in
  mkStore
    (mkListener (BindAddr l) (TLSConfig l) (worker_count l)
       (replicate (Z.to_nat (worker_count l)) None) (addr l) (sockAddr l)
       (channels l) (Some (length (connChans s))) (Some (length (errChans s))))
    (workerHeap s) (connChans s ++ [make_chan 1]) (errChans s ++ [make_chan 1])
    (closedSockets s) (closedConns s) (goroutines s) (syscalls s).

(** In the loop of [Start] at index [i]: every worker made since the heap
    had [base] workers is in the worker list, and the list is nil from
    [i] on. *)
Definition listed (base i : nat) (s : Store) : Prop :=
  (∀ w, (base ≤ w < length (workerHeap s))%nat → Some w ∈ workers (lst s))
  ∧ (∀ j, (i ≤ j < length (workers (lst s)))%nat → workers (lst s) !! j = Some None).

(** What [Start] leaves behind when it returns an error. *)
Definition rolled_back (base : nat) (s' : Store) : Prop :=
  workers (lst s') = []
  ∧ channels (lst s') = None
  ∧ sockAddr (lst s') = None
  ∧ (∀ w, (base ≤ w < length (workerHeap s'))%nat → stopped w s')
  ∧ ∃ q ch, defaultChannel (lst s') = Some q
            ∧ connChans s' !! q = Some ch
            ∧ closed ch = true.

(** What [Start] has done when it returns no error: [n] requests to the
    kernel, each answered with a socket, and [n] workers more than the
    [base] there were. *)
Definition all_built (kernel_listen : nat -> Z -> Sockaddr -> error + nat)
           (n : nat) (s s' : Store) : Prop :=
  syscalls s' = (syscalls s + n)%nat
  ∧ length (workerHeap s') = (length (workerHeap s) + n)%nat
  ∧ ∀ j, (j < n)%nat →
         ∃ family sa sk, kernel_listen (syscalls s + j)%nat family sa = inr sk.

(** *** Goroutines *)

(** The store with worker [w] replaced by [y]. *)
Definition upd (w : nat) (y : worker) (s : Store) : Store :=
  set_workerHeap (<[w := y]> (workerHeap s)) s.

(** The points a call of [start] passes through when it finds the worker
    running. *)
Definition sees_running (p : pc) : bool :=
  match p with
  | start_isRunning_Lock | start_isRunning_read
  | start_isRunning_Unlock true | start_if true | returned => true
  | _ => false
  end.

(** Every goroutine of the pool is a call of [start] on [w] that has not
    read the flag as false. *)
Definition starts_on (w : nat) (pool : list thread) : Prop :=
  Forall (λ t : thread, t.1 = w ∧ sees_running t.2 = true) pool.

(** The points of the test of [start] at which the call holds the
    mutex. *)
Definition in_isRunning (p : pc) : bool :=
  match p with
  | start_isRunning_read | start_isRunning_Unlock _ => true
  | _ => false
  end.

(** How many goroutines of the pool hold the mutex. *)
Definition holders (pool : list thread) : nat :=
  sum_list_with (λ t : thread, if in_isRunning t.2 then 1%nat else 0%nat) pool.

(** Worker [w] is running, [g] are the goroutines started so far, and
    the mutex is held exactly when a goroutine of the pool holds it. *)
Definition running_locked (w : nat) (g : list goroutine) (pool : list thread)
           (s : Store) : Prop :=
  goroutines s = g
  ∧ ∃ x, workerHeap s !! w = Some x
         ∧ running x = true
         ∧ holders pool = (if lock x then 1%nat else 0%nat).

(** *** The address of the sockets *)

(** [listener.BindAddr = b], an assignment by the user of the package. *)
Definition set_BindAddr (b : string) (l : Listener) : Listener :=
  mkListener b (TLSConfig l) (Listeners l) (workers l) (addr l)
             (sockAddr l) (channels l) (defaultChannel l) (errors l).

(** The family [buildSocket] asks the kernel for on the address [sa]. *)
Definition family_of (sa : Sockaddr) : Z :=
  match sa with
  | SockaddrInet6 _ _ => AF_INET6
  | SockaddrInet4 _ _ => AF_INET
  end.

(** Every call on the way to a listening socket on [sa] succeeded, on
    the descriptor [fd], and gave the socket [sk]. *)
Definition socket_made (K : Kernel) (so_reuseport : Z) (n : nat) (sa : Sockaddr)
           (fd sk : nat) : Prop :=
  sys_Socket K n (family_of sa) SOCK_STREAM IPPROTO_TCP = inr fd
  ∧ sys_SetsockoptInt K n fd SOL_SOCKET SO_REUSEADDR 1 = None
  ∧ sys_SetsockoptInt K n fd SOL_SOCKET so_reuseport 1 = None
  ∧ sys_SetNonblock K n fd true = None
  ∧ sys_Bind K n fd sa = None
  ∧ sys_Listen K n fd SOMAXCONN = None
  ∧ net_FileListener K n fd = inr sk.

(** The state with [sa] as the cached socket address and [a] as the
    address the listener reports. *)
Definition with_address (sa : Sockaddr) (a : option net_TCPAddr) (s : Store) : Store :=
  set_lst (fun l => set_addr a (set_sockAddr (Some sa) l)) s.

(** The state after one round of the loop of [Start] at index [i]: the
    address is cached, the kernel was asked once and answered with the
    socket [sk], a worker on [sk] is at the end of the heap and at [i] in
    the worker list, running, and its accept loop was launched. *)
Definition Start_round (sa : Sockaddr) (a : option net_TCPAddr) (i sk : nat)
           (s : Store) : Store :=
  let w := length (workerHeap s) in
  mkStore
    (set_workers (<[i := Some w]> (workers (lst s)))
       (set_addr a (set_sockAddr (Some sa) (lst s))))
    (workerHeap s ++ [mkWorker true sk false])
    (connChans s) (errChans s) (closedSockets s) (closedConns s)
    (goroutines s ++ [GoListen w]) (S (syscalls s)).

(** What a [Start] that returned no error has built on top of [s]: one
    worker for each of the [n] it was asked for, listed in the order they
    were made, each running with its mutex free on the socket the kernel
    gave for it on the address [sa], and one accept loop for each. *)
Record Start_built (kernel_listen : nat -> Z -> Sockaddr -> error + nat)
       (sa : Sockaddr) (n : nat) (s s' : Store) : Prop := mkStartBuilt {
  built_workers :
    workers (lst s') = Some <$> seq (length (workerHeap s)) n;
  built_heap_old : take (length (workerHeap s)) (workerHeap s') = workerHeap s;
  built_heap_length : length (workerHeap s') = (length (workerHeap s) + n)%nat;
  built_heap_new :
    ∀ j, (j < n)%nat →
         ∃ sk, kernel_listen (syscalls s + j)%nat (family_of sa) sa = inr sk
               ∧ workerHeap s' !! (length (workerHeap s) + j)%nat
                 = Some (mkWorker true sk false);
  built_goroutines :
    goroutines s' = goroutines s ++ (GoListen <$> seq (length (workerHeap s)) n);
  built_syscalls : syscalls s' = (syscalls s + n)%nat;
  built_sockAddr : sockAddr (lst s') = Some sa;
  built_channels : channels (lst s') = channels (lst s);
  built_defaultChannel : defaultChannel (lst s') = Some (length (connChans s));
  built_errors : errors (lst s') = Some (length (errChans s));
  built_connChans : connChans s' = connChans s ++ [make_chan 1];
  built_errChans : errChans s' = errChans s ++ [make_chan 1];
  built_closedSockets : closedSockets s' = closedSockets s;
  built_closedConns : closedConns s' = closedConns s
}.

(** *** The mutex of a worker *)

(** The points between a [Lock] and its [Unlock]: the goroutine holds
    the mutex of its worker. *)
Definition holds_mutex (p : pc) : bool :=
  match p with
  | start_isRunning_read | start_isRunning_Unlock _
  | start_set | start_go | start_Unlock
  | stop_set | stop_Close | stop_Unlock
  | listen_isRunning_read | listen_isRunning_Unlock _ => true
  | _ => false
  end.

(** How many goroutines of the pool are between a [Lock] and its
    [Unlock]. *)
Definition mutex_holders (pool : list thread) : nat :=
  sum_list_with (λ t : thread, if holds_mutex t.2 then 1%nat else 0%nat) pool.

(** The goroutines of the pool all run on worker [w]; the mutex of [w] is
    held exactly when one of them is between a [Lock] and its [Unlock];
    the error channel of the listener, when it has one, is open. *)
Definition worker_ok (w : nat) (pool : list thread) (s : Store) : Prop :=
  Forall (λ t : thread, t.1 = w) pool
  ∧ (∃ x, workerHeap s !! w = Some x
          ∧ mutex_holders pool = if lock x then 1%nat else 0%nat)
  ∧ (∀ e, errors (lst s) = Some e →
          ∃ ch, errChans s !! e = Some ch ∧ closed ch = false).

(** *** A listener that is running *)

(** The default channel as [Start] makes it: in the heap, open, and not
    the channel of a route. *)
Definition default_ok (s : Store) : bool :=
  match defaultChannel (lst s) with
  | None => false
  | Some d =>
      match connChans s !! d with
      | None => false
      | Some chd =>
          negb (closed chd)
          && forallb (λ kp : string * Protocol, negb (channel kp.2 =? d)%nat)
               (map_to_list (registry (lst s)))
      end
  end.

(** The queues hold what they held and no connection was closed. *)
Definition queues_kept (s s' : Store) : Prop :=
  closedConns s' = closedConns s ∧ ∀ q, queue s' q = queue s q.

(** A channel that was closed is closed. *)
Definition closed_kept (s s' : Store) : Prop :=
  ∀ q ch, connChans s !! q = Some ch → closed ch = true →
          ∃ ch', connChans s' !! q = Some ch' ∧ closed ch' = true.

(** The registry and the default channel are as they were, and every
    channel is open or closed as it was. *)
Definition flags_kept (s s' : Store) : Prop :=
  channels (lst s') = channels (lst s)
  ∧ defaultChannel (lst s') = defaultChannel (lst s)
  ∧ ∀ q, (closed <$> connChans s' !! q) = (closed <$> connChans s !! q).

(** The registry and the default channel are in order. *)
Definition in_order (s : Store) : Prop :=
  registry_ok s = true ∧ default_ok s = true.

(** *** A listener to run the model on

    The listener of the package's test, the library calls answering as
    they do for its address, and a kernel that hands out sockets until the
    request numbered [fail_at]. *)
Module Example.

Definition cfg : tls_Config := mkConfig ["h2"].

Definition listener (bind : string) (n : Z) : Listener :=
  mkListener bind (Some cfg) n [] None None None None None.

(** The state before anything was called. *)
Definition init (bind : string) (n : Z) : Store :=
  mkStore (listener bind n) [] [] [] [] [] [] 0.

Definition s0 : Store := init "127.0.0.1:6080" 0.

Definition SplitHostPort (a : string) : error + (string * string) :=
  if String.eqb a "127.0.0.1:6080" then inr ("127.0.0.1", "6080")
  else inl ("address " +:+ a +:+ ": missing port in address").

Definition ParseInt (p : string) (base bits : Z) : error + Z :=
  if String.eqb p "6080" then inr 6080
  else inl ("strconv.ParseInt: parsing " +:+ p +:+ ": invalid syntax").

(** 127.0.0.1 in the 16-byte form in which the library returns it. *)
Definition localhost : list Byte.byte :=
  [Byte.x00; Byte.x00; Byte.x00; Byte.x00; Byte.x00; Byte.x00; Byte.x00; Byte.x00;
   Byte.x00; Byte.x00; Byte.xff; Byte.xff; Byte.x7f; Byte.x00; Byte.x00; Byte.x01].

Definition ResolveIPAddr (network host : string) : error + net_IPAddr :=
  inr (mkIPAddr localhost "").

Definition TCPAddr_String (a : net_TCPAddr) : string := "127.0.0.1:6080".

Definition kernel_listen (fail_at : nat) (n : nat) (family : Z) (sa : Sockaddr)
  : error + nat :=
  if (n =? fail_at)%nat then inl "failed to bind socket to address: address already in use"
  else inr n.

Definition Start (fail_at : nat) : M (option error) :=
  Listener_Start SplitHostPort ParseInt ResolveIPAddr (kernel_listen fail_at).

Definition Accept : bool -> M (option tls_Conn * option error) :=
  Listener_Accept TCPAddr_String.

(** A connection whose handshake negotiated [name]. *)
Definition conn_ok (fd : nat) (name : string) (mutual : bool) : tls_Conn :=
  mkConn fd None (mkConnectionState name mutual).

(** A connection whose handshake failed. *)
Definition conn_bad (fd : nat) : tls_Conn :=
  mkConn fd (Some "tls: first record does not look like a TLS handshake")
         (mkConnectionState "" false).

(** The state after ["h2"] was registered and [Start] bound [n] sockets. *)
Definition started (n : Z) : Store :=
  outcome_store ((Listener_Protocol "h2";; Start 99) (init "127.0.0.1:6080" n)).

(** The state after ["h2"] was registered on a listener of [n] workers. *)
Definition registered (n : Z) : Store :=
  outcome_store (Listener_Protocol "h2" (init "127.0.0.1:6080" n)).

(** The state inside [Start] when the worker was made and [start] is
    about to be called on it. *)
Definition idle : Store :=
  set_goroutines [] (set_workerHeap [mkWorker false 0 false] (started 1)).

End Example.

(** ** Properties *)

(** Unfolds the plumbing of [M]. *)
Ltac unfold_M :=
  unfold mbind, M_bind, bind, mret, M_ret, ret, gets, modify, get_listener,
    panic, block in *.

Lemma protos_contain_elem (protos : list string) (p : string) :
  protos_contain protos p = true ↔ p ∈ protos.
Proof.
  induction protos as [|q rest IH]; simpl.
  - split; [discriminate | intros H; inversion H].
  - destruct (String.eqb_spec q p) as [->|Hne].
    + split; [intros _; left | reflexivity].
    + rewrite IH. split; [by right | ].
      intros H. inversion H; subst; [congruence | done].
Qed.

Lemma heap_send_room {A} (h : list (chan A)) (q : nat) (ch : chan A) (x : A) :
  h !! q = Some ch → has_room ch = true →
  heap_send (Some q) x h = ChOk tt (<[q := pushed x ch]> h).
Proof.
  intros Hq Hroom. unfold heap_send, has_room in *. rewrite Hq.
  apply andb_true_iff in Hroom as [Hc Hl].
  destruct (closed ch); [discriminate|]. by rewrite Hl.
Qed.

Lemma send_conn_room (s : Store) (q : nat) (ch : chan tls_Conn) (x : tls_Conn) :
  connChans s !! q = Some ch → has_room ch = true →
  send_conn (Some q) x s
  = Ret tt (set_connChans (<[q := pushed x ch]> (connChans s)) s).
Proof.
  intros Hq Hroom. unfold send_conn.
  by rewrite (heap_send_room _ _ _ _ Hq Hroom).
Qed.

(** *** Registration of a route *)

Lemma Protocol_after_start (s : Store) (p : string) :
  (0 < length (workers (lst s)))%nat →
  Listener_Protocol p s
  = Ret (None, Some "protocol listener must be created before starting listener") s.
Proof.
  intros H. unfold Listener_Protocol. unfold_M.
  apply Nat.ltb_lt in H. by rewrite H.
Qed.

Lemma Protocol_duplicate (s : Store) (p : string) (r : Protocol) :
  workers (lst s) = [] → registry (lst s) !! p = Some r →
  Listener_Protocol p s
  = Ret (None, Some ("protocol listener already declared for proto: " +:+ p)) s.
Proof.
  intros Hw Hr. unfold Listener_Protocol. unfold_M.
  rewrite Hw; simpl. by rewrite Hr.
Qed.

Lemma Protocol_unlisted (s : Store) (p : string) (cfg : tls_Config) :
  workers (lst s) = [] → registry (lst s) !! p = None →
  TLSConfig (lst s) = Some cfg → p ∉ NextProtos cfg →
  Listener_Protocol p s
  = Ret (None, Some ("protocol not specified in the TLS configuration: " +:+ p)) s.
Proof.
  intros Hw Hr Hc Hp. unfold Listener_Protocol, protocolConfigured. unfold_M.
  rewrite Hw; simpl. rewrite Hr; simpl. rewrite Hc; simpl.
  destruct (protos_contain (NextProtos cfg) p) eqn:E; [|done].
  by apply protos_contain_elem in E.
Qed.

Lemma Protocol_registers (s : Store) (p : string) (cfg : tls_Config) :
  workers (lst s) = [] → registry (lst s) !! p = None →
  TLSConfig (lst s) = Some cfg → p ∈ NextProtos cfg →
  Listener_Protocol p s
  = Ret (Some (mkProtocol p (length (connChans s))), None)
        (set_lst (set_channels
                    (Some (<[p := mkProtocol p (length (connChans s))]>
                             (registry (lst s)))))
           (set_connChans (connChans s ++ [make_chan 1]) s)).
Proof.
  intros Hw Hr Hc Hp. unfold Listener_Protocol, protocolConfigured. unfold_M.
  rewrite Hw; simpl. rewrite Hr; simpl. rewrite Hc; simpl.
  apply protos_contain_elem in Hp. rewrite Hp. simpl.
  unfold registry in *.
  destruct (channels (lst s)) as [m|] eqn:Hm; simpl;
    unfold make_conn_chan, registry; simpl; rewrite ?Hm; simpl;
    rewrite lookup_insert_eq; unfold set_lst, set_channels, set_connChans;
    simpl; rewrite ?Hm; reflexivity.
Qed.

(** C2.  On a listener with a TLS configuration, [Protocol(name)] returns
    an error and leaves the whole state, the registry included, as it was
    exactly when workers exist, or [name] is already registered, or [name]
    is not in [TLSConfig.NextProtos]; otherwise it returns the new route
    and the registry gains an entry for [name] whose queue is a fresh,
    empty, open channel of capacity 1. *)
Theorem Protocol_fails_exactly_when (s : Store) (cfg : tls_Config) (p : string) :
  TLSConfig (lst s) = Some cfg →
  (registration_refused s cfg p
   ↔ ∃ err, Listener_Protocol p s = Ret (None, Some err) s)
  ∧ (¬ registration_refused s cfg p →
     ∃ s', Listener_Protocol p s
           = Ret (Some (mkProtocol p (length (connChans s))), None) s'
       ∧ registry (lst s')
         = <[p := mkProtocol p (length (connChans s))]> (registry (lst s))
       ∧ connChans s' = connChans s ++ [make_chan 1]
       ∧ connChans s' !! length (connChans s) = Some (mkChan [] 1 false)).
Proof.
  intros Hc.
  assert (Hdec : registration_refused s cfg p ∨
                 (workers (lst s) = [] ∧ registry (lst s) !! p = None
                  ∧ p ∈ NextProtos cfg)).
  { unfold registration_refused.
    destruct (workers (lst s)) as [|w ws] eqn:Hw; simpl; [|left; left; lia].
    destruct (registry (lst s) !! p) as [r|] eqn:Hr; [left; right; left; eauto|].
    destruct (decide (p ∈ NextProtos cfg)); [by right | by left; right; right]. }
  assert (Hfail : registration_refused s cfg p →
                  ∃ err, Listener_Protocol p s = Ret (None, Some err) s).
  { intros [Hw | Hrest].
    - eexists. by apply Protocol_after_start.
    - destruct (workers (lst s)) as [|w ws] eqn:Hw.
      + destruct Hrest as [[r Hr] | Hp].
        * eexists. by eapply Protocol_duplicate.
        * destruct (registry (lst s) !! p) as [r|] eqn:Hr.
          -- eexists. by eapply Protocol_duplicate.
          -- eexists. by eapply Protocol_unlisted.
      + eexists. apply Protocol_after_start. rewrite Hw. simpl. lia. }
  assert (Hok : workers (lst s) = [] → registry (lst s) !! p = None →
                p ∈ NextProtos cfg →
                ¬ registration_refused s cfg p).
  { intros Hw Hr Hp [H | [[r H] | H]].
    - rewrite Hw in H. simpl in H. lia.
    - congruence.
    - done. }
  split.
  - split; [exact Hfail|].
    intros [err Herr]. destruct Hdec as [H | (Hw & Hr & Hp)]; [done|].
    rewrite (Protocol_registers s p cfg Hw Hr Hc Hp) in Herr. discriminate.
  - intros Hnot. destruct Hdec as [H | (Hw & Hr & Hp)]; [done|].
    eexists. split; [by apply (Protocol_registers s p cfg)|].
    simpl. split; [done|]. split; [done|].
    rewrite lookup_app_r by lia. by rewrite Nat.sub_diag.
Qed.

Lemma Protocol_fails_exactly_when_witness :
  TLSConfig (lst Example.s0) = Some Example.cfg
  ∧ (registration_refused Example.s0 Example.cfg "h3"
     ↔ ∃ err, Listener_Protocol "h3" Example.s0 = Ret (None, Some err) Example.s0).
Proof.
  split; [reflexivity|].
  apply (Protocol_fails_exactly_when Example.s0 Example.cfg "h3"). reflexivity.
Defined.

(** Without a TLS configuration the check of the protocol list panics. *)
Lemma Protocol_nil_config (s : Store) (p : string) :
  workers (lst s) = [] → registry (lst s) !! p = None →
  TLSConfig (lst s) = None →
  Listener_Protocol p s = Panic nil_deref s.
Proof.
  intros Hw Hr Hc. unfold Listener_Protocol, protocolConfigured. unfold_M.
  rewrite Hw; simpl. rewrite Hr; simpl. by rewrite Hc.
Qed.

(** *** The routing decision *)

(** After a handshake that succeeded the connection is sent on the
    channel the routing rule names. *)
Lemma connectionReceived_target (s : Store) (conn : tls_Conn) :
  Handshake conn = None →
  connectionReceived conn s
  = send_conn (spec_target (lst s) (ConnectionState conn)) conn s.
Proof.
  intros Hh. unfold connectionReceived, spec_target. rewrite Hh. unfold_M.
  destruct (registry (lst s) !! NegotiatedProtocol (ConnectionState conn))
    as [p|] eqn:Hp; simpl.
  - by destruct (NegotiatedProtocolIsMutual (ConnectionState conn)).
  - done.
Qed.

Lemma delivered_send (s : Store) (conn : tls_Conn) (q : nat) (ch : chan tls_Conn) :
  connChans s !! q = Some ch → has_room ch = true →
  delivered conn q s (send_conn (Some q) conn s).
Proof.
  intros Hq Hroom. rewrite (send_conn_room s q ch conn Hq Hroom).
  by exists (set_connChans (<[q := pushed conn ch]> (connChans s)) s), ch.
Qed.

Lemma delivered_unique (s : Store) (conn : tls_Conn) (q q' : nat) (o : outcome unit) :
  delivered conn q s o → delivered conn q' s o → q = q'.
Proof.
  intros (s1 & ch & Ho & Hq & Hh) (s2 & ch' & Ho' & Hq' & Hh').
  rewrite Ho in Ho'. injection Ho' as <-.
  destruct (decide (q = q')) as [|Hne]; [done|exfalso].
  assert (Hlook : connChans s1 !! q = Some ch).
  { rewrite Hh', list_lookup_insert_ne by done. exact Hq. }
  rewrite Hh, list_lookup_insert_eq in Hlook by (by eapply lookup_lt_Some).
  injection Hlook as Hlook. apply (f_equal (λ c, length (buf c))) in Hlook.
  simpl in Hlook. rewrite length_app in Hlook. simpl in Hlook. lia.
Qed.

(** When the queues have room, so that the sends complete, and the queue
    of a route is not the default queue: the connection is appended to
    the queue of the route registered for the negotiated name if and only
    if the negotiation was mutual, and to the default queue if and only
    if there is no such route or the negotiation was not mutual. *)
Lemma connectionReceived_delivers
  (s : Store) (conn : tls_Conn) (d : nat) (chd : chan tls_Conn) :
  let name := NegotiatedProtocol (ConnectionState conn) in
  let mutual := NegotiatedProtocolIsMutual (ConnectionState conn) in
  let o := connectionReceived conn s in
  Handshake conn = None →
  defaultChannel (lst s) = Some d →
  connChans s !! d = Some chd → has_room chd = true →
  (∀ p, registry (lst s) !! name = Some p →
        channel p ≠ d
        ∧ ∃ chp, connChans s !! channel p = Some chp ∧ has_room chp = true) →
  (∀ p, registry (lst s) !! name = Some p →
        (delivered conn (channel p) s o ↔ mutual = true))
  ∧ (delivered conn d s o ↔ registry (lst s) !! name = None ∨ mutual = false).
Proof.
  intros name mutual o Hh Hd Hchd Hroom Hroutes. subst o.
  rewrite (connectionReceived_target s conn Hh). unfold spec_target.
  fold name mutual. rewrite Hd.
  destruct (registry (lst s) !! name) as [p|] eqn:Hp; simpl.
  - destruct (Hroutes p eq_refl) as (Hne & chp & Hchp & Hroomp).
    destruct mutual; simpl.
    + split.
      * intros p' [= <-]. split; [done|]. intros _. by eapply delivered_send.
      * split; [|intros [?|?]; discriminate].
        intros Hdel. exfalso. apply Hne. symmetry.
        eapply delivered_unique; [exact Hdel|]. by eapply delivered_send.
    + split.
      * intros p' [= <-]. split; [|discriminate].
        intros Hdel. exfalso. apply Hne.
        eapply delivered_unique; [exact Hdel|]. by eapply delivered_send.
      * split; [by right|]. intros _. by eapply delivered_send.
  - split; [intros p' [=]|].
    split; [by left|]. intros _. by eapply delivered_send.
Qed.

(** C3.  A connection whose handshake succeeded is sent on the channel
    of the route registered for the negotiated name when there is such a
    route and the negotiation was mutual, and on the default channel in
    every other case.  When the queues have room the send completes: the
    connection is appended to the queue of that route if and only if
    there is such a route and the negotiation was mutual, and to the
    default queue in every other case. *)
Theorem connectionReceived_routes (s : Store) (conn : tls_Conn) :
  let name := NegotiatedProtocol (ConnectionState conn) in
  let mutual := NegotiatedProtocolIsMutual (ConnectionState conn) in
  let o := connectionReceived conn s in
  Handshake conn = None →
  o = send_conn (spec_target (lst s) (ConnectionState conn)) conn s
  ∧ ∀ d chd,
      defaultChannel (lst s) = Some d →
      connChans s !! d = Some chd → has_room chd = true →
      (∀ p, registry (lst s) !! name = Some p →
            channel p ≠ d
            ∧ ∃ chp, connChans s !! channel p = Some chp ∧ has_room chp = true) →
      (∀ p, registry (lst s) !! name = Some p →
            (delivered conn (channel p) s o ↔ mutual = true))
      ∧ (delivered conn d s o ↔ registry (lst s) !! name = None ∨ mutual = false).
Proof.
  intros name mutual o Hh. split.
  - by apply connectionReceived_target.
  - intros d chd Hd Hchd Hroom Hroutes.
    by apply (connectionReceived_delivers s conn d chd).
Qed.

Lemma connectionReceived_routes_witness :
  let s := Example.started 1 in
  let conn := Example.conn_ok 5 "h2" true in
  Handshake conn = None
  ∧ connectionReceived conn s = send_conn (Some 0%nat) conn s
  ∧ (∀ p, registry (lst s) !! "h2" = Some p →
          (delivered conn (channel p) s (connectionReceived conn s) ↔ true = true)).
Proof.
  intros s conn. split; [reflexivity|].
  destruct (connectionReceived_routes s conn eq_refl) as [Htarget Hdeliver].
  split; [exact Htarget|].
  apply (Hdeliver 1%nat (make_chan 1)).
  - reflexivity.
  - reflexivity.
  - reflexivity.
  - intros p Hp. vm_compute in Hp. injection Hp as <-.
    split; [discriminate|]. exists (make_chan 1). split; reflexivity.
Defined.

(** *** Handshake failures *)

(** C5.  When the handshake of an accepted connection fails,
    [connectionReceived] closes the connection and returns; no route
    queue, default queue or error channel receives anything, no goroutine
    is started and the listener is as before. *)
Theorem handshake_failure_dropped (s : Store) (conn : tls_Conn) (err : error) :
  Handshake conn = Some err →
  ∃ s', connectionReceived conn s = Ret tt s'
        ∧ closedConns s' = closedConns s ++ [conn_fd conn]
        ∧ connChans s' = connChans s
        ∧ errChans s' = errChans s
        ∧ goroutines s' = goroutines s
        ∧ lst s' = lst s.
Proof.
  intros Hh. unfold connectionReceived. rewrite Hh.
  eexists. split; [reflexivity|]. by simpl.
Qed.

Lemma handshake_failure_dropped_witness :
  let s := Example.started 1 in
  let conn := Example.conn_bad 5 in
  ∃ s', connectionReceived conn s = Ret tt s'
        ∧ closedConns s' = closedConns s ++ [5%nat]
        ∧ connChans s' = connChans s
        ∧ errChans s' = errChans s
        ∧ goroutines s' = goroutines s
        ∧ lst s' = lst s.
Proof.
  intros s conn.
  apply (handshake_failure_dropped s conn
           "tls: first record does not look like a TLS handshake").
  reflexivity.
Defined.

(** *** What calls leave alone *)

Section Preserves.

Context (R : Store -> Store -> Prop) `{!PreOrder R}.

Lemma preserves_ret {A} (a : A) : preserves R (mret a).
Proof. intros s. simpl. reflexivity. Qed.

Lemma preserves_bind {A B} (m : M A) (k : A -> M B) :
  preserves R m → (∀ a, preserves R (k a)) → preserves R (m ≫= k).
Proof.
  intros Hm Hk s. specialize (Hm s). unfold_M.
  destruct (m s) as [a s1|msg s1|s1]; simpl in *; [|done|done].
  etrans; [exact Hm|]. apply Hk.
Qed.

Lemma preserves_block {A} : preserves R (@block A).
Proof. intros s. simpl. reflexivity. Qed.

Lemma preserves_panic {A} (msg : string) : preserves R (@panic A msg).
Proof. intros s. simpl. reflexivity. Qed.

Lemma preserves_gets {A} (f : Store -> A) : preserves R (gets f).
Proof. intros s. simpl. reflexivity. Qed.

Lemma preserves_get_listener : preserves R get_listener.
Proof. intros s. simpl. reflexivity. Qed.

Lemma preserves_modify (f : Store -> Store) :
  (∀ s, R s (f s)) → preserves R (modify f).
Proof. intros Hf s. simpl. apply Hf. Qed.

Lemma preserves_lift_conn {X} (r : list (chan tls_Conn) -> chan_result tls_Conn X) :
  (∀ s h, R s (set_connChans h s)) →
  preserves R (fun s => lift_conn (r (connChans s)) s).
Proof.
  intros Hset s. unfold lift_conn.
  destruct (r (connChans s)); simpl; [apply Hset|reflexivity|reflexivity].
Qed.

Lemma preserves_lift_err {X} (r : list (chan error) -> chan_result error X) :
  (∀ s h, R s (set_errChans h s)) →
  preserves R (fun s => lift_err (r (errChans s)) s).
Proof.
  intros Hset s. unfold lift_err.
  destruct (r (errChans s)); simpl; [apply Hset|reflexivity|reflexivity].
Qed.

(** The operations of a worker move within the worker heap, the log of
    closed sockets and the log of goroutines. *)
Hypothesis R_workerHeap : ∀ s h, R s (set_workerHeap h s).
Hypothesis R_closedSockets : ∀ s c, R s (set_closedSockets c s).
Hypothesis R_goroutines : ∀ s g, R s (set_goroutines g s).

Lemma preserves_get_worker (w : nat) : preserves R (get_worker w).
Proof.
  intros s. unfold get_worker. destruct (workerHeap s !! w); simpl; reflexivity.
Qed.

Lemma preserves_put_worker (w : nat) (x : worker) : preserves R (put_worker w x).
Proof. apply preserves_modify. intros s. apply R_workerHeap. Qed.

Lemma preserves_mutex_Lock (w : nat) : preserves R (mutex_Lock w).
Proof.
  apply preserves_bind; [apply preserves_get_worker|]. intros x.
  destruct (lock x); [apply preserves_block | apply preserves_put_worker].
Qed.

Lemma preserves_mutex_Unlock (w : nat) : preserves R (mutex_Unlock w).
Proof.
  apply preserves_bind; [apply preserves_get_worker|]. intros x.
  destruct (lock x); [apply preserves_put_worker | apply preserves_panic].
Qed.

Lemma preserves_set_running (w : nat) (b : bool) : preserves R (set_running w b).
Proof.
  apply preserves_bind; [apply preserves_get_worker|]. intros x.
  apply preserves_put_worker.
Qed.

Lemma preserves_isRunning (w : nat) : preserves R (isRunning w).
Proof.
  apply preserves_bind; [apply preserves_mutex_Lock|]. intros _.
  apply preserves_bind; [apply preserves_get_worker|]. intros x.
  apply preserves_bind; [apply preserves_mutex_Unlock|]. intros _.
  apply preserves_ret.
Qed.

Lemma preserves_go (g : goroutine) : preserves R (go g).
Proof. apply preserves_modify. intros s. apply R_goroutines. Qed.

Lemma preserves_start (w : nat) : preserves R (start w).
Proof.
  apply preserves_bind; [apply preserves_isRunning|]. intros r.
  destruct r; [apply preserves_ret|].
  apply preserves_bind; [apply preserves_mutex_Lock|]. intros _.
  apply preserves_bind; [apply preserves_set_running|]. intros _.
  apply preserves_bind; [apply preserves_go|]. intros _.
  apply preserves_mutex_Unlock.
Qed.

Lemma preserves_stop (w : nat) : preserves R (stop w).
Proof.
  apply preserves_bind; [apply preserves_mutex_Lock|]. intros _.
  apply preserves_bind; [apply preserves_set_running|]. intros _.
  apply preserves_bind; [apply preserves_get_worker|]. intros x.
  apply preserves_bind;
    [apply preserves_modify; intros s; apply R_closedSockets|]. intros _.
  apply preserves_mutex_Unlock.
Qed.

Lemma preserves_stop_workers (ws : list (option nat)) : preserves R (stop_workers ws).
Proof.
  induction ws as [|[w|] ws IH]; simpl; [apply preserves_ret| |exact IH].
  apply preserves_bind; [apply preserves_stop|]. intros _. exact IH.
Qed.

End Preserves.

#[local] Instance Stop_frame_preorder : PreOrder Stop_frame.
Proof.
  split.
  - intros s. by split.
  - intros s1 s2 s3 [] []. split; congruence.
Qed.

#[local] Instance same_channels_preorder : PreOrder same_channels.
Proof.
  split.
  - intros s. by split.
  - intros s1 s2 s3 [] []. split; congruence.
Qed.

Lemma bind_Ret_inv {A B} (m : M A) (k : A -> M B) (s s' : Store) (b : B) :
  (m ≫= k) s = Ret b s' → ∃ a s1, m s = Ret a s1 ∧ k a s1 = Ret b s'.
Proof.
  unfold_M. destruct (m s) as [a s1|msg s1|s1]; [eauto|discriminate|discriminate].
Qed.

Lemma bind_Ret {A B} (m : M A) (k : A -> M B) (s s1 : Store) (a : A) :
  m s = Ret a s1 → (m ≫= k) s = k a s1.
Proof. intros H. unfold_M. by rewrite H. Qed.

Lemma Stop_frame_Protocol_Close (p : Protocol) : preserves Stop_frame (Protocol_Close p).
Proof.
  apply (preserves_bind Stop_frame); [apply (preserves_get_listener Stop_frame)|]. intros l.
  destruct (registry l !! proto p); [|apply (preserves_ret Stop_frame)].
  apply (preserves_bind Stop_frame).
  { apply (preserves_lift_conn Stop_frame (heap_close (Some (channel p)))).
    intros s h. by split. }
  intros _. apply (preserves_bind Stop_frame); [|intros _; apply (preserves_ret Stop_frame)].
  apply (preserves_modify Stop_frame). intros s. by split.
Qed.

Lemma Stop_frame_close_protocols (keys : list string) :
  preserves Stop_frame (close_protocols keys).
Proof.
  induction keys as [|k keys IH]; simpl; [apply (preserves_ret Stop_frame)|].
  apply (preserves_bind Stop_frame); [apply (preserves_get_listener Stop_frame)|]. intros l.
  destruct (registry l !! k); [|exact IH].
  apply (preserves_bind Stop_frame); [apply Stop_frame_Protocol_Close|]. intros _. exact IH.
Qed.

Lemma Stop_frame_Stop : preserves Stop_frame Listener_Stop.
Proof.
  unfold Listener_Stop.
  apply (preserves_bind Stop_frame); [apply (preserves_get_listener Stop_frame)|]. intros l.
  apply (preserves_bind Stop_frame).
  { apply (preserves_stop_workers Stop_frame); intros; by split. }
  intros _. apply (preserves_bind Stop_frame); [apply Stop_frame_close_protocols|]. intros _.
  apply (preserves_bind Stop_frame); [apply (preserves_gets Stop_frame)|]. intros n.
  apply (preserves_bind Stop_frame).
  { destruct (n =? 1)%nat; [|apply (preserves_ret Stop_frame)].
    apply (preserves_bind Stop_frame).
    - apply (preserves_lift_conn Stop_frame (heap_recv (defaultChannel l))).
      intros s h. by split.
    - intros [conn|]; [|apply (preserves_panic Stop_frame)].
      apply (preserves_modify Stop_frame). intros s. by split. }
  intros _. apply (preserves_bind Stop_frame).
  { apply (preserves_lift_conn Stop_frame (heap_close (defaultChannel l))).
    intros s h. by split. }
  intros _. apply (preserves_bind Stop_frame); [apply (preserves_modify Stop_frame); intros s; by split|].
  intros _. apply (preserves_bind Stop_frame); [apply (preserves_modify Stop_frame); intros s; by split|].
  intros _. apply (preserves_modify Stop_frame); intros s; by split.
Qed.

(** When [Stop] returns it has cleared the worker list, the registry and
    the cached socket address. *)
Lemma Stop_clears (s s' : Store) :
  Listener_Stop s = Ret tt s' →
  workers (lst s') = [] ∧ channels (lst s') = None ∧ sockAddr (lst s') = None.
Proof.
  unfold Listener_Stop. intros H.
  repeat (apply bind_Ret_inv in H as (? & ? & ? & H)).
  unfold modify in *. simplify_eq. by simpl.
Qed.

(** *** The frame of Stop *)

(** C10.  However [Stop] ends, [BindAddr], [TLSConfig], the worker count
    and the resolved address of the listener are as before, and so are
    the error channel and the field naming the default channel; [Addr()]
    answers after [Stop] what it answered before.  When [Stop] returns,
    the worker list, the registry and the cached socket address are
    cleared. *)
Theorem Stop_only_clears_running_state (s : Store) :
  let s' := outcome_store (Listener_Stop s) in
  Stop_frame s s'
  ∧ Listener_Addr s' = Listener_Addr s
  ∧ match Listener_Stop s with
    | Ret _ s1 =>
        workers (lst s1) = [] ∧ channels (lst s1) = None ∧ sockAddr (lst s1) = None
    | Panic _ _ | Block _ => True
    end.
Proof.
  intros s'. pose proof (Stop_frame_Stop s) as Hf. fold s' in Hf.
  split; [exact Hf|]. split; [exact (frame_addr _ _ Hf)|].
  destruct (Listener_Stop s) as [[] s1|msg s1|s1] eqn:E; [|done|done].
  by apply (Stop_clears s).
Qed.

(** *** Stop on a listener that is not running *)

Lemma Stop_unfold (s : Store) :
  Listener_Stop s
  = (stop_workers (workers (lst s));;
     close_protocols (map_to_list (registry (lst s))).*1;;
     Stop_tail (defaultChannel (lst s))) s.
Proof. reflexivity. Qed.

(** [Stop_tail] returns only after it closed an open default channel,
    which then holds no single pending connection. *)
Lemma Stop_tail_Ret (d : option nat) (s s' : Store) :
  Stop_tail d s = Ret tt s' →
  ∃ q ch, d = Some q
          ∧ connChans s' !! q = Some ch
          ∧ closed ch = true
          ∧ length (buf ch) ≠ 1%nat
          ∧ workers (lst s') = []
          ∧ channels (lst s') = None
          ∧ sockAddr (lst s') = None
          ∧ defaultChannel (lst s') = defaultChannel (lst s).
Proof.
  unfold Stop_tail, recv_conn, close_conn_chan, conn_Close. unfold_M.
  destruct d as [q|]; simpl; [|discriminate].
  destruct (connChans s !! q) as [ch|] eqn:Hq; simpl.
  - destruct (buf ch) as [|x [|y rest]] eqn:Hb; simpl.
    + rewrite Hq. simpl. destruct (closed ch) eqn:Hc; simpl; [discriminate|].
      intros [= <-]. exists q, (mkChan (buf ch) (cap ch) true). simpl.
      rewrite list_lookup_insert_eq by (by eapply lookup_lt_Some).
      rewrite Hb. simpl. repeat split; done.
    + rewrite Hq, Hb. simpl.
      rewrite list_lookup_insert_eq by (by eapply lookup_lt_Some). simpl.
      destruct (closed ch) eqn:Hc; simpl; [discriminate|].
      intros [= <-]. exists q, (mkChan [] (cap ch) true). simpl.
      rewrite list_lookup_insert_eq
        by (rewrite length_insert; by eapply lookup_lt_Some).
      repeat split; done.
    + rewrite Hq. simpl. destruct (closed ch) eqn:Hc; simpl; [discriminate|].
      intros [= <-]. exists q, (mkChan (buf ch) (cap ch) true). simpl.
      rewrite list_lookup_insert_eq by (by eapply lookup_lt_Some).
      rewrite Hb. simpl. repeat split; done.
  - rewrite Hq. simpl. discriminate.
Qed.

(** [Stop] on a listener whose default channel is nil: nothing to stop,
    nothing to close, then [close] of the nil channel panics. *)
Lemma Stop_never_started (s : Store) :
  workers (lst s) = [] → channels (lst s) = None →
  defaultChannel (lst s) = None →
  Listener_Stop s = Panic "close of nil channel" s.
Proof.
  intros Hw Hc Hd. rewrite Stop_unfold. unfold registry. rewrite Hw, Hc, Hd.
  reflexivity.
Qed.

(** [Stop] on a listener that a [Stop] has just left: the default channel
    is still named by the listener and is closed, and [close] panics. *)
Lemma Stop_again (s s1 : Store) :
  Listener_Stop s = Ret tt s1 →
  Listener_Stop s1 = Panic "close of closed channel" s1.
Proof.
  intros H. pose proof (Stop_frame_Stop s) as Hf. rewrite H in Hf. simpl in Hf.
  rewrite Stop_unfold in H.
  apply bind_Ret_inv in H as (? & sa & _ & H).
  apply bind_Ret_inv in H as (? & sb & _ & H).
  apply Stop_tail_Ret in H as (q & ch & Hd & Hq & Hc & Hl & Hw & Hr & _ & _).
  rewrite Stop_unfold. unfold registry.
  rewrite Hw, Hr, (frame_defaultChannel _ _ Hf), Hd. simpl.
  rewrite map_to_list_empty. simpl.
  unfold Stop_tail, close_conn_chan. unfold_M. simpl. rewrite Hq. simpl.
  apply Nat.eqb_neq in Hl. rewrite Hl. simpl. rewrite Hq, Hc. reflexivity.
Qed.

(** C1 (the code breaks it).  [Stop] on the listener of the test before
    it was ever started panics with "close of nil channel", and a second
    [Stop] after [Start] and [Stop] panics with "close of closed
    channel". *)
Theorem Stop_when_not_running_panics :
  Listener_Stop Example.s0 = Panic "close of nil channel" Example.s0
  ∧ ∃ s1, (Listener_Protocol "h2";; Example.Start 99;; Listener_Stop) Example.s0
          = Ret tt s1
          ∧ Listener_Stop s1 = Panic "close of closed channel" s1.
Proof.
  split; [reflexivity|].
  eexists. split; [vm_compute; reflexivity|]. vm_compute. reflexivity.
Qed.

(** *** The lifetime of the default and error channels *)

#[local] Instance keeps_channels_preorder : PreOrder keeps_channels.
Proof.
  split.
  - intros s. by split.
  - intros s1 s2 s3 [[] ?] [[] ?]. repeat split; congruence.
Qed.

#[local] Instance same_connChans_preorder : PreOrder same_connChans.
Proof.
  split.
  - intros s. reflexivity.
  - intros s1 s2 s3. unfold same_connChans. congruence.
Qed.

Lemma preserves_weaken {A} (R R' : Store -> Store -> Prop) (m : M A) :
  (∀ s s', R s s' → R' s s') → preserves R m → preserves R' m.
Proof. intros HR Hm s. apply HR, Hm. Qed.

Lemma preserves_Ret {A} (R : Store -> Store -> Prop) (m : M A) (s s' : Store) (a : A) :
  preserves R m → m s = Ret a s' → R s s'.
Proof. intros Hm H. specialize (Hm s). by rewrite H in Hm. Qed.

(** Walks through a call built from the operations of [M]; [leaf] closes
    the goals about single updates of the state. *)
Ltac preserves_walk R leaf :=
  repeat first
    [ apply (preserves_ret R)
    | apply (preserves_panic R)
    | apply (preserves_block R)
    | apply (preserves_gets R)
    | apply (preserves_get_listener R)
    | apply (preserves_get_worker R)
    | apply (preserves_bind R); [|intros ?]
    | apply (preserves_modify R); intros ?; leaf
    | apply (preserves_lift_conn R); intros ? ?; leaf
    | apply (preserves_lift_err R); intros ? ?; leaf
    | apply (preserves_mutex_Lock R); intros ? ?; leaf
    | apply (preserves_mutex_Unlock R); intros ? ?; leaf
    | apply (preserves_set_running R); intros ? ?; leaf
    | apply (preserves_go R); intros ? ?; leaf
    | apply (preserves_start R); intros ? ?; leaf
    | apply (preserves_stop_workers R); intros ? ?; leaf
    | match goal with
      | |- preserves _ (match ?x with _ => _ end) => destruct x
      end ].

Ltac same_channels_leaf := by (split; simpl).
Ltac keeps_channels_leaf := by (repeat split; simpl).

Lemma same_channels_Protocol (p : string) :
  preserves same_channels (Listener_Protocol p).
Proof.
  unfold Listener_Protocol, protocolConfigured, make_conn_chan.
  preserves_walk same_channels same_channels_leaf.
Qed.

Lemma same_channels_Stop : preserves same_channels Listener_Stop.
Proof.
  apply (preserves_weaken Stop_frame); [|apply Stop_frame_Stop].
  intros s s' []. by split.
Qed.

Lemma same_channels_Close : preserves same_channels Listener_Close.
Proof.
  apply (preserves_bind same_channels); [apply same_channels_Stop|].
  intros _. apply (preserves_ret same_channels).
Qed.

Lemma same_channels_Accept (TCPAddr_String : net_TCPAddr -> string) (pick : bool) :
  preserves same_channels (Listener_Accept TCPAddr_String pick).
Proof.
  unfold Listener_Accept, recv_conn, recv_err.
  preserves_walk same_channels same_channels_leaf.
Qed.

Lemma same_channels_connectionReceived (conn : tls_Conn) :
  preserves same_channels (connectionReceived conn).
Proof.
  unfold connectionReceived, conn_Close, send_conn.
  preserves_walk same_channels same_channels_leaf.
Qed.

Lemma same_channels_Protocol_Accept (p : Protocol) :
  preserves same_channels (Protocol_Accept p).
Proof.
  unfold Protocol_Accept, recv_conn.
  preserves_walk same_channels same_channels_leaf.
Qed.

Lemma same_channels_Protocol_Close (p : Protocol) :
  preserves same_channels (Protocol_Close p).
Proof.
  apply (preserves_weaken Stop_frame); [|apply Stop_frame_Protocol_Close].
  intros s s' []. by split.
Qed.

Lemma same_channels_step (i : nat) (ev : option accept_event) (pool : list thread) :
  preserves same_channels (step i ev pool).
Proof.
  unfold step. destruct (pool !! i) as [[w p]|]; [|apply (preserves_block same_channels)].
  apply (preserves_bind same_channels);
    [|intros ?; apply (preserves_ret same_channels)].
  unfold step_thread, socket_Close, send_err. simpl.
  destruct p; preserves_walk same_channels same_channels_leaf.
Qed.

Section StartProperties.

Variable SplitHostPort : string -> error + (string * string).
Variable ParseInt : string -> Z -> Z -> error + Z.
Variable ResolveIPAddr : string -> string -> error + net_IPAddr.
Variable kernel_listen : nat -> Z -> Sockaddr -> error + nat.

Abbreviation getSocketAddress' := (getSocketAddress SplitHostPort ParseInt ResolveIPAddr).
Abbreviation buildSocket' :=
  (buildSocket SplitHostPort ParseInt ResolveIPAddr kernel_listen).
Abbreviation Start_loop' :=
  (Start_loop SplitHostPort ParseInt ResolveIPAddr kernel_listen).
Abbreviation Start' :=
  (Listener_Start SplitHostPort ParseInt ResolveIPAddr kernel_listen).

Lemma Start_unfold (s : Store) :
  0 ≤ Listeners (lst s) →
  Start' s = Start_loop' (Z.to_nat (worker_count (lst s))) 0 (Start_entry s).
Proof.
  intros Hn. unfold Listener_Start, Start_entry, worker_count. unfold_M.
  destruct (Listeners (lst s) =? 0) eqn:E; simpl.
  - reflexivity.
  - destruct (Listeners (lst s) <? 0) eqn:E'; [lia|]. reflexivity.
Qed.

Lemma Start_negative (s : Store) :
  Listeners (lst s) < 0 →
  Start' s = Panic "makeslice: len out of range" s.
Proof.
  intros Hn. unfold Listener_Start. unfold_M.
  destruct (Listeners (lst s) =? 0) eqn:E; [lia|]. simpl.
  destruct (Listeners (lst s) <? 0) eqn:E'; [|lia]. by destruct s.
Qed.

Lemma keeps_channels_getSocketAddress : preserves keeps_channels getSocketAddress'.
Proof.
  unfold getSocketAddress.
  preserves_walk keeps_channels keeps_channels_leaf.
Qed.

Lemma keeps_channels_buildSocket : preserves keeps_channels buildSocket'.
Proof.
  unfold buildSocket.
  apply (preserves_bind keeps_channels); [apply keeps_channels_getSocketAddress|].
  intros r. preserves_walk keeps_channels keeps_channels_leaf.
Qed.

Lemma keeps_channels_Stop : preserves keeps_channels Listener_Stop.
Proof.
  apply (preserves_weaken Stop_frame); [|apply Stop_frame_Stop].
  intros s s' []. by repeat split.
Qed.

Lemma keeps_channels_Start_loop (n i : nat) : preserves keeps_channels (Start_loop' n i).
Proof.
  revert i. induction n as [|n IH]; intros i; simpl.
  - apply (preserves_ret keeps_channels).
  - apply (preserves_bind keeps_channels); [apply keeps_channels_buildSocket|].
    intros [err|sk].
    + apply (preserves_bind keeps_channels); [apply keeps_channels_Stop|].
      intros _. apply (preserves_ret keeps_channels).
    + unfold new_worker.
      apply (preserves_bind keeps_channels); [intros s; keeps_channels_leaf|].
      intros w. apply (preserves_bind keeps_channels);
        [apply (preserves_get_listener keeps_channels)|].
      intros l. destruct (i <? length (workers l))%nat;
        [|apply (preserves_panic keeps_channels)].
      apply (preserves_bind keeps_channels);
        [apply (preserves_modify keeps_channels); intros s; keeps_channels_leaf|].
      intros _. apply (preserves_bind keeps_channels).
      { apply (preserves_start keeps_channels); intros; keeps_channels_leaf. }
      intros _. apply IH.
Qed.

Lemma same_connChans_getSocketAddress : preserves same_connChans getSocketAddress'.
Proof.
  unfold getSocketAddress.
  preserves_walk same_connChans ltac:(reflexivity).
Qed.

Lemma same_connChans_buildSocket : preserves same_connChans buildSocket'.
Proof.
  unfold buildSocket.
  apply (preserves_bind same_connChans); [apply same_connChans_getSocketAddress|].
  intros r. preserves_walk same_connChans ltac:(reflexivity).
Qed.

(** A loop that ends without an error has left the connection channels
    as they were. *)
Lemma Start_loop_success_connChans (n i : nat) (s s' : Store) :
  Start_loop' n i s = Ret None s' → connChans s' = connChans s.
Proof.
  revert i s. induction n as [|n IH]; intros i s; simpl.
  - by intros [= <-].
  - intros H. apply bind_Ret_inv in H as ([err|sk] & s1 & Hb & H).
    + apply bind_Ret_inv in H as (? & ? & _ & H). discriminate.
    + apply (preserves_Ret same_connChans) in Hb; [|apply same_connChans_buildSocket].
      apply bind_Ret_inv in H as (w & s2 & Hw & H).
      unfold new_worker in Hw. injection Hw as <- <-.
      apply bind_Ret_inv in H as (l & s3 & Hl & H).
      unfold get_listener in Hl. injection Hl as <- <-.
      destruct (_ <? _)%nat; [|discriminate].
      apply bind_Ret_inv in H as (? & s4 & Hm & H).
      unfold modify in Hm. injection Hm as _ Hm.
      apply bind_Ret_inv in H as (? & s5 & Hs & H).
      apply (preserves_Ret same_connChans) in Hs;
        [|apply (preserves_start same_connChans); intros; reflexivity].
      apply IH in H. unfold same_connChans in *.
      rewrite H, Hs, <- Hm. simpl. exact Hb.
Qed.

(** However [Start] ends on a listener with a worker count that is not
    negative, the listener then names a default channel and an error
    channel that did not exist before, and the error channel is empty and
    open. *)
Lemma Start_creates_channels (s : Store) :
  0 ≤ Listeners (lst s) →
  let s' := outcome_store (Start' s) in
  defaultChannel (lst s') = Some (length (connChans s))
  ∧ errors (lst s') = Some (length (errChans s))
  ∧ errChans s' = errChans s ++ [make_chan 1].
Proof.
  intros Hn s'. subst s'. rewrite (Start_unfold s Hn).
  destruct (keeps_channels_Start_loop (Z.to_nat (worker_count (lst s))) 0
              (Start_entry s)) as [[Hd He] Hc].
  rewrite Hd, He, Hc. by simpl.
Qed.

(** When [Start] returns without an error the default channel is the
    fresh channel: empty, open, of capacity 1. *)
Lemma Start_success_default_channel (s s' : Store) :
  Start' s = Ret None s' →
  connChans s' = connChans s ++ [make_chan 1].
Proof.
  intros H. destruct (decide (0 ≤ Listeners (lst s))) as [Hn|Hn].
  - rewrite (Start_unfold s Hn) in H.
    apply Start_loop_success_connChans in H. rewrite H. by simpl.
  - rewrite Start_negative in H by lia. discriminate.
Qed.

End StartProperties.

(** When [Stop] returns it has closed the default channel, and the error
    channels are as they were. *)
Lemma Stop_closes_default (s s1 : Store) :
  Listener_Stop s = Ret tt s1 →
  ∃ q ch, defaultChannel (lst s) = Some q
          ∧ defaultChannel (lst s1) = Some q
          ∧ connChans s1 !! q = Some ch
          ∧ closed ch = true
          ∧ errors (lst s1) = errors (lst s)
          ∧ errChans s1 = errChans s.
Proof.
  intros H. pose proof (Stop_frame_Stop s) as Hf. rewrite H in Hf. simpl in Hf.
  rewrite Stop_unfold in H.
  apply bind_Ret_inv in H as (? & sa & _ & H).
  apply bind_Ret_inv in H as (? & sb & _ & H).
  apply Stop_tail_Ret in H as (q & ch & Hd & Hq & Hc & _).
  exists q, ch. rewrite (frame_defaultChannel _ _ Hf).
  repeat split; try done; apply Hf.
Qed.

(** C7 (as the code has it).  [Start] makes both channels: however it
    ends, the listener names a default channel and an error channel that
    did not exist before, the error channel empty and open, and so is the
    default channel when [Start] returns no error.  [Stop], when it
    returns, has closed the default channel and has left the error
    channel as it was.  No other call, and no step of a worker's
    goroutine, makes the listener name another default or error
    channel. *)
Theorem channels_made_by_Start_default_closed_by_Stop
  (SplitHostPort : string -> error + (string * string))
  (ParseInt : string -> Z -> Z -> error + Z)
  (ResolveIPAddr : string -> string -> error + net_IPAddr)
  (TCPAddr_String : net_TCPAddr -> string)
  (kernel_listen : nat -> Z -> Sockaddr -> error + nat) :
  let Start := Listener_Start SplitHostPort ParseInt ResolveIPAddr kernel_listen in
  (∀ s, 0 ≤ Listeners (lst s) →
        defaultChannel (lst (outcome_store (Start s))) = Some (length (connChans s))
        ∧ errors (lst (outcome_store (Start s))) = Some (length (errChans s))
        ∧ errChans (outcome_store (Start s)) = errChans s ++ [make_chan 1])
  ∧ (∀ s s', Start s = Ret None s' →
             connChans s' = connChans s ++ [make_chan 1])
  ∧ (∀ s s', Listener_Stop s = Ret tt s' →
             ∃ q ch, defaultChannel (lst s') = Some q
                     ∧ connChans s' !! q = Some ch
                     ∧ closed ch = true
                     ∧ errors (lst s') = errors (lst s)
                     ∧ errChans s' = errChans s)
  ∧ (∀ p, preserves same_channels (Listener_Protocol p))
  ∧ (∀ pick, preserves same_channels (Listener_Accept TCPAddr_String pick))
  ∧ preserves same_channels Listener_Stop
  ∧ preserves same_channels Listener_Close
  ∧ (∀ conn, preserves same_channels (connectionReceived conn))
  ∧ (∀ p, preserves same_channels (Protocol_Accept p))
  ∧ (∀ p, preserves same_channels (Protocol_Close p))
  ∧ (∀ i ev pool, preserves same_channels (step i ev pool)).
Proof.
  intros Start.
  split. { intros s Hn. by apply Start_creates_channels. }
  split. { apply Start_success_default_channel. }
  split.
  { intros s s' H. apply Stop_closes_default in H
      as (q & ch & _ & Hd & Hq & Hc & He & Hh). by exists q, ch. }
  split; [apply same_channels_Protocol|].
  split; [apply same_channels_Accept|].
  split; [apply same_channels_Stop|].
  split; [apply same_channels_Close|].
  split; [apply same_channels_connectionReceived|].
  split; [apply same_channels_Protocol_Accept|].
  split; [apply same_channels_Protocol_Close|].
  apply same_channels_step.
Qed.

Lemma channels_made_by_Start_default_closed_by_Stop_witness :
  ∃ q ch, defaultChannel (lst (outcome_store (Listener_Stop (Example.started 1))))
          = Some q
          ∧ connChans (outcome_store (Listener_Stop (Example.started 1))) !! q
            = Some ch
          ∧ closed ch = true
          ∧ errors (lst (outcome_store (Listener_Stop (Example.started 1))))
            = errors (lst (Example.started 1))
          ∧ errChans (outcome_store (Listener_Stop (Example.started 1)))
            = errChans (Example.started 1).
Proof.
  destruct (channels_made_by_Start_default_closed_by_Stop
              Example.SplitHostPort Example.ParseInt Example.ResolveIPAddr
              Example.TCPAddr_String (Example.kernel_listen 99))
    as (_ & _ & HStop & _).
  apply (HStop (Example.started 1)). vm_compute. reflexivity.
Defined.

(** C7 as stated fails: after [Start] and [Stop] the error channel is
    still open. *)
Lemma error_channel_open_after_Stop :
  ∃ s1 e ch,
    (Listener_Protocol "h2";; Example.Start 99;; Listener_Stop) Example.s0
    = Ret tt s1
    ∧ errors (lst s1) = Some e
    ∧ errChans s1 !! e = Some ch
    ∧ closed ch = false.
Proof.
  eexists. exists 0%nat, (make_chan 1).
  split; [vm_compute; reflexivity|]. repeat split.
Qed.

(** *** Accept after close *)

Lemma Protocol_Accept_closed_drained (s : Store) (p : Protocol) (ch : chan tls_Conn) :
  connChans s !! channel p = Some ch → closed ch = true → buf ch = [] →
  Protocol_Accept p s = Ret (None, Some "use of closed socket") s.
Proof.
  intros Hq Hc Hb. unfold Protocol_Accept, recv_conn. unfold_M. simpl.
  rewrite Hq, Hb, Hc. simpl. by destruct s.
Qed.

Lemma Protocol_Accept_queued (s : Store) (p : Protocol) (ch : chan tls_Conn)
      (conn : tls_Conn) (rest : list tls_Conn) :
  connChans s !! channel p = Some ch → buf ch = conn :: rest →
  Protocol_Accept p s
  = Ret (Some conn, None)
        (set_connChans (<[channel p := mkChan rest (cap ch) (closed ch)]> (connChans s)) s).
Proof.
  intros Hq Hb. unfold Protocol_Accept, recv_conn. unfold_M. simpl.
  by rewrite Hq, Hb.
Qed.

Lemma Listener_Accept_closed_drained
      (TCPAddr_String : net_TCPAddr -> string)
      (s : Store) (d : nat) (ch : chan tls_Conn) (a : net_TCPAddr) (pick : bool) :
  defaultChannel (lst s) = Some d →
  connChans s !! d = Some ch → closed ch = true → buf ch = [] →
  addr (lst s) = Some a →
  pick = true ∨ heap_recv_ready (errors (lst s)) (errChans s) = false →
  Listener_Accept TCPAddr_String pick s
  = Ret (None, Some ("accept tcp " +:+ TCPAddr_String a
                       +:+ ": use of closed network connection")) s.
Proof.
  intros Hd Hq Hc Hb Ha Hpick.
  unfold Listener_Accept, recv_conn, heap_recv_ready. unfold_M. simpl.
  rewrite Hd. simpl. rewrite Hq, Hb, Hc. simpl.
  assert (Hsel : negb match heap_recv (errors (lst s)) (errChans s) with
                      | ChBlock => false
                      | _ => true
                      end || pick = true).
  { destruct Hpick as [->|He]; [apply orb_true_r|].
    unfold heap_recv_ready in He. by rewrite He. }
  rewrite Hsel. simpl. rewrite Hq, Hb, Hc. simpl. rewrite Ha.
  by destruct s.
Qed.

(** What [Accept] answers after a close when it does answer.  [Accept]
    on a listener whose default channel is closed and drained returns the
    error "accept tcp ADDR: use of closed network connection" when the
    address of the listener was resolved and the [select] takes the
    default channel (as it must when no worker error is pending);
    [Accept] on a route whose channel is closed and drained returns the
    error "use of closed socket"; a connection still queued in a route
    is returned first, closed or not. *)
Theorem Accept_after_close
  (TCPAddr_String : net_TCPAddr -> string) (s : Store) :
  (∀ d ch a pick,
      defaultChannel (lst s) = Some d →
      connChans s !! d = Some ch → closed ch = true → buf ch = [] →
      addr (lst s) = Some a →
      pick = true ∨ heap_recv_ready (errors (lst s)) (errChans s) = false →
      Listener_Accept TCPAddr_String pick s
      = Ret (None, Some ("accept tcp " +:+ TCPAddr_String a
                           +:+ ": use of closed network connection")) s)
  ∧ (∀ p ch,
      connChans s !! channel p = Some ch → closed ch = true → buf ch = [] →
      Protocol_Accept p s = Ret (None, Some "use of closed socket") s)
  ∧ (∀ p ch conn rest,
      connChans s !! channel p = Some ch → buf ch = conn :: rest →
      ∃ s', Protocol_Accept p s = Ret (Some conn, None) s'
            ∧ queue s' (channel p) = Some rest).
Proof.
  split; [|split].
  - intros d ch a pick. apply Listener_Accept_closed_drained.
  - intros p ch. apply Protocol_Accept_closed_drained.
  - intros p ch conn rest Hq Hb.
    rewrite (Protocol_Accept_queued s p ch conn rest Hq Hb).
    eexists. split; [reflexivity|]. unfold queue. simpl.
    by rewrite list_lookup_insert_eq by (by eapply lookup_lt_Some).
Qed.

Lemma Accept_after_close_witness :
  let s := outcome_store (Listener_Stop (Example.started 1)) in
  Example.Accept false s
  = Ret (None, Some "accept tcp 127.0.0.1:6080: use of closed network connection") s
  ∧ Protocol_Accept (mkProtocol "h2" 0) s
    = Ret (None, Some "use of closed socket") s.
Proof.
  intros s.
  destruct (Accept_after_close Example.TCPAddr_String s) as (HL & HP & _).
  split.
  - apply (HL 1%nat (mkChan [] 1%nat true)
              (mkTCPAddr Example.localhost 6080 "") false);
      try reflexivity.
    right. reflexivity.
  - apply (HP (mkProtocol "h2" 0) (mkChan [] 1%nat true)); reflexivity.
Defined.

(** A route that is closed while a connection is queued answers the
    next [Accept] with that connection and no error: [Close] does not
    drain the channel. *)
Lemma closed_route_returns_queued_connection :
  let conn := Example.conn_ok 5 "h2" true in
  let h2 := mkProtocol "h2" 0 in
  ∃ s1 s2,
    (connectionReceived conn;; Protocol_Close h2) (Example.started 1)
    = Ret None s1
    ∧ (closed <$> connChans s1 !! channel h2) = Some true
    ∧ Protocol_Accept h2 s1 = Ret (Some conn, None) s2.
Proof.
  intros conn h2. eexists. eexists.
  split; [vm_compute; reflexivity|].
  split; [reflexivity|]. vm_compute. reflexivity.
Qed.

(** [Accept] on a listener whose default channel is closed and drained
    and whose address was never resolved: the error message is built
    from [listener.addr], which is nil, and the call panics. *)
Lemma Listener_Accept_nil_addr
      (TCPAddr_String : net_TCPAddr -> string)
      (s : Store) (d : nat) (ch : chan tls_Conn) (pick : bool) :
  defaultChannel (lst s) = Some d →
  connChans s !! d = Some ch → closed ch = true → buf ch = [] →
  addr (lst s) = None →
  pick = true ∨ heap_recv_ready (errors (lst s)) (errChans s) = false →
  Listener_Accept TCPAddr_String pick s = Panic nil_deref s.
Proof.
  intros Hd Hq Hc Hb Ha Hpick.
  unfold Listener_Accept, recv_conn, heap_recv_ready. unfold_M. simpl.
  rewrite Hd. simpl. rewrite Hq, Hb, Hc. simpl.
  assert (Hsel : negb match heap_recv (errors (lst s)) (errChans s) with
                      | ChBlock => false
                      | _ => true
                      end || pick = true).
  { destruct Hpick as [->|He]; [apply orb_true_r|].
    unfold heap_recv_ready in He. by rewrite He. }
  rewrite Hsel. simpl. rewrite Hq, Hb, Hc. simpl. rewrite Ha.
  by destruct s.
Qed.

(** C6 (the code breaks it).  [Accept] on a closed default route can
    panic.  When [Start] fails before the bind address is resolved (here
    [BindAddr] has no port), it has closed the default channel through
    [Stop] while [listener.addr] is still nil; the next [Accept],
    whichever case the [select] would prefer, finds the default channel
    closed, builds its error message from [listener.addr] and panics on
    the nil pointer.  And a closed route does not answer as the closed
    listener does: after the [Stop] of the package's test the listener
    answers "accept tcp 127.0.0.1:6080: use of closed network
    connection", which listener_test.go expects of the route as well,
    and the route answers "use of closed socket". *)
Theorem Accept_after_failed_Start_panics :
  (∃ err s1 d ch,
      Example.Start 99 (Example.init "localhost" 1) = Ret (Some err) s1
      ∧ defaultChannel (lst s1) = Some d
      ∧ connChans s1 !! d = Some ch ∧ closed ch = true ∧ buf ch = []
      ∧ addr (lst s1) = None
      ∧ ∀ pick, Example.Accept pick s1 = Panic nil_deref s1)
  ∧ (let s := outcome_store (Listener_Stop (Example.started 1)) in
     Example.Accept true s
     = Ret (None, Some "accept tcp 127.0.0.1:6080: use of closed network connection") s
     ∧ Protocol_Accept (mkProtocol "h2" 0) s
       = Ret (None, Some "use of closed socket") s).
Proof.
  split.
  - eexists _, _, 0%nat, (mkChan [] 1 true).
    split; [vm_compute; reflexivity|].
    repeat (split; [reflexivity|]).
    intros pick. apply (Listener_Accept_nil_addr _ _ 0%nat (mkChan [] 1 true));
      try reflexivity.
    right. reflexivity.
  - split; vm_compute; reflexivity.
Qed.

(** *** The goroutines of a worker *)

Lemma get_worker_Some (s : Store) (w : nat) (x : worker) :
  workerHeap s !! w = Some x → get_worker w s = Ret x s.
Proof. intros H. unfold get_worker. by rewrite H. Qed.

Lemma lookup_upd (s : Store) (w : nat) (x y : worker) :
  workerHeap s !! w = Some x → workerHeap (upd w y s) !! w = Some y.
Proof.
  intros H. simpl. apply list_lookup_insert_eq. by eapply lookup_lt_Some.
Qed.

Lemma upd_upd (s : Store) (w : nat) (y z : worker) :
  upd w y (upd w z s) = upd w y s.
Proof. unfold upd, set_workerHeap. simpl. by rewrite list_insert_insert_eq. Qed.

Lemma upd_id (s : Store) (w : nat) (x : worker) :
  workerHeap s !! w = Some x → upd w x s = s.
Proof.
  intros H. unfold upd, set_workerHeap. rewrite list_insert_id by done.
  by destruct s.
Qed.

Lemma mutex_Lock_free (s : Store) (w : nat) (x : worker) :
  workerHeap s !! w = Some x → lock x = false →
  mutex_Lock w s = Ret tt (upd w (mkWorker (running x) (socket x) true) s).
Proof.
  intros Hw Hl. unfold mutex_Lock. unfold_M.
  rewrite (get_worker_Some s w x Hw), Hl. reflexivity.
Qed.

Lemma mutex_Unlock_held (s : Store) (w : nat) (x : worker) :
  workerHeap s !! w = Some x → lock x = true →
  mutex_Unlock w s = Ret tt (upd w (mkWorker (running x) (socket x) false) s).
Proof.
  intros Hw Hl. unfold mutex_Unlock. unfold_M.
  rewrite (get_worker_Some s w x Hw), Hl. reflexivity.
Qed.

Lemma set_running_Some (s : Store) (w : nat) (x : worker) (b : bool) :
  workerHeap s !! w = Some x →
  set_running w b s = Ret tt (upd w (mkWorker b (socket x) (lock x)) s).
Proof.
  intros Hw. unfold set_running. unfold_M.
  rewrite (get_worker_Some s w x Hw). reflexivity.
Qed.

Lemma isRunning_free (s : Store) (w : nat) (x : worker) :
  workerHeap s !! w = Some x → lock x = false →
  isRunning w s = Ret (running x) s.
Proof.
  intros Hw Hl. unfold isRunning.
  rewrite (bind_Ret _ _ _ _ _ (mutex_Lock_free s w x Hw Hl)).
  set (y := mkWorker (running x) (socket x) true).
  pose proof (lookup_upd s w x y Hw) as Hy.
  rewrite (bind_Ret _ _ _ _ _ (get_worker_Some _ w y Hy)).
  rewrite (bind_Ret _ _ _ _ _ (mutex_Unlock_held _ w y Hy eq_refl)).
  rewrite upd_upd. simpl.
  destruct x as [r sk lk]. simpl in *. subst lk. by rewrite (upd_id s w _ Hw).
Qed.

Lemma stop_free (s : Store) (w : nat) (x : worker) :
  workerHeap s !! w = Some x → lock x = false →
  stop w s = Ret tt (set_closedSockets (closedSockets s ++ [socket x])
                      (upd w (mkWorker false (socket x) false) s)).
Proof.
  intros Hw Hl. unfold stop.
  rewrite (bind_Ret _ _ _ _ _ (mutex_Lock_free s w x Hw Hl)).
  set (y := mkWorker (running x) (socket x) true).
  pose proof (lookup_upd s w x y Hw) as Hy.
  rewrite (bind_Ret _ _ _ _ _ (set_running_Some _ w y false Hy)).
  rewrite upd_upd. simpl.
  set (z := mkWorker false (socket x) true).
  pose proof (lookup_upd s w x z Hw) as Hz.
  rewrite (bind_Ret _ _ _ _ _ (get_worker_Some _ w z Hz)).
  unfold socket_Close at 1. unfold_M. simpl.
  unfold mutex_Unlock, get_worker. unfold_M. simpl.
  rewrite list_lookup_insert_eq by (by eapply lookup_lt_Some). simpl.
  unfold put_worker, modify, upd, set_closedSockets, set_workerHeap. simpl.
  by rewrite list_insert_insert_eq.
Qed.

Lemma start_idle (s : Store) (w : nat) (x : worker) :
  workerHeap s !! w = Some x → lock x = false → running x = false →
  start w s = Ret tt (set_goroutines (goroutines s ++ [GoListen w])
                      (upd w (mkWorker true (socket x) false) s)).
Proof.
  intros Hw Hl Hr. unfold start.
  rewrite (bind_Ret _ _ _ _ _ (isRunning_free s w x Hw Hl)). rewrite Hr.
  rewrite (bind_Ret _ _ _ _ _ (mutex_Lock_free s w x Hw Hl)).
  set (y := mkWorker (running x) (socket x) true).
  pose proof (lookup_upd s w x y Hw) as Hy.
  rewrite (bind_Ret _ _ _ _ _ (set_running_Some _ w y true Hy)).
  rewrite upd_upd. simpl.
  unfold go at 1. unfold_M. simpl.
  unfold mutex_Unlock, get_worker. unfold_M. simpl.
  rewrite list_lookup_insert_eq by (by eapply lookup_lt_Some). simpl.
  unfold put_worker, modify, upd, set_goroutines, set_workerHeap. simpl.
  by rewrite list_insert_insert_eq.
Qed.

Lemma start_running (s : Store) (w : nat) (x : worker) :
  workerHeap s !! w = Some x → lock x = false → running x = true →
  start w s = Ret tt s.
Proof.
  intros Hw Hl Hr. unfold start.
  rewrite (bind_Ret _ _ _ _ _ (isRunning_free s w x Hw Hl)). by rewrite Hr.
Qed.

Lemma step_at (i : nat) (ev : option accept_event) (pool : list thread) (s s' : Store)
      (t t' : thread) (new : list thread) :
  pool !! i = Some t → step_thread t ev s = Ret (t', new) s' →
  step i ev pool s = Ret (<[i := t']> pool ++ new) s'.
Proof. intros Hi Ht. unfold step. rewrite Hi. unfold_M. by rewrite Ht. Qed.

Lemma run_cons (i : nat) (ev : option accept_event) (rest : list (nat * option accept_event))
      (pool pool' : list thread) (s s' : Store) :
  step i ev pool s = Ret pool' s' →
  run ((i, ev) :: rest) pool s = run rest pool' s'.
Proof. intros H. simpl. by rewrite H. Qed.

Lemma run_at (i : nat) (ev : option accept_event) (rest : list (nat * option accept_event))
      (pool : list thread) (s s' : Store) (t t' : thread) :
  pool !! i = Some t → step_thread t ev s = Ret (t', []) s' →
  run ((i, ev) :: rest) pool s = run rest (<[i := t']> pool) s'.
Proof.
  intros Hi Ht. erewrite run_cons; [|by eapply step_at]. by rewrite app_nil_r.
Qed.

Lemma pool_lookup_insert (pool : list thread) (i : nat) (t t' : thread) :
  pool !! i = Some t → <[i := t']> pool !! i = Some t'.
Proof. intros H. apply list_lookup_insert_eq. by eapply lookup_lt_Some. Qed.

(** The three steps of [isRunning()] at the head of the loop. *)
Lemma run_listen_isRunning (i w : nat) (x : worker) (pool : list thread) (s : Store)
      (ev1 ev2 ev3 : option accept_event) (rest : list (nat * option accept_event)) :
  pool !! i = Some (w, listen_isRunning_Lock) →
  workerHeap s !! w = Some x → lock x = false →
  run ((i, ev1) :: (i, ev2) :: (i, ev3) :: rest) pool s
  = run rest (<[i := (w, listen_for (running x))]> pool) s.
Proof.
  intros Hi Hw Hl.
  set (y := mkWorker (running x) (socket x) true).
  pose proof (lookup_upd s w x y Hw) as Hy.
  rewrite (run_at i ev1 _ pool s (upd w y s) (w, listen_isRunning_Lock)
             (w, listen_isRunning_read) Hi).
  2:{ unfold step_thread. simpl.
      by rewrite (bind_Ret _ _ _ _ _ (mutex_Lock_free s w x Hw Hl)). }
  rewrite (run_at i ev2 _ _ (upd w y s) (upd w y s) (w, listen_isRunning_read)
             (w, listen_isRunning_Unlock (running x)) (pool_lookup_insert _ _ _ _ Hi)).
  2:{ unfold step_thread. simpl.
      by rewrite (bind_Ret _ _ _ _ _ (get_worker_Some _ w y Hy)). }
  rewrite list_insert_insert_eq.
  rewrite (run_at i ev3 _ _ (upd w y s) s (w, listen_isRunning_Unlock (running x))
             (w, listen_for (running x)) (pool_lookup_insert _ _ _ _ Hi)).
  2:{ unfold step_thread. simpl.
      rewrite (bind_Ret _ _ _ _ _ (mutex_Unlock_held _ w y Hy eq_refl)).
      rewrite upd_upd. simpl. destruct x as [r sk lk]. simpl in *. subst lk.
      by rewrite (upd_id s w _ Hw). }
  by rewrite list_insert_insert_eq.
Qed.

(** The three steps of [isRunning()] at the head of [start]: the mutex is
    taken, the flag is read, the mutex is released. *)
Lemma run_start_isRunning (i w : nat) (x : worker) (pool : list thread) (s : Store)
      (ev1 ev2 ev3 : option accept_event) (rest : list (nat * option accept_event)) :
  pool !! i = Some (w, start_isRunning_Lock) →
  workerHeap s !! w = Some x → lock x = false →
  run ((i, ev1) :: (i, ev2) :: (i, ev3) :: rest) pool s
  = run rest (<[i := (w, start_if (running x))]> pool) s.
Proof.
  intros Hi Hw Hl.
  set (y := mkWorker (running x) (socket x) true).
  pose proof (lookup_upd s w x y Hw) as Hy.
  rewrite (run_at i ev1 _ pool s (upd w y s) (w, start_isRunning_Lock)
             (w, start_isRunning_read) Hi).
  2:{ unfold step_thread. simpl.
      by rewrite (bind_Ret _ _ _ _ _ (mutex_Lock_free s w x Hw Hl)). }
  rewrite (run_at i ev2 _ _ (upd w y s) (upd w y s) (w, start_isRunning_read)
             (w, start_isRunning_Unlock (running x)) (pool_lookup_insert _ _ _ _ Hi)).
  2:{ unfold step_thread. simpl.
      by rewrite (bind_Ret _ _ _ _ _ (get_worker_Some _ w y Hy)). }
  rewrite list_insert_insert_eq.
  rewrite (run_at i ev3 _ _ (upd w y s) s (w, start_isRunning_Unlock (running x))
             (w, start_if (running x)) (pool_lookup_insert _ _ _ _ Hi)).
  2:{ unfold step_thread. simpl.
      rewrite (bind_Ret _ _ _ _ _ (mutex_Unlock_held _ w y Hy eq_refl)).
      rewrite upd_upd. simpl. destruct x as [r sk lk]. simpl in *. subst lk.
      by rewrite (upd_id s w _ Hw). }
  by rewrite list_insert_insert_eq.
Qed.

(** The test of [start]: after its four steps the state is as it was, the
    mutex free again, and the call has returned or is about to take the
    mutex a second time. *)
Lemma run_start_check (i w : nat) (x : worker) (pool : list thread) (s : Store) :
  pool !! i = Some (w, start_isRunning_Lock) →
  workerHeap s !! w = Some x → lock x = false →
  run (steps 4 i) pool s
  = Ret (<[i := (w, if running x then returned else start_Lock)]> pool) s.
Proof.
  intros Hi Hw Hl. unfold steps. simpl replicate.
  rewrite (run_start_isRunning i w x pool s None None None _ Hi Hw Hl).
  rewrite (run_at i None _ _ s s (w, start_if (running x))
             (w, if running x then returned else start_Lock)
             (pool_lookup_insert _ _ _ _ Hi) eq_refl).
  by rewrite list_insert_insert_eq.
Qed.

(** [stop] returns only on a worker of the heap whose mutex is free. *)
Lemma stop_Ret_pre (s s' : Store) (w : nat) :
  stop w s = Ret tt s' →
  ∃ x, workerHeap s !! w = Some x ∧ lock x = false.
Proof.
  intros H. destruct (workerHeap s !! w) as [x|] eqn:Hw.
  - exists x. split; [done|]. destruct (lock x) eqn:Hl; [|done].
    unfold stop, mutex_Lock in H. unfold_M.
    rewrite (get_worker_Some s w x Hw), Hl in H. discriminate.
  - unfold stop, mutex_Lock, get_worker in H. unfold_M.
    rewrite Hw in H. discriminate.
Qed.

(** What [stop] leaves behind. *)
Lemma stop_Ret_inv (s0 s : Store) (w : nat) :
  stop w s0 = Ret tt s →
  ∃ x, workerHeap s !! w = Some x
       ∧ running x = false ∧ lock x = false
       ∧ nat_mem (socket x) (closedSockets s) = true
       ∧ lst s = lst s0 ∧ errChans s = errChans s0 ∧ goroutines s = goroutines s0.
Proof.
  intros H. destruct (stop_Ret_pre s0 s w H) as (x & Hw & Hl).
  rewrite (stop_free s0 w x Hw Hl) in H. injection H as <-.
  exists (mkWorker false (socket x) false). simpl.
  rewrite list_lookup_insert_eq by (by eapply lookup_lt_Some).
  repeat split; try done.
  unfold nat_mem. rewrite existsb_app. simpl. rewrite Nat.eqb_refl.
  by rewrite orb_true_r.
Qed.

(** C9 (as the code has it).  Once [stop()] has returned, the accept loop
    of the worker ends at its next test of the running flag.  A loop that
    is in [Accept] at that time first gets the error of the closed socket
    and sends it on the error channel of the listener (which has room),
    whatever arrives at the socket meanwhile; a loop that is at its test
    ends without sending anything. *)
Theorem listen_after_stop (s0 s : Store) (w e i : nat) (ch : chan error)
        (pool : list thread) :
  stop w s0 = Ret tt s →
  errors (lst s) = Some e → errChans s !! e = Some ch → has_room ch = true →
  (∀ evs, pool !! i = Some (w, listen_Accept) → length evs = 6%nat →
          run ((λ ev, (i, ev)) <$> evs) pool s
          = Ret (<[i := (w, returned)]> pool)
                (set_errChans (<[e := pushed ErrNetClosing ch]> (errChans s)) s))
  ∧ (∀ evs, pool !! i = Some (w, listen_isRunning_Lock) → length evs = 4%nat →
            run ((λ ev, (i, ev)) <$> evs) pool s
            = Ret (<[i := (w, returned)]> pool) s).
Proof.
  intros Hstop He Hch Hroom.
  apply stop_Ret_inv in Hstop as (x & Hw & Hr & Hl & Hsk & _).
  split.
  - intros evs Hi Hlen.
    destruct evs as [|ev1 [|ev2 [|ev3 [|ev4 [|ev5 [|ev6 [|]]]]]]]; try discriminate.
    simpl fmap.
    rewrite (run_at i ev1 _ pool s s (w, listen_Accept)
               (w, listen_send ErrNetClosing) Hi).
    2:{ unfold step_thread. simpl.
        rewrite (bind_Ret _ _ _ _ _ (get_worker_Some _ w x Hw)).
        unfold_M. by rewrite Hsk. }
    rewrite (run_at i ev2 _ _ s
               (set_errChans (<[e := pushed ErrNetClosing ch]> (errChans s)) s)
               (w, listen_send ErrNetClosing) (w, listen_isRunning_Lock)
               (pool_lookup_insert _ _ _ _ Hi)).
    2:{ unfold step_thread, send_err. unfold_M. simpl. rewrite He.
        by rewrite (heap_send_room _ _ _ _ Hch Hroom). }
    rewrite list_insert_insert_eq.
    rewrite (run_listen_isRunning i w x _
               (set_errChans (<[e := pushed ErrNetClosing ch]> (errChans s)) s)
               ev3 ev4 ev5 _ (pool_lookup_insert _ _ _ _ Hi) Hw Hl).
    rewrite list_insert_insert_eq, Hr.
    rewrite (run_at i ev6 _ _ _ _ (w, listen_for false) (w, returned)
               (pool_lookup_insert _ _ _ _ Hi) eq_refl).
    by rewrite list_insert_insert_eq.
  - intros evs Hi Hlen.
    destruct evs as [|ev1 [|ev2 [|ev3 [|ev4 [|]]]]]; try discriminate.
    simpl fmap.
    rewrite (run_listen_isRunning i w x _ _ ev1 ev2 ev3 _ Hi Hw Hl), Hr.
    rewrite (run_at i ev4 _ _ _ _ (w, listen_for false) (w, returned)
               (pool_lookup_insert _ _ _ _ Hi) eq_refl).
    by rewrite list_insert_insert_eq.
Qed.

Lemma run_single (ev : option accept_event) (rest : list (nat * option accept_event))
      (s s' : Store) (t t' : thread) :
  step_thread t ev s = Ret (t', []) s' →
  run ((0%nat, ev) :: rest) [t] s = run rest [t'] s'.
Proof. intros H. by rewrite (run_at 0 ev rest [t] s s' t t' eq_refl H). Qed.

Lemma run_returned (n : nat) (w : nat) (new : list thread) (s : Store) :
  run (steps n 0) ((w, returned) :: new) s = Ret ((w, returned) :: new) s.
Proof. induction n as [|n IH]; simpl; [done|exact IH]. Qed.

Lemma start_Ret_inv (s s' : Store) (w : nat) :
  start w s = Ret tt s' →
  ∃ x, workerHeap s !! w = Some x ∧ lock x = false.
Proof.
  intros H. destruct (workerHeap s !! w) as [x|] eqn:Hw.
  - exists x. split; [done|]. destruct (lock x) eqn:Hl; [|done].
    unfold start, isRunning, mutex_Lock in H. unfold_M.
    rewrite (get_worker_Some s w x Hw), Hl in H. discriminate.
  - unfold start, isRunning, mutex_Lock, get_worker in H. unfold_M.
    rewrite Hw in H. discriminate.
Qed.

(** A call of [start] that runs alone goes through its steps to the
    state the call returns. *)
Lemma start_as_goroutine (s s' : Store) (w : nat) :
  start w s = Ret tt s' →
  ∃ new, run (steps 8 0) [(w, start_isRunning_Lock)] s = Ret ((w, returned) :: new) s'.
Proof.
  intros H. destruct (start_Ret_inv s s' w H) as (x & Hw & Hl).
  destruct x as [r sk lk]. simpl in Hl. subst lk.
  set (x := mkWorker r sk false) in *.
  set (y := mkWorker r sk true).
  pose proof (lookup_upd s w x y Hw) as Hy.
  assert (Hphase : run (steps 8 0) [(w, start_isRunning_Lock)] s
                   = run (steps 5 0) [(w, start_if (running x))] s).
  { unfold steps. simpl replicate.
    by rewrite (run_start_isRunning 0 w x [(w, start_isRunning_Lock)] s
                  None None None _ eq_refl Hw eq_refl). }
  rewrite Hphase. simpl running. destruct r.
  - rewrite (start_running s w x Hw eq_refl eq_refl) in H. injection H as <-.
    exists []. reflexivity.
  - rewrite (start_idle s w x Hw eq_refl eq_refl) in H. injection H as <-.
    exists [(w, listen_isRunning_Lock)].
    unfold steps. simpl replicate.
    rewrite (run_single None _ s s (w, start_if false) (w, start_Lock) eq_refl).
    rewrite (run_single None _ s (upd w y s) (w, start_Lock) (w, start_set)).
    2:{ unfold step_thread. simpl.
        by rewrite (bind_Ret _ _ _ _ _ (mutex_Lock_free s w x Hw eq_refl)). }
    set (z := mkWorker true sk true).
    rewrite (run_single None _ (upd w y s) (upd w z s) (w, start_set) (w, start_go)).
    2:{ unfold step_thread. simpl.
        rewrite (bind_Ret _ _ _ _ _ (set_running_Some _ w y true Hy)).
        by rewrite upd_upd. }
    pose proof (lookup_upd s w x z Hw) as Hz.
    simpl.
    unfold step, step_thread, mutex_Unlock, get_worker, put_worker. unfold_M. simpl.
    rewrite list_lookup_insert_eq by (by eapply lookup_lt_Some). simpl.
    unfold set_goroutines, set_workerHeap, upd. simpl.
    by rewrite list_insert_insert_eq.
Qed.

(** A call of [stop] that runs alone goes through its steps to the state
    the call returns. *)
Lemma stop_as_goroutine (s s' : Store) (w : nat) :
  stop w s = Ret tt s' →
  run (steps 4 0) [(w, stop_Lock)] s = Ret [(w, returned)] s'.
Proof.
  intros H.
  destruct (stop_Ret_pre s s' w H) as (x & Hw & Hl).
  rewrite (stop_free s w x Hw Hl) in H. injection H as <-.
  set (y := mkWorker (running x) (socket x) true).
  pose proof (lookup_upd s w x y Hw) as Hy.
  unfold steps. simpl replicate.
  rewrite (run_single None _ s (upd w y s) (w, stop_Lock) (w, stop_set)).
  2:{ unfold step_thread. simpl.
      by rewrite (bind_Ret _ _ _ _ _ (mutex_Lock_free s w x Hw Hl)). }
  set (z := mkWorker false (socket x) true).
  rewrite (run_single None _ (upd w y s) (upd w z s) (w, stop_set) (w, stop_Close)).
  2:{ unfold step_thread. simpl.
      rewrite (bind_Ret _ _ _ _ _ (set_running_Some _ w y false Hy)).
      by rewrite upd_upd. }
  simpl.
  unfold step, step_thread, mutex_Unlock, get_worker, put_worker, socket_Close.
  unfold_M. simpl.
  rewrite !list_lookup_insert_eq by (by eapply lookup_lt_Some). simpl.
  rewrite !list_lookup_insert_eq by (by eapply lookup_lt_Some). simpl.
  unfold set_closedSockets, set_workerHeap, upd. simpl.
  by rewrite list_insert_insert_eq.
Qed.

Lemma holders_insert (pool : list thread) (i : nat) (t t' : thread) :
  pool !! i = Some t →
  (holders (<[i := t']> pool) + (if in_isRunning t.2 then 1 else 0)
   = holders pool + (if in_isRunning t'.2 then 1 else 0))%nat.
Proof.
  unfold holders. revert i. induction pool as [|a pool IH]; intros [|i] H; simpl in *;
    try discriminate.
  - injection H as ->. lia.
  - specialize (IH i H). lia.
Qed.

Lemma step_starts_on_running (w i : nat) (ev : option accept_event)
      (g : list goroutine) (pool : list thread) (s : Store) :
  starts_on w pool → running_locked w g pool s →
  match step i ev pool s with
  | Ret pool' s' => starts_on w pool' ∧ running_locked w g pool' s'
  | Panic _ _ => False
  | Block _ => True
  end.
Proof.
  intros Hpool (Hg & x & Hw & Hr & Hh).
  unfold step. destruct (pool !! i) as [[w' p]|] eqn:Hi; [|done].
  pose proof (proj1 (Forall_lookup _ _) Hpool i _ Hi) as [Hw' Hp].
  simpl in Hw', Hp. subst w'.
  assert (Hlt : (w < length (workerHeap s))%nat) by (by eapply lookup_lt_Some).
  pose proof (holders_insert pool i (w, p)) as Hins.
  destruct p as [| |[]|[]| | | | | | | | | | | | | | | |]; try discriminate;
    unfold step_thread, mutex_Lock, mutex_Unlock; unfold_M; simpl;
    rewrite ?(get_worker_Some s w x Hw); simpl.
  - destruct (lock x) eqn:Hl; simpl; [done|]. rewrite app_nil_r.
    split; [apply Forall_insert; [done|by split]|].
    split; [done|]. eexists. split; [by apply list_lookup_insert_eq|].
    split; [done|]. simpl.
    specialize (Hins (w, start_isRunning_read) Hi). simpl in Hins. lia.
  - rewrite Hr, app_nil_r.
    split; [apply Forall_insert; [done|by split]|].
    split; [done|]. exists x. split; [done|]. split; [done|].
    specialize (Hins (w, start_isRunning_Unlock true) Hi). simpl in Hins. lia.
  - assert (Hpos : (0 < holders pool)%nat).
    { unfold holders. clear -Hi. revert i Hi.
      induction pool as [|a pool IH]; intros [|i] Hi; simpl in *; try discriminate.
      - injection Hi as ->. simpl. lia.
      - specialize (IH i Hi). lia. }
    destruct (lock x) eqn:Hl; simpl; [|lia]. rewrite app_nil_r.
    split; [apply Forall_insert; [done|by split]|].
    split; [done|]. eexists. split; [by apply list_lookup_insert_eq|].
    split; [done|]. simpl.
    specialize (Hins (w, start_if true) Hi). simpl in Hins. lia.
  - rewrite app_nil_r.
    split; [apply Forall_insert; [done|by split]|].
    split; [done|]. exists x. split; [done|]. split; [done|].
    specialize (Hins (w, returned) Hi). simpl in Hins. lia.
  - done.
Qed.

(** However calls of [start] on a running worker are interleaved, every
    step returns: none panics, none starts a goroutine, and the worker
    stays running. *)
Lemma run_starts_on_running (w : nat) (g : list goroutine)
      (sched : list (nat * option accept_event)) (pool : list thread) (s : Store) :
  starts_on w pool → running_locked w g pool s →
  ∃ pool' s', run sched pool s = Ret pool' s'
              ∧ starts_on w pool' ∧ running_locked w g pool' s'.
Proof.
  revert pool s. induction sched as [|[i ev] rest IH]; intros pool s Hpool Hs; simpl.
  - by exists pool, s.
  - pose proof (step_starts_on_running w i ev g pool s Hpool Hs) as Hstep.
    destruct (step i ev pool s) as [pool1 s1|msg s1|s1]; [|done|].
    + destruct Hstep as [Hpool1 Hs1]. by apply IH.
    + by apply IH.
Qed.

(** C8 (as the code has it).  [start] on a worker that is running returns
    at once and changes nothing; and however any number of calls of
    [start] on a running worker are interleaved, every step returns, no
    accept loop is started and the worker stays running.  The test of
    the flag is an acquisition of the mutex of its own: when the test is
    made the mutex is free again and the state is as before, and a call
    that found the worker idle has yet to take the mutex a second time
    for the flip. *)
Theorem start_on_running_worker (s : Store) (w : nat) (x : worker) :
  workerHeap s !! w = Some x → lock x = false →
  (∀ i pool, pool !! i = Some (w, start_isRunning_Lock) →
             run (steps 4 i) pool s
             = Ret (<[i := (w, if running x then returned else start_Lock)]> pool) s)
  ∧ (running x = true →
     start w s = Ret tt s
     ∧ ∀ n sched,
         ∃ pool' s',
           run sched (replicate n (w, start_isRunning_Lock)) s = Ret pool' s'
           ∧ starts_on w pool'
           ∧ goroutines s' = goroutines s
           ∧ (running <$> workerHeap s' !! w) = Some true).
Proof.
  intros Hw Hl. split.
  - intros i pool Hi. by apply run_start_check.
  - intros Hr. split; [by apply (start_running s w x)|].
    intros n sched.
    destruct (run_starts_on_running w (goroutines s) sched
                (replicate n (w, start_isRunning_Lock)) s)
      as (pool' & s' & Hrun & Hpool' & Hg & x' & Hw' & Hr' & _).
    + apply Forall_replicate. by split.
    + split; [done|]. exists x. split; [done|]. split; [done|].
      rewrite Hl. unfold holders. induction n as [|n IH]; [done|exact IH].
    + exists pool', s'. split; [done|]. split; [done|]. split; [done|].
      by rewrite Hw'; simpl; rewrite Hr'.
Qed.

Lemma start_on_running_worker_witness :
  let s := Example.started 1 in
  start 0 s = Ret tt s
  ∧ ∃ pool' s',
      run (steps 4 0 ++ steps 4 1) (replicate 2 (0%nat, start_isRunning_Lock)) s
      = Ret pool' s'
      ∧ starts_on 0 pool'
      ∧ goroutines s' = goroutines s
      ∧ (running <$> workerHeap s' !! 0%nat) = Some true.
Proof.
  intros s.
  destruct (start_on_running_worker s 0 (mkWorker true 0 false) eq_refl eq_refl)
    as [_ Hrun].
  destruct (Hrun eq_refl) as [Hseq Hconc].
  split; [exact Hseq|].
  apply (Hconc 2%nat (steps 4 0 ++ steps 4 1)).
Defined.

(** C8 as stated fails: the test of the flag and its flip are under two
    acquisitions of the mutex.  When the first call of [start] on an idle
    worker has made its test the mutex is free again and nothing has
    changed; a second call then makes the same test, and both go on to
    start an accept loop. *)

Lemma concurrent_starts_launch_two_loops :
  let pool := replicate 2 (0%nat, start_isRunning_Lock) in
  run (steps 4 0) pool Example.idle
  = Ret [(0%nat, start_Lock); (0%nat, start_isRunning_Lock)] Example.idle
  ∧ ∃ s', run (steps 4 0 ++ steps 4 1 ++ steps 4 0 ++ steps 4 1) pool Example.idle
          = Ret [(0%nat, returned); (0%nat, returned);
                 (0%nat, listen_isRunning_Lock); (0%nat, listen_isRunning_Lock)] s'
          ∧ goroutines s' = [GoListen 0; GoListen 0].
Proof.
  intros pool. split; [vm_compute; reflexivity|].
  eexists. split; [vm_compute; reflexivity|]. reflexivity.
Qed.

Lemma listen_after_stop_witness :
  let s0 := Example.started 1 in
  let s := outcome_store (stop 0 s0) in
  run ((λ ev, (0%nat, ev)) <$> replicate 6 None) [(0%nat, listen_Accept)] s
  = Ret (<[0%nat := (0%nat, returned)]> [(0%nat, listen_Accept)])
        (set_errChans (<[0%nat := pushed ErrNetClosing (make_chan 1)]> (errChans s)) s).
Proof.
  intros s0 s.
  destruct (listen_after_stop s0 s 0 0 0 (make_chan 1) [(0%nat, listen_Accept)])
    as [HAccept _].
  - vm_compute. reflexivity.
  - vm_compute. reflexivity.
  - vm_compute. reflexivity.
  - vm_compute. reflexivity.
  - apply (HAccept (replicate 6 None)); reflexivity.
Defined.

(** C9 as stated fails: [stop()] on a worker whose loop is in [Accept]
    makes that [Accept] fail, and the loop sends the error to the error
    channel of the listener before it ends. *)

Lemma error_of_closed_socket_is_forwarded :
  let pool := [(0%nat, stop_Lock); (0%nat, listen_Accept)] in
  ∃ s', run (steps 4 0 ++ steps 6 1) pool (Example.started 1)
        = Ret [(0%nat, returned); (0%nat, returned)] s'
        ∧ errors (lst s') = Some 0%nat
        ∧ err_queue s' 0 = Some [ErrNetClosing].
Proof.
  intros pool. eexists. split; [vm_compute; reflexivity|]. split; reflexivity.
Qed.

(** *** Start when a socket cannot be built *)

#[local] Instance same_workers_preorder : PreOrder same_workers.
Proof.
  split.
  - intros s. by split.
  - intros s1 s2 s3 [] []. split; congruence.
Qed.

#[local] Instance build_frame_preorder : PreOrder build_frame.
Proof.
  split.
  - intros s. by split.
  - intros s1 s2 s3 [] []. split; congruence.
Qed.

Lemma nat_mem_app (k : nat) (l1 l2 : list nat) :
  nat_mem k (l1 ++ l2) = nat_mem k l1 || nat_mem k l2.
Proof. unfold nat_mem. apply existsb_app. Qed.

Lemma stop_keeps_stopped (w w' : nat) (s s' : Store) :
  stopped w s → stop w' s = Ret tt s' → stopped w s'.
Proof.
  intros (x & Hw & Hr & Hl & Hsk) H.
  destruct (decide (w = w')) as [<-|Hne].
  - rewrite (stop_free s w x Hw Hl) in H. injection H as <-.
    exists (mkWorker false (socket x) false). simpl.
    rewrite list_lookup_insert_eq by (by eapply lookup_lt_Some).
    repeat split; try done. by rewrite nat_mem_app, Hsk.
  - destruct (stop_Ret_inv s s' w' H) as (x' & Hw' & _).
    destruct (stop_Ret_pre s s' w' H) as (y & Hy & Hly).
    rewrite (stop_free s w' y Hy Hly) in H. injection H as <-.
    exists x. simpl. rewrite list_lookup_insert_ne by done.
    repeat split; try done. by rewrite nat_mem_app, Hsk.
Qed.

Lemma stop_workers_Ret (ws : list (option nat)) (s s' : Store) :
  stop_workers ws s = Ret tt s' →
  (∀ w, Some w ∈ ws → stopped w s')
  ∧ (∀ w, stopped w s → stopped w s')
  ∧ length (workerHeap s') = length (workerHeap s).
Proof.
  revert s. induction ws as [|[w|] ws IH]; intros s H; simpl in H.
  - injection H as <-. split; [|done]. intros w Hw. inversion Hw.
  - apply bind_Ret_inv in H as ([] & s1 & Hstop & H).
    destruct (IH s1 H) as (Hall & Hkeep & Hlen).
    split; [|split].
    + intros w' Hw'. apply elem_of_cons in Hw' as [[= ->]|Hw']; [|by apply Hall].
      apply Hkeep. destruct (stop_Ret_inv s s1 w Hstop) as (x & ? & ? & ? & ? & _).
      by exists x.
    + intros w' Hw'. apply Hkeep. by eapply stop_keeps_stopped.
    + rewrite Hlen.
      destruct (stop_Ret_pre s s1 w Hstop) as (y & Hy & Hly).
      rewrite (stop_free s w y Hy Hly) in Hstop. injection Hstop as <-.
      simpl. by rewrite length_insert.
  - destruct (IH s H) as (Hall & Hkeep & Hlen). split; [|done].
    intros w' Hw'. apply elem_of_cons in Hw' as [[=]|Hw']. by apply Hall.
Qed.

Lemma same_workers_close_protocols (keys : list string) :
  preserves same_workers (close_protocols keys).
Proof.
  induction keys as [|k keys IH]; simpl; [apply (preserves_ret same_workers)|].
  apply (preserves_bind same_workers); [apply (preserves_get_listener same_workers)|].
  intros l. destruct (registry l !! k); [|exact IH].
  apply (preserves_bind same_workers); [|intros _; exact IH].
  unfold Protocol_Close, close_conn_chan.
  preserves_walk same_workers ltac:(by split).
Qed.

Lemma same_workers_Stop_tail (d : option nat) : preserves same_workers (Stop_tail d).
Proof.
  unfold Stop_tail, recv_conn, close_conn_chan, conn_Close.
  preserves_walk same_workers ltac:(by split).
Qed.

Lemma stopped_same_workers (w : nat) (s s' : Store) :
  same_workers s s' → stopped w s → stopped w s'.
Proof. intros [Hh Hc] (x & ? & ? & ? & ?). exists x. by rewrite Hh, Hc. Qed.

(** When [Stop] returns, every worker of the list has been stopped. *)
Lemma Stop_stops_workers (s s' : Store) :
  Listener_Stop s = Ret tt s' →
  (∀ w, Some w ∈ workers (lst s) → stopped w s')
  ∧ length (workerHeap s') = length (workerHeap s).
Proof.
  rewrite Stop_unfold. intros H.
  apply bind_Ret_inv in H as ([] & s1 & Hws & H).
  apply bind_Ret_inv in H as ([] & s2 & Hps & H).
  apply stop_workers_Ret in Hws as (Hall & _ & Hlen).
  apply (preserves_Ret same_workers) in Hps; [|apply same_workers_close_protocols].
  apply (preserves_Ret same_workers) in H; [|apply same_workers_Stop_tail].
  split.
  - intros w Hw. eapply stopped_same_workers; [exact H|].
    eapply stopped_same_workers; [exact Hps|]. by apply Hall.
  - destruct H as [-> _]. destruct Hps as [-> _]. exact Hlen.
Qed.

Lemma start_Ret_frame (s s' : Store) (w : nat) :
  start w s = Ret tt s' →
  lst s' = lst s
  ∧ length (workerHeap s') = length (workerHeap s)
  ∧ connChans s' = connChans s
  ∧ closedSockets s' = closedSockets s.
Proof.
  intros H. destruct (start_Ret_inv s s' w H) as (x & Hw & Hl).
  destruct (running x) eqn:Hr.
  - rewrite (start_running s w x Hw Hl Hr) in H. by injection H as <-.
  - rewrite (start_idle s w x Hw Hl Hr) in H. injection H as <-.
    simpl. by rewrite length_insert.
Qed.

Section StartFailure.

Variable SplitHostPort : string -> error + (string * string).
Variable ParseInt : string -> Z -> Z -> error + Z.
Variable ResolveIPAddr : string -> string -> error + net_IPAddr.
Variable kernel_listen : nat -> Z -> Sockaddr -> error + nat.

Abbreviation buildSocket' :=
  (buildSocket SplitHostPort ParseInt ResolveIPAddr kernel_listen).
Abbreviation Start_loop' :=
  (Start_loop SplitHostPort ParseInt ResolveIPAddr kernel_listen).
Abbreviation Start' :=
  (Listener_Start SplitHostPort ParseInt ResolveIPAddr kernel_listen).

Lemma build_frame_buildSocket : preserves build_frame buildSocket'.
Proof.
  unfold buildSocket, getSocketAddress.
  preserves_walk build_frame ltac:(by split).
Qed.

Lemma listed_next (base i : nat) (s : Store) (sk : nat) :
  listed base i s → (i < length (workers (lst s)))%nat →
  listed base (S i)
    (set_lst (set_workers (<[i := Some (length (workerHeap s))]> (workers (lst s))))
       (set_workerHeap (workerHeap s ++ [mkWorker false sk false]) s)).
Proof.
  intros [Hall Hnil] Hi. split; simpl.
  - intros w [Hb Hw]. rewrite length_app in Hw. simpl in Hw.
    destruct (decide (w = length (workerHeap s))) as [->|Hne].
    + apply list_elem_of_lookup. exists i. by apply list_lookup_insert_eq.
    + assert (Hin : Some w ∈ workers (lst s)) by (apply Hall; lia).
      apply list_elem_of_lookup in Hin as [j Hj].
      apply list_elem_of_lookup. exists j.
      rewrite list_lookup_insert_ne; [done|]. intros <-.
      rewrite Hnil in Hj; [discriminate|]. split; [lia|done].
  - intros j [Hj Hlen]. rewrite length_insert in Hlen.
    rewrite list_lookup_insert_ne by lia. apply Hnil. lia.
Qed.

Lemma Start_loop_error (n i base : nat) (s s' : Store) (err : error) :
  Start_loop' n i s = Ret (Some err) s' → listed base i s →
  rolled_back base s' ∧ ∃ e, err = "builder worker socket: " +:+ e.
Proof.
  revert i s. induction n as [|n IH]; intros i s H Hinv; simpl in H; [discriminate|].
  apply bind_Ret_inv in H as ([e|sk] & s1 & Hb & H).
  - apply (preserves_Ret build_frame) in Hb; [|apply build_frame_buildSocket].
    apply bind_Ret_inv in H as ([] & s2 & Hstop & H). injection H as <- <-.
    split; [|by exists e].
    destruct (Stop_clears s1 s2 Hstop) as (Hw & Hc & Ha).
    destruct (Stop_stops_workers s1 s2 Hstop) as (Hall & Hlen).
    destruct (Stop_closes_default s1 s2 Hstop) as (q & ch & _ & Hd & Hq & Hcl & _).
    repeat split; try done; [|by exists q, ch].
    intros w Hw'. apply Hall. rewrite (build_workers _ _ Hb).
    apply (proj1 Hinv). rewrite Hlen, (build_workerHeap _ _ Hb) in Hw'. lia.
  - apply (preserves_Ret build_frame) in Hb; [|apply build_frame_buildSocket].
    apply bind_Ret_inv in H as (w & s2 & Hw & H).
    unfold new_worker in Hw. injection Hw as <- <-.
    apply bind_Ret_inv in H as (l & s3 & Hl & H).
    unfold get_listener in Hl. injection Hl as <- <-. simpl in H.
    destruct (i <? length (workers (lst s1)))%nat eqn:Hi; [|discriminate].
    apply Nat.ltb_lt in Hi.
    apply bind_Ret_inv in H as ([] & s4 & Hm & H).
    unfold modify in Hm. injection Hm as <-.
    apply bind_Ret_inv in H as ([] & s5 & Hs & H).
    apply start_Ret_frame in Hs as (Hlst & Hlen & _).
    apply (IH (S i) s5 H).
    assert (Hinv1 : listed base i s1).
    { destruct Hinv as [Hall Hnil]. split.
      - intros w Hw. rewrite (build_workers _ _ Hb). apply Hall.
        by rewrite <- (build_workerHeap _ _ Hb).
      - intros j Hj. rewrite (build_workers _ _ Hb) in *. by apply Hnil. }
    pose proof (listed_next base i s1 sk Hinv1 Hi) as Hnext.
    destruct Hnext as [Hall Hnil]. split.
    + intros w Hw. rewrite Hlst. apply Hall. by rewrite <- Hlen.
    + intros j Hj. rewrite Hlst in *. by apply Hnil.
Qed.

(** When [Start] returns an error, the worker list, the
    registry and the cached address are cleared, the default channel is
    closed, and every worker made by this [Start] has been stopped. *)
Lemma Start_error_rolled_back (s s' : Store) (err : error) :
  Start' s = Ret (Some err) s' →
  rolled_back (length (workerHeap s)) s' ∧ ∃ e, err = "builder worker socket: " +:+ e.
Proof.
  intros H. destruct (decide (0 ≤ Listeners (lst s))%Z) as [Hn|Hn].
  - rewrite (Start_unfold _ _ _ _ s Hn) in H.
    apply (Start_loop_error _ 0 _ _ _ _ H). split; simpl.
    + intros w Hw. lia.
    + intros j [_ Hj]. apply lookup_replicate_2. by rewrite length_replicate in Hj.
  - rewrite Start_negative in H by lia. discriminate.
Qed.

End StartFailure.

#[local] Instance conn_frame_preorder : PreOrder conn_frame.
Proof.
  split.
  - intros s. by split.
  - intros s1 s2 s3 [] []. split; congruence.
Qed.

Lemma registry_delete (k : string) (l : Listener) :
  registry (set_channels (delete k <$> channels l) l) = delete k (registry l).
Proof.
  unfold registry. simpl. destruct (channels l); simpl; [done|].
  by rewrite delete_empty.
Qed.

Lemma Protocol_Close_open (s : Store) (p : Protocol) (ch : chan tls_Conn) :
  is_Some (registry (lst s) !! proto p) →
  connChans s !! channel p = Some ch → closed ch = false →
  Protocol_Close p s
  = Ret None
      (set_lst (fun l => set_channels (delete (proto p) <$> channels l) l)
         (set_connChans (<[channel p := mkChan (buf ch) (cap ch) true]> (connChans s)) s)).
Proof.
  intros [r Hr] Hq Hc. unfold Protocol_Close, close_conn_chan. unfold_M.
  rewrite Hr. simpl. by rewrite Hq, Hc.
Qed.

Lemma routes_open_perm (d : nat) (keys keys' : list string) (s : Store) :
  keys ≡ₚ keys' → routes_open d keys s → routes_open d keys' s.
Proof.
  intros Hp (Hnd & Hall & Hinj & Hd). split; [by rewrite <- Hp|]. split; [|split].
  - intros k Hk. apply Hall. by rewrite Hp.
  - intros k1 k2 p1 p2 Hk1 Hk2. apply Hinj; by rewrite Hp.
  - done.
Qed.

(** Closing the first of the routes under [keys] leaves the others as
    they were. *)
Lemma close_protocols_cons (d : nat) (k : string) (keys : list string) (s : Store) :
  routes_open d (k :: keys) s →
  ∃ p ch, registry (lst s) !! k = Some p
          ∧ proto p = k
          ∧ connChans s !! channel p = Some ch
          ∧ close_protocols (k :: keys) s = close_protocols keys (closed_route p ch s)
          ∧ routes_open d keys (closed_route p ch s)
          ∧ (∀ k' p', k' ∈ keys → registry (lst s) !! k' = Some p' →
                      registry (lst (closed_route p ch s)) !! k' = Some p'
                      ∧ connChans (closed_route p ch s) !! channel p'
                        = connChans s !! channel p').
Proof.
  intros (Hnd & Hall & Hinj & Hd).
  destruct (Hall k) as (p & ch & Hp & Hk & Hpd & Hq & Hc); [by left|].
  exists p, ch. split; [done|]. split; [done|]. split; [done|].
  apply NoDup_cons in Hnd as [Hnotin Hnd].
  assert (Hother : ∀ k' p', k' ∈ keys → registry (lst s) !! k' = Some p' →
                     registry (lst (closed_route p ch s)) !! k' = Some p'
                     ∧ connChans (closed_route p ch s) !! channel p'
                       = connChans s !! channel p').
  { intros k' p' Hk' Hp'. assert (k' ≠ k) by (intros ->; done).
    unfold closed_route. simpl. rewrite registry_delete, Hk.
    rewrite lookup_delete_ne by done. split; [done|].
    rewrite list_lookup_insert_ne; [done|].
    intros Heq. apply H. eapply (Hinj k' k p' p); try done; [by right|by left]. }
  split; [|split; [|exact Hother]].
  - simpl. unfold_M. rewrite Hp.
    assert (Hsome : is_Some (registry (lst s) !! proto p)) by (rewrite Hk; eauto).
    by rewrite (Protocol_Close_open s p ch Hsome Hq Hc).
  - split; [done|]. split; [|split].
    + intros k' Hk'.
      destruct (Hall k') as (p' & ch' & Hp' & Hk'p & Hp'd & Hq' & Hc'); [by right|].
      destruct (Hother k' p' Hk' Hp') as [Hr Hh].
      exists p', ch'. rewrite Hr, Hh. by repeat split.
    + intros k1 k2 p1 p2 Hk1 Hk2.
      unfold closed_route. simpl. rewrite registry_delete, Hk.
      assert (k1 ≠ k) by (intros ->; done). assert (k2 ≠ k) by (intros ->; done).
      rewrite !lookup_delete_ne by done.
      apply Hinj; by right.
    + destruct Hd as (chd & Hchd & Hcd). exists chd. unfold closed_route. simpl.
      by rewrite list_lookup_insert_ne.
Qed.

Lemma close_protocols_returns (d : nat) (keys : list string) (s : Store) :
  routes_open d keys s →
  ∃ s', close_protocols keys s = Ret tt s'
        ∧ defaultChannel (lst s') = defaultChannel (lst s)
        ∧ ∃ chd, connChans s' !! d = Some chd ∧ closed chd = false.
Proof.
  revert s. induction keys as [|k keys IH]; intros s Hro.
  - exists s. split; [done|]. split; [done|]. apply Hro.
  - destruct (close_protocols_cons d k keys s Hro)
      as (p & ch & _ & _ & _ & Hrun & Hro' & _).
    destruct (IH _ Hro') as (s' & Hret & Hd & Hchd).
    exists s'. rewrite Hrun. split; [exact Hret|]. split; [|exact Hchd].
    by rewrite Hd.
Qed.

Lemma Stop_tail_returns (s : Store) (d : nat) (chd : chan tls_Conn) :
  connChans s !! d = Some chd → closed chd = false →
  ∃ s', Stop_tail (Some d) s = Ret tt s'.
Proof.
  intros Hd Hc. unfold Stop_tail, recv_conn, close_conn_chan, conn_Close. unfold_M.
  simpl. rewrite Hd. simpl.
  assert (Hlt : (d < length (connChans s))%nat) by (by eapply lookup_lt_Some).
  destruct (buf chd) as [|x [|y rest]] eqn:Hb; simpl.
  - rewrite Hd, Hc. simpl. eauto.
  - rewrite Hd, Hb. simpl. rewrite list_lookup_insert_eq by done. simpl.
    rewrite Hc. eauto.
  - rewrite Hd, Hc. simpl. eauto.
Qed.

Lemma stop_workers_returns (ws : list (option nat)) (s : Store) :
  (∀ w, Some w ∈ ws → ∃ x, workerHeap s !! w = Some x ∧ lock x = false) →
  ∃ s', stop_workers ws s = Ret tt s' ∧ conn_frame s s'.
Proof.
  revert s. induction ws as [|[w|] ws IH]; intros s Hfree; simpl.
  - exists s. by split.
  - destruct (Hfree w) as (x & Hw & Hl); [by left|].
    unfold_M. rewrite (stop_free s w x Hw Hl).
    set (s1 := set_closedSockets _ _).
    destruct (IH s1) as (s' & Hrun & Hfr).
    { intros w' Hw'. destruct (Hfree w') as (x' & Hx' & Hl'); [by right|].
      subst s1. simpl. destruct (decide (w' = w)) as [->|Hne].
      - eexists. rewrite list_lookup_insert_eq by (by eapply lookup_lt_Some). done.
      - exists x'. by rewrite list_lookup_insert_ne. }
    exists s'. split; [done|]. etrans; [|exact Hfr]. by split.
  - apply IH. intros w Hw. apply Hfree. by right.
Qed.

(** [Stop] returns on a listener whose workers have their mutexes free,
    whose routes can be closed and whose default channel is open. *)
Lemma Stop_returns (s : Store) (d : nat) :
  workers_free s → defaultChannel (lst s) = Some d →
  routes_open d (map_to_list (registry (lst s))).*1 s →
  ∃ s', Listener_Stop s = Ret tt s'.
Proof.
  intros Hfree Hd Hroutes. rewrite Stop_unfold.
  destruct (stop_workers_returns (workers (lst s)) s Hfree) as (s1 & Hws & Hl1 & Hc1).
  rewrite (bind_Ret _ _ _ _ _ Hws).
  destruct (close_protocols_returns d (map_to_list (registry (lst s))).*1 s1)
    as (s2 & Hps & Hd2 & chd & Hchd & Hcl).
  { unfold routes_open. rewrite Hl1, Hc1. exact Hroutes. }
  rewrite (bind_Ret _ _ _ _ _ Hps). rewrite Hd.
  by apply (Stop_tail_returns s2 d chd).
Qed.

Lemma closed_route_commute (p1 p2 : Protocol) (ch1 ch2 : chan tls_Conn) (s : Store) :
  channel p1 ≠ channel p2 →
  closed_route p2 ch2 (closed_route p1 ch1 s)
  = closed_route p1 ch1 (closed_route p2 ch2 s).
Proof.
  intros Hne. unfold closed_route, set_lst, set_channels, set_connChans. simpl.
  rewrite (list_insert_insert_ne _ (channel p2) (channel p1)) by done.
  destruct (channels (lst s)) as [m|]; simpl; [|done].
  by rewrite (delete_delete m (proto p2) (proto p1)).
Qed.

(** The order in which the routes are closed does not matter. *)
Lemma close_protocols_perm (d : nat) (keys keys' : list string) (s : Store) :
  keys ≡ₚ keys' → routes_open d keys s →
  close_protocols keys s = close_protocols keys' s.
Proof.
  intros Hp. revert s.
  induction Hp as [|k l l' Hp IH|k1 k2 l|l l' l'' Hp1 IH1 Hp2 IH2]; intros s Hro.
  - reflexivity.
  - destruct (close_protocols_cons d k l s Hro) as (p & ch & Hl & _ & Hq & Hrun & Hro' & _).
    assert (Hro2 : routes_open d (k :: l') s)
      by (eapply routes_open_perm; [|exact Hro]; by constructor).
    destruct (close_protocols_cons d k l' s Hro2)
      as (p' & ch' & Hl' & _ & Hq' & Hrun' & _).
    rewrite Hl in Hl'. injection Hl' as <-. rewrite Hq in Hq'. injection Hq' as <-.
    rewrite Hrun, Hrun'. by apply IH.
  - destruct (close_protocols_cons d k2 (k1 :: l) s Hro)
      as (p2 & ch2 & Hl2 & _ & Hq2 & Hrun2 & Hro2 & Hoth2).
    destruct (close_protocols_cons d k1 l _ Hro2)
      as (p1 & ch1 & Hl1 & _ & Hq1 & Hrun1 & _ & _).
    assert (Hro' : routes_open d (k1 :: k2 :: l) s)
      by (eapply routes_open_perm; [|exact Hro]; by constructor).
    destruct (close_protocols_cons d k1 (k2 :: l) s Hro')
      as (p1' & ch1' & Hl1' & _ & Hq1' & Hrun1' & Hro1' & Hoth1).
    destruct (close_protocols_cons d k2 l _ Hro1')
      as (p2' & ch2' & Hl2' & _ & Hq2' & Hrun2' & _ & _).
    destruct (Hoth1 k2 p2) as [Hr2 Hh2]; [by left|done|].
    rewrite Hr2 in Hl2'. injection Hl2' as <-.
    rewrite Hh2, Hq2 in Hq2'. injection Hq2' as <-.
    destruct (Hoth2 k1 p1') as [Hr1 Hh1]; [by left|done|].
    rewrite Hr1 in Hl1. injection Hl1 as <-.
    rewrite Hh1, Hq1' in Hq1. injection Hq1 as <-.
    rewrite Hrun2, Hrun1, Hrun1', Hrun2'. f_equal.
    apply closed_route_commute.
    destruct Hro as (Hnd & _ & Hinj & _). intros Heq.
    apply NoDup_cons in Hnd as [Hnotin _]. apply Hnotin.
    assert (k2 = k1); [|subst; by left].
    eapply (Hinj k2 k1 p2 p1'); try done; [by left|by right; left].
  - rewrite IH1 by done. apply IH2. by eapply routes_open_perm.
Qed.

(** [Stop] gives the same result whatever the order in which the
    iteration over the registry yields the routes. *)
Lemma Stop_any_order (s : Store) (d : nat) (keys : list string) :
  defaultChannel (lst s) = Some d →
  routes_open d (map_to_list (registry (lst s))).*1 s →
  keys ≡ₚ (map_to_list (registry (lst s))).*1 →
  (stop_workers (workers (lst s));;
   close_protocols keys;;
   Stop_tail (defaultChannel (lst s))) s
  = Listener_Stop s.
Proof.
  intros Hd Hro Hp. rewrite Stop_unfold. unfold_M.
  destruct (stop_workers (workers (lst s)) s) as [[] s1|msg s1|s1] eqn:Hws; try done.
  apply (preserves_Ret conn_frame) in Hws as [Hl Hc].
  2:{ apply (preserves_stop_workers conn_frame); intros; by split. }
  assert (Hro1 : routes_open d (map_to_list (registry (lst s))).*1 s1).
  { unfold routes_open. by rewrite Hl, Hc. }
  by rewrite (close_protocols_perm d keys _ s1 Hp)
    by (eapply routes_open_perm; [symmetry; exact Hp|exact Hro1]).
Qed.

Lemma route_ok_fresh (s : Store) (kp : string * Protocol) (c : chan tls_Conn) :
  route_ok s kp = true →
  proto kp.2 = kp.1
  ∧ channel kp.2 ≠ length (connChans s)
  ∧ ∃ ch, (connChans s ++ [c]) !! channel kp.2 = Some ch ∧ closed ch = false.
Proof.
  unfold route_ok. intros H. apply andb_true_iff in H as [Hk Hch].
  apply String.eqb_eq in Hk.
  destruct (connChans s !! channel kp.2) as [ch|] eqn:Hq; [|discriminate].
  split; [done|]. split.
  - apply lookup_lt_Some in Hq. lia.
  - exists ch. rewrite lookup_app_l by (by eapply lookup_lt_Some).
    split; [done|]. by destruct (closed ch).
Qed.

(** A registry that is in order can be closed after the default channel
    was made at the end of the heap. *)
Lemma registry_ok_routes_open (s : Store) :
  registry_ok s = true →
  routes_open (length (connChans s)) (map_to_list (registry (lst s))).*1
    (Start_entry s).
Proof.
  unfold registry_ok. intros H. apply andb_true_iff in H as [Hall Hnd].
  apply bool_decide_eq_true in Hnd.
  rewrite forallb_forall in Hall.
  assert (Hreg : registry (lst (Start_entry s)) = registry (lst s)) by done.
  assert (Hch : connChans (Start_entry s) = connChans s ++ [make_chan 1]) by done.
  unfold routes_open. rewrite Hreg, Hch. clear Hreg Hch.
  split; [apply NoDup_fst_map_to_list|]. split; [|split].
  - intros k Hk. apply list_elem_of_fmap in Hk as ([k' p] & -> & Hkp).
    pose proof Hkp as Hlook. apply elem_of_map_to_list in Hlook.
    apply list_elem_of_In in Hkp. apply Hall in Hkp.
    destruct (route_ok_fresh s (k', p) (make_chan 1) Hkp) as (Hpk & Hne & ch & Hq & Hc).
    exists p, ch. by repeat split.
  - intros k1 k2 p1 p2 _ _ H1 H2 Heq.
    apply elem_of_map_to_list in H1, H2.
    apply list_elem_of_lookup in H1 as [i1 H1]. apply list_elem_of_lookup in H2 as [i2 H2].
    assert (i1 = i2).
    { eapply NoDup_lookup; [exact Hnd| |].
      - rewrite list_lookup_fmap, H1. reflexivity.
      - rewrite list_lookup_fmap, H2. simpl. by rewrite Heq. }
    subst i2. rewrite H1 in H2. by injection H2.
  - exists (make_chan 1). split; [|done].
    rewrite lookup_app_r by lia. by rewrite Nat.sub_diag.
Qed.

(** A listener without routes has its registry in order. *)
Lemma registry_ok_nil (s : Store) : channels (lst s) = None → registry_ok s = true.
Proof.
  intros H. unfold registry_ok, registry. rewrite H. simpl.
  rewrite map_to_list_empty. reflexivity.
Qed.

(** [Protocol] keeps the registry in order. *)
Lemma registry_ok_Protocol (s s' : Store) (p : string)
      (r : option Protocol * option error) :
  registry_ok s = true → Listener_Protocol p s = Ret r s' → registry_ok s' = true.
Proof.
  intros Hok H.
  destruct (workers (lst s)) as [|w ws] eqn:Hw.
  2:{ rewrite Protocol_after_start in H by (rewrite Hw; simpl; lia).
      by injection H as <- <-. }
  destruct (registry (lst s) !! p) as [q|] eqn:Hr.
  { rewrite (Protocol_duplicate s p q Hw Hr) in H. by injection H as <- <-. }
  destruct (TLSConfig (lst s)) as [cfg|] eqn:Hc.
  2:{ by rewrite (Protocol_nil_config s p Hw Hr Hc) in H. }
  destruct (decide (p ∈ NextProtos cfg)) as [Hp|Hp].
  2:{ rewrite (Protocol_unlisted s p cfg Hw Hr Hc Hp) in H. by injection H as <- <-. }
  rewrite (Protocol_registers s p cfg Hw Hr Hc Hp) in H. injection H as <- <-.
  unfold registry_ok in *. apply andb_true_iff in Hok as [Hall Hnd].
  apply bool_decide_eq_true in Hnd. rewrite forallb_forall in Hall.
  set (c := length (connChans s)) in *.
  assert (Hreg : registry (lst (set_lst
                   (set_channels (Some (<[p:={| proto := p; channel := c |}]> (registry (lst s)))))
                   (set_connChans (connChans s ++ [make_chan 1]) s)))
                 = <[p := mkProtocol p c]> (registry (lst s))) by done.
  rewrite Hreg. clear Hreg. simpl connChans.
  assert (Hold : ∀ k q, registry (lst s) !! k = Some q →
                        ∃ ch, connChans s !! channel q = Some ch
                              ∧ closed ch = false ∧ proto q = k).
  { intros k q Hkq. apply elem_of_map_to_list, list_elem_of_In, Hall in Hkq.
    unfold route_ok in Hkq. simpl in Hkq. apply andb_true_iff in Hkq as [Hk Hch].
    apply String.eqb_eq in Hk.
    destruct (connChans s !! channel q) as [ch|]; [|discriminate].
    exists ch. by destruct (closed ch). }
  apply andb_true_iff. split.
  - apply forallb_forall. intros [k q] Hkq.
    apply list_elem_of_In, elem_of_map_to_list, lookup_insert_Some in Hkq
      as [[<- <-]|[Hne Hkq]]; unfold route_ok; simpl.
    + rewrite String.eqb_refl. simpl.
      rewrite lookup_app_r by (subst c; lia). by rewrite Nat.sub_diag.
    + destruct (Hold k q Hkq) as (ch & Hch & Hcl & Hk).
      rewrite lookup_app_l by (by eapply lookup_lt_Some).
      rewrite Hch, Hcl. simpl. rewrite andb_true_r. by apply String.eqb_eq.
  - apply bool_decide_eq_true.
    rewrite (map_to_list_insert (registry (lst s)) p (mkProtocol p c) Hr).
    simpl. apply NoDup_cons. split; [|done].
    intros Hin. apply list_elem_of_fmap in Hin as ([k q] & Hcq & Hkq). simpl in Hcq.
    apply elem_of_map_to_list in Hkq.
    destruct (Hold k q Hkq) as (ch & Hch & _).
    apply lookup_lt_Some in Hch. subst c. lia.
Qed.

(** After [Stop] the registry is in order: it is empty. *)
Lemma registry_ok_Stop (s s' : Store) :
  Listener_Stop s = Ret tt s' → registry_ok s' = true.
Proof.
  intros H. apply registry_ok_nil. by apply (Stop_clears s s').
Qed.

Section StartReturns.

Variable SplitHostPort : string -> error + (string * string).
Variable ParseInt : string -> Z -> Z -> error + Z.
Variable ResolveIPAddr : string -> string -> error + net_IPAddr.
Variable kernel_listen : nat -> Z -> Sockaddr -> error + nat.

Abbreviation getSocketAddress' := (getSocketAddress SplitHostPort ParseInt ResolveIPAddr).
Abbreviation buildSocket' :=
  (buildSocket SplitHostPort ParseInt ResolveIPAddr kernel_listen).
Abbreviation Start_loop' :=
  (Start_loop SplitHostPort ParseInt ResolveIPAddr kernel_listen).
Abbreviation Start' :=
  (Listener_Start SplitHostPort ParseInt ResolveIPAddr kernel_listen).

Lemma getSocketAddress_returns (s : Store) :
  ∃ r s1, getSocketAddress' s = Ret r s1 ∧ syscalls s1 = syscalls s.
Proof.
  unfold getSocketAddress. unfold_M.
  destruct (sockAddr (lst s)); [by eauto|].
  destruct (SplitHostPort _) as [?|[host port]]; [by eauto|].
  destruct (ParseInt _ _ _); [by eauto|].
  destruct (ResolveIPAddr _ _); [by eauto|].
  destruct (_ || _); simpl; by eauto.
Qed.

(** [buildSocket] returns; when it returns a socket, the kernel answered
    the next request with it. *)
Lemma buildSocket_returns (s : Store) :
  ∃ r s1, buildSocket' s = Ret r s1
          ∧ build_frame s s1
          ∧ match r with
            | inl _ => True
            | inr sk =>
                syscalls s1 = S (syscalls s)
                ∧ ∃ family sa, kernel_listen (syscalls s) family sa = inr sk
            end.
Proof.
  assert (∃ r s1, buildSocket' s = Ret r s1
                  ∧ match r with
                    | inl _ => True
                    | inr sk =>
                        syscalls s1 = S (syscalls s)
                        ∧ ∃ family sa, kernel_listen (syscalls s) family sa = inr sk
                    end) as (r & s1 & H & Hr).
  { unfold buildSocket.
    destruct (getSocketAddress_returns s) as ([e|sa] & s1 & Hg & Hsys).
    - rewrite (bind_Ret _ _ _ _ _ Hg). by eexists _, _.
    - rewrite (bind_Ret _ _ _ _ _ Hg). unfold_M. simpl.
      destruct (kernel_listen (syscalls s1) _ sa) as [e|sk] eqn:Hk.
      + by eexists _, _.
      + eexists _, _. split; [reflexivity|]. simpl. split; [by rewrite Hsys|].
        rewrite <- Hsys. eauto. }
  exists r, s1. split; [done|]. split; [|done].
  apply (preserves_Ret build_frame) in H; [done|apply build_frame_buildSocket].
Qed.

Lemma Start_loop_returns (n i d : nat) (s : Store) :
  (i + n = length (workers (lst s)))%nat →
  workers_free s → defaultChannel (lst s) = Some d →
  routes_open d (map_to_list (registry (lst s))).*1 s →
  ∃ r s', Start_loop' n i s = Ret r s'
          ∧ (r = None → all_built kernel_listen n s s').
Proof.
  revert i s. induction n as [|n IH]; intros i s Hlen Hfree Hd Hroutes; simpl.
  - exists None, s. split; [done|]. intros _. repeat split; [lia|lia|]. intros j Hj. lia.
  - destruct (buildSocket_returns s) as ([e|sk] & s1 & Hb & Hfr & Hk).
    + rewrite (bind_Ret _ _ _ _ _ Hb).
      destruct (Stop_returns s1 d) as (s' & Hstop).
      * intros w Hw. rewrite (build_workers _ _ Hfr) in Hw.
        rewrite (build_workerHeap _ _ Hfr). by apply Hfree.
      * by rewrite (build_defaultChannel _ _ Hfr).
      * unfold routes_open, registry in *.
        by rewrite (build_channels _ _ Hfr), (build_connChans _ _ Hfr).
      * rewrite (bind_Ret _ _ _ _ _ Hstop). eexists _, _. split; [reflexivity|].
        discriminate.
    + rewrite (bind_Ret _ _ _ _ _ Hb). unfold new_worker. unfold_M. simpl.
      assert (Hi : (i <? length (workers (lst s1)))%nat = true).
      { apply Nat.ltb_lt. rewrite (build_workers _ _ Hfr). lia. }
      rewrite Hi. unfold modify. simpl.
      set (w0 := length (workerHeap s1)).
      set (s3 := set_lst _ _).
      assert (Hw0 : workerHeap s3 !! w0 = Some (mkWorker false sk false)).
      { subst s3 w0. simpl. rewrite lookup_app_r by lia. by rewrite Nat.sub_diag. }
      rewrite (start_idle s3 w0 _ Hw0 eq_refl eq_refl). simpl socket.
      set (s4 := set_goroutines _ _).
      destruct (IH (S i) s4) as (r & s' & Hloop & Hnone).
      * subst s4 s3. simpl. rewrite length_insert, (build_workers _ _ Hfr). lia.
      * intros w Hw. subst s4 s3. simpl in *.
        apply list_elem_of_lookup in Hw as [j Hj].
        destruct (decide (j = i)) as [->|Hne].
        -- rewrite list_lookup_insert_eq in Hj by (by apply Nat.ltb_lt).
           injection Hj as <-. eexists.
           rewrite list_lookup_insert_eq by (rewrite length_app; simpl; lia). done.
        -- rewrite list_lookup_insert_ne in Hj by done.
           destruct (Hfree w) as (x & Hx & Hl).
           { rewrite <- (build_workers _ _ Hfr). apply list_elem_of_lookup. eauto. }
           rewrite <- (build_workerHeap _ _ Hfr) in Hx.
           exists x. split; [|done].
           assert (w < w0)%nat by (by eapply lookup_lt_Some).
           rewrite list_lookup_insert_ne by lia. by rewrite lookup_app_l.
      * subst s4 s3. simpl. by rewrite (build_defaultChannel _ _ Hfr).
      * unfold routes_open, registry in *. subst s4 s3. simpl.
        by rewrite (build_channels _ _ Hfr), (build_connChans _ _ Hfr).
      * exists r, s'. split; [exact Hloop|]. intros Hr.
        destruct (Hnone Hr) as (Hsys & Hheap & Hreq). destruct Hk as (Hsys1 & fam & sa & Hk).
        subst s4 s3. simpl in *. rewrite length_insert, length_app in Hheap. simpl in Hheap.
        rewrite (build_workerHeap _ _ Hfr) in Hheap. subst w0.
        repeat split; [lia|lia|].
        intros [|j] Hj.
        -- rewrite Nat.add_0_r. eauto.
        -- destruct (Hreq j) as (fam' & sa' & sk' & Hk'); [lia|].
           rewrite Hsys1 in Hk'. replace (syscalls s + S j)%nat with (S (syscalls s) + j)%nat by lia.
           eauto.
Qed.

End StartReturns.

(** On a listener whose registry is in order [Start] returns: with an
    error after a rollback, or with no error after every socket was
    built. *)
Lemma Start_returns
  (SplitHostPort : string -> error + (string * string))
  (ParseInt : string -> Z -> Z -> error + Z)
  (ResolveIPAddr : string -> string -> error + net_IPAddr)
  (kernel_listen : nat -> Z -> Sockaddr -> error + nat)
  (s : Store) :
  registry_ok s = true → 0 ≤ Listeners (lst s) →
  ∃ r s',
    Listener_Start SplitHostPort ParseInt ResolveIPAddr kernel_listen s = Ret r s'
    ∧ match r with
      | Some err =>
          rolled_back (length (workerHeap s)) s'
          ∧ ∃ e, err = "builder worker socket: " +:+ e
      | None =>
          all_built kernel_listen (Z.to_nat (worker_count (lst s))) s s'
      end.
Proof.
  intros Hreg Hn.
  destruct (Start_loop_returns SplitHostPort ParseInt ResolveIPAddr kernel_listen
              (Z.to_nat (worker_count (lst s))) 0 (length (connChans s))
              (Start_entry s))
    as (r & s' & Hloop & Hnone).
  - simpl. by rewrite length_replicate.
  - intros w Hw. simpl in Hw. apply elem_of_replicate in Hw as [? _]. discriminate.
  - reflexivity.
  - change (routes_open (length (connChans s))
              (map_to_list (registry (lst s))).*1 (Start_entry s)).
    by apply registry_ok_routes_open.
  - exists r, s'. rewrite (Start_unfold _ _ _ _ s Hn). split; [exact Hloop|].
    destruct r as [err|]; [|by apply Hnone].
    apply (Start_error_rolled_back SplitHostPort ParseInt ResolveIPAddr kernel_listen).
    by rewrite (Start_unfold _ _ _ _ s Hn).
Qed.

(** When the kernel refuses the request for the socket of one of the
    workers, [Start] returns an error and everything is rolled back. *)
Lemma Start_refused_socket
  (SplitHostPort : string -> error + (string * string))
  (ParseInt : string -> Z -> Z -> error + Z)
  (ResolveIPAddr : string -> string -> error + net_IPAddr)
  (kernel_listen : nat -> Z -> Sockaddr -> error + nat)
  (s : Store) (k : nat) :
  registry_ok s = true → 0 ≤ Listeners (lst s) →
  (k < Z.to_nat (worker_count (lst s)))%nat →
  (∀ family sa, ∃ e, kernel_listen (syscalls s + k)%nat family sa = inl e) →
  ∃ err s',
    Listener_Start SplitHostPort ParseInt ResolveIPAddr kernel_listen s
    = Ret (Some err) s'
    ∧ rolled_back (length (workerHeap s)) s'.
Proof.
  intros Hreg Hn Hk Hrefuse.
  destruct (Start_returns SplitHostPort ParseInt ResolveIPAddr
              kernel_listen s Hreg Hn) as ([err|] & s' & Hstart & Hpost).
  - exists err, s'. split; [done|]. apply Hpost.
  - destruct Hpost as (_ & _ & Hreq).
    destruct (Hreq k Hk) as (family & sa & sk & Hsk).
    destruct (Hrefuse family sa) as [e He]. congruence.
Qed.

(** C4.  On a listener whose registry is in order, [Start] returns.  When
    it returns an error (a call of [buildSocket] failed, and the error
    wraps its error), [Stop] has run: the worker list, the registry and
    the cached address are cleared, the default channel is closed, and
    every worker made by this [Start] is stopped, that is not running,
    its socket closed.  It returns no error only when the kernel answered
    one request for each of the workers with a socket; so when the kernel
    refuses the socket of any of the workers, [Start] returns an error
    and nothing is left running. *)
Theorem Start_failure_rolled_back
  (SplitHostPort : string -> error + (string * string))
  (ParseInt : string -> Z -> Z -> error + Z)
  (ResolveIPAddr : string -> string -> error + net_IPAddr)
  (kernel_listen : nat -> Z -> Sockaddr -> error + nat)
  (s : Store) :
  let Start := Listener_Start SplitHostPort ParseInt ResolveIPAddr kernel_listen in
  registry_ok s = true → 0 ≤ Listeners (lst s) →
  (∃ r s',
      Start s = Ret r s'
      ∧ match r with
        | Some err =>
            rolled_back (length (workerHeap s)) s'
            ∧ ∃ e, err = "builder worker socket: " +:+ e
        | None =>
            all_built kernel_listen (Z.to_nat (worker_count (lst s))) s s'
        end)
  ∧ (∀ k, (k < Z.to_nat (worker_count (lst s)))%nat →
          (∀ family sa, ∃ e, kernel_listen (syscalls s + k)%nat family sa = inl e) →
          ∃ err s', Start s = Ret (Some err) s'
                    ∧ rolled_back (length (workerHeap s)) s').
Proof.
  intros Start Hreg Hn. split.
  - by apply Start_returns.
  - intros k Hk Hrefuse. by apply (Start_refused_socket _ _ _ _ s k).
Qed.

Lemma Start_failure_rolled_back_witness :
  ∃ err s',
    Example.Start 1 (Example.registered 2) = Ret (Some err) s'
    ∧ rolled_back (length (workerHeap (Example.registered 2))) s'.
Proof.
  destruct (Start_failure_rolled_back
              Example.SplitHostPort Example.ParseInt Example.ResolveIPAddr
              (Example.kernel_listen 1) (Example.registered 2))
    as [_ Hrefused].
  - vm_compute. reflexivity.
  - vm_compute. discriminate.
  - apply (Hrefused 1%nat).
    + vm_compute. lia.
    + intros family sa. eexists. reflexivity.
Defined.

(** The second of two sockets cannot be bound: the first worker, already
    running, is stopped and its socket closed. *)
Example Start_second_socket_fails :
  ∃ s', Example.Start 1 (Example.registered 2)
        = Ret (Some "builder worker socket: failed to bind socket to address: address already in use") s'
        ∧ workers (lst s') = []
        ∧ workerHeap s' = [mkWorker false 0 false]
        ∧ closedSockets s' = [0%nat]
        ∧ goroutines s' = [GoListen 0].
Proof. eexists. split; [vm_compute; reflexivity|]. repeat split. Qed.

(** *** The scenario of the package's test

    The calls of listener_test.go in their order, on the listener of the
    test.  The model answers as the test expects at every step but the
    last: the test expects the closed route to answer [Accept] with the
    message of the closed listener, and protocol.go answers "use of
    closed socket". *)
Example package_test_scenario :
  let s0 := Example.s0 in
  let h2 := mkProtocol "h2" 0 in
  let o1 := Listener_Protocol "h3" s0 in
  let o2 := Listener_Protocol "h2" (outcome_store o1) in
  let o3 := Listener_Protocol "h2" (outcome_store o2) in
  let o4 := Example.Start 99 (outcome_store o3) in
  let s4 := outcome_store o4 in
  let o5 := Listener_Protocol "h3" s4 in
  let o6 := connectionReceived (Example.conn_ok 7 "" false) (outcome_store o5) in
  let o7 := connectionReceived (Example.conn_ok 8 "h2" true) (outcome_store o6) in
  let s7 := outcome_store o7 in
  let o8 := Example.Accept true s7 in
  let o9 := Protocol_Accept h2 (outcome_store o8) in
  let o10 := Listener_Stop (outcome_store o9) in
  let s10 := outcome_store o10 in
  let o11 := Example.Accept true s10 in
  let o12 := Protocol_Accept h2 (outcome_store o11) in
  o1 = Ret (None, Some "protocol not specified in the TLS configuration: h3") s0
  ∧ o2 = Ret (Some h2, None) (outcome_store o2)
  ∧ o3 = Ret (None, Some "protocol listener already declared for proto: h2")
           (outcome_store o2)
  ∧ o4 = Ret None s4
  ∧ defaultChannel (lst s4) = Some 1%nat
  ∧ errors (lst s4) = Some 0%nat
  ∧ addr (lst s4) = Some (mkTCPAddr Example.localhost 6080 "")
  ∧ sockAddr (lst s4) = Some (SockaddrInet6 6080 Example.localhost)
  ∧ workers (lst s4) = [Some 0%nat]
  ∧ workerHeap s4 = [mkWorker true 0 false]
  ∧ o5 = Ret (None, Some "protocol listener must be created before starting listener") s4
  ∧ queue s7 1 = Some [Example.conn_ok 7 "" false]
  ∧ queue s7 0 = Some [Example.conn_ok 8 "h2" true]
  ∧ o8 = Ret (Some (Example.conn_ok 7 "" false), None) (outcome_store o8)
  ∧ queue (outcome_store o8) 1 = Some []
  ∧ o9 = Ret (Some (Example.conn_ok 8 "h2" true), None) (outcome_store o9)
  ∧ queue (outcome_store o9) 0 = Some []
  ∧ o10 = Ret tt s10
  ∧ (closed <$> connChans s10 !! 1%nat) = Some true
  ∧ sockAddr (lst s10) = None
  ∧ workers (lst s10) = []
  ∧ o11 = Ret (None, Some "accept tcp 127.0.0.1:6080: use of closed network connection") s10
  ∧ o12 = Ret (None, Some "use of closed socket") s10.
Proof. vm_compute. repeat split. Qed.

(** *** A loop that cannot send its error *)

Lemma run_parked (n i : nat) (pool : list thread) (s s' : Store) :
  step i None pool s = Block s' → run (steps n i) pool s = Ret pool s.
Proof.
  intros H. induction n as [|n IH]; [done|].
  unfold steps in *. simpl. by rewrite H.
Qed.

(** When the error channel is full, the loop that [stop()] made fail in
    [Accept] stays at its send until [Accept] of the listener takes the
    error that is in the way. *)
Lemma listen_after_stop_parked (s0 s : Store) (w e i : nat) (ch : chan error)
      (pool : list thread) (n : nat) :
  stop w s0 = Ret tt s →
  errors (lst s) = Some e → errChans s !! e = Some ch →
  closed ch = false → has_room ch = false →
  pool !! i = Some (w, listen_Accept) →
  run (steps (S n) i) pool s
  = Ret (<[i := (w, listen_send ErrNetClosing)]> pool) s.
Proof.
  intros Hstop He Hch Hcl Hroom Hi.
  apply stop_Ret_inv in Hstop as (x & Hw & Hr & Hl & Hsk & _).
  unfold steps. simpl replicate.
  rewrite (run_at i None _ pool s s (w, listen_Accept)
             (w, listen_send ErrNetClosing) Hi).
  2:{ unfold step_thread. simpl.
      rewrite (bind_Ret _ _ _ _ _ (get_worker_Some _ w x Hw)).
      unfold_M. by rewrite Hsk. }
  apply (run_parked n i _ s s).
  unfold step. rewrite (pool_lookup_insert _ _ _ _ Hi).
  unfold step_thread, send_err, heap_send. unfold_M. simpl.
  rewrite He, Hch, Hcl. unfold has_room in Hroom. rewrite Hcl in Hroom.
  simpl in Hroom. by rewrite Hroom.
Qed.

(** *** Closing a route *)

(** X1.  [Close] on a route that is registered and whose channel is open
    closes the channel, buffered connections kept, removes the entry of
    its name from the registry and returns no error; a second [Close] on
    the same route returns the error "listener already closed" and
    changes nothing. *)
Theorem Protocol_Close_once (s : Store) (p : Protocol) (ch : chan tls_Conn) :
  is_Some (registry (lst s) !! proto p) →
  connChans s !! channel p = Some ch → closed ch = false →
  ∃ s1, Protocol_Close p s = Ret None s1
        ∧ registry (lst s1) = delete (proto p) (registry (lst s))
        ∧ connChans s1 = <[channel p := mkChan (buf ch) (cap ch) true]> (connChans s)
        ∧ Protocol_Close p s1 = Ret (Some "listener already closed") s1.
Proof.
  intros Hreg Hq Hc. rewrite (Protocol_Close_open s p ch Hreg Hq Hc).
  eexists. split; [reflexivity|]. split; [|split].
  - simpl. apply registry_delete.
  - reflexivity.
  - unfold Protocol_Close. unfold_M. simpl. rewrite registry_delete.
    by rewrite lookup_delete_eq.
Qed.

Lemma Protocol_Close_once_witness :
  ∃ s1, Protocol_Close (mkProtocol "h2" 0) (Example.started 1) = Ret None s1
        ∧ registry (lst s1)
          = delete "h2" (registry (lst (Example.started 1)))
        ∧ connChans s1
          = <[0%nat := mkChan [] 1 true]> (connChans (Example.started 1))
        ∧ Protocol_Close (mkProtocol "h2" 0) s1
          = Ret (Some "listener already closed") s1.
Proof.
  apply (Protocol_Close_once (Example.started 1) (mkProtocol "h2" 0) (make_chan 1)).
  - vm_compute. eauto.
  - vm_compute. reflexivity.
  - reflexivity.
Defined.

(** X2.  Before the listener is started, a name whose route was closed
    can be registered again: the new route has a channel of its own.
    [Close] on the handle of the old route then finds the name in the
    registry, closes the old channel a second time and panics. *)
Theorem Close_of_replaced_route_panics
  (s : Store) (p : Protocol) (ch : chan tls_Conn) (cfg : tls_Config) :
  workers (lst s) = [] →
  TLSConfig (lst s) = Some cfg → proto p ∈ NextProtos cfg →
  is_Some (registry (lst s) !! proto p) →
  connChans s !! channel p = Some ch → closed ch = false →
  ∃ s1 s2 p2,
    Protocol_Close p s = Ret None s1
    ∧ Listener_Protocol (proto p) s1 = Ret (Some p2, None) s2
    ∧ proto p2 = proto p
    ∧ channel p2 ≠ channel p
    ∧ Protocol_Close p s2 = Panic "close of closed channel" s2.
Proof.
  intros Hw Hcfg Hin Hreg Hq Hc.
  rewrite (Protocol_Close_open s p ch Hreg Hq Hc).
  set (s1 := set_lst _ _).
  assert (Hr1 : registry (lst s1) !! proto p = None).
  { subst s1. simpl. rewrite registry_delete. apply lookup_delete_eq. }
  assert (Hlt : (channel p < length (connChans s))%nat) by (by eapply lookup_lt_Some).
  exists s1. rewrite (Protocol_registers s1 (proto p) cfg Hw Hr1 Hcfg Hin).
  eexists _, _. split; [reflexivity|]. split; [reflexivity|].
  split; [reflexivity|]. split.
  - subst s1. simpl. rewrite length_insert. lia.
  - unfold Protocol_Close, close_conn_chan. unfold_M. simpl.
    unfold registry at 1. simpl. rewrite lookup_insert_eq. simpl.
    rewrite lookup_app_l by (rewrite length_insert; lia).
    by rewrite list_lookup_insert_eq by lia.
Qed.

Lemma Close_of_replaced_route_panics_witness :
  ∃ s1 s2 p2,
    Protocol_Close (mkProtocol "h2" 0) (Example.registered 1) = Ret None s1
    ∧ Listener_Protocol "h2" s1 = Ret (Some p2, None) s2
    ∧ proto p2 = "h2"
    ∧ channel p2 ≠ 0%nat
    ∧ Protocol_Close (mkProtocol "h2" 0) s2 = Panic "close of closed channel" s2.
Proof.
  apply (Close_of_replaced_route_panics (Example.registered 1)
           (mkProtocol "h2" 0) (make_chan 1) Example.cfg).
  - reflexivity.
  - reflexivity.
  - vm_compute. left.
  - vm_compute. eauto.
  - vm_compute. reflexivity.
  - reflexivity.
Defined.

(** X3.  Once a route is closed, a connection that negotiated its name,
    mutually or not, is appended to the default queue (which has room
    and is not the channel of the route). *)
Theorem closed_route_falls_to_default
  (s : Store) (p : Protocol) (ch chd : chan tls_Conn) (d : nat) (conn : tls_Conn) :
  is_Some (registry (lst s) !! proto p) →
  connChans s !! channel p = Some ch → closed ch = false →
  defaultChannel (lst s) = Some d → channel p ≠ d →
  connChans s !! d = Some chd → has_room chd = true →
  Handshake conn = None →
  NegotiatedProtocol (ConnectionState conn) = proto p →
  ∃ s1, Protocol_Close p s = Ret None s1
        ∧ delivered conn d s1 (connectionReceived conn s1)
        ∧ queue (outcome_store (connectionReceived conn s1)) (channel p)
          = Some (buf ch).
Proof.
  intros Hreg Hq Hc Hd Hne Hchd Hroom Hh Hname.
  rewrite (Protocol_Close_open s p ch Hreg Hq Hc).
  set (s1 := set_lst _ _). exists s1. split; [reflexivity|].
  assert (Hd1 : connChans s1 !! d = Some chd).
  { subst s1. simpl. by rewrite list_lookup_insert_ne. }
  assert (Hrun : connectionReceived conn s1 = send_conn (Some d) conn s1).
  { rewrite (connectionReceived_target s1 conn Hh). unfold spec_target.
    rewrite Hname. subst s1. simpl. rewrite registry_delete, lookup_delete_eq.
    simpl. by rewrite Hd. }
  rewrite Hrun. split; [by eapply delivered_send|].
  rewrite (send_conn_room s1 d chd conn Hd1 Hroom). unfold queue. simpl.
  rewrite list_lookup_insert_ne by done. subst s1. simpl.
  by rewrite list_lookup_insert_eq by (by eapply lookup_lt_Some).
Qed.

Lemma closed_route_falls_to_default_witness :
  let conn := Example.conn_ok 5 "h2" true in
  ∃ s1, Protocol_Close (mkProtocol "h2" 0) (Example.started 1) = Ret None s1
        ∧ delivered conn 1 s1 (connectionReceived conn s1)
        ∧ queue (outcome_store (connectionReceived conn s1)) 0 = Some [].
Proof.
  intros conn.
  apply (closed_route_falls_to_default (Example.started 1) (mkProtocol "h2" 0)
           (make_chan 1) (make_chan 1) 1 conn).
  - vm_compute. eauto.
  - vm_compute. reflexivity.
  - reflexivity.
  - vm_compute. reflexivity.
  - discriminate.
  - vm_compute. reflexivity.
  - reflexivity.
  - reflexivity.
  - reflexivity.
Defined.

(** *** The address of the sockets *)

Lemma with_address_id (sa : Sockaddr) (s : Store) :
  sockAddr (lst s) = Some sa → with_address sa (addr (lst s)) s = s.
Proof.
  intros H. destruct s as [l ? ? ? ? ? ? ?]. destruct l. simpl in *. by subst.
Qed.

Section Address.

Variable SplitHostPort : string -> error + (string * string).
Variable ParseInt : string -> Z -> Z -> error + Z.
Variable ResolveIPAddr : string -> string -> error + net_IPAddr.
Variable kernel_listen : nat -> Z -> Sockaddr -> error + nat.

Abbreviation getSocketAddress' := (getSocketAddress SplitHostPort ParseInt ResolveIPAddr).
Abbreviation buildSocket' :=
  (buildSocket SplitHostPort ParseInt ResolveIPAddr kernel_listen).
Abbreviation Start_loop' :=
  (Start_loop SplitHostPort ParseInt ResolveIPAddr kernel_listen).
Abbreviation Start' :=
  (Listener_Start SplitHostPort ParseInt ResolveIPAddr kernel_listen).

(** A successful [getSocketAddress] has set the cached address and at
    most the reported address besides. *)
Lemma getSocketAddress_inr (s s1 : Store) (sa : Sockaddr) :
  getSocketAddress' s = Ret (inr sa) s1 →
  s1 = with_address sa (addr (lst s1)) s.
Proof.
  unfold getSocketAddress. unfold_M.
  destruct (sockAddr (lst s)) as [sa0|] eqn:Hsa.
  - intros [= <- <-]. by rewrite with_address_id.
  - destruct (SplitHostPort _) as [?|[host port]]; [discriminate|].
    destruct (ParseInt _ _ _); [discriminate|].
    destruct (ResolveIPAddr _ _); [discriminate|].
    destruct (_ || _); simpl; [|discriminate].
    by intros [= <- <-].
Qed.

(** A failed [getSocketAddress] has changed nothing. *)
Lemma getSocketAddress_inl (s s1 : Store) (e : error) :
  getSocketAddress' s = Ret (inl e) s1 → sockAddr (lst s) = None ∧ s1 = s.
Proof.
  unfold getSocketAddress. unfold_M.
  destruct (sockAddr (lst s)) as [sa0|] eqn:Hsa; [discriminate|].
  destruct (SplitHostPort _) as [?|[host port]]; [by intros [= <- <-]|].
  destruct (ParseInt _ _ _); [by intros [= <- <-]|].
  destruct (ResolveIPAddr _ _); [by intros [= <- <-]|].
  destruct (_ || _); simpl; [discriminate|].
  by intros [= <- <-].
Qed.

(** The answer of [getSocketAddress] depends on the cached address and on
    [BindAddr] only. *)
Lemma getSocketAddress_transfer (s s1 s2 : Store) (r : error + Sockaddr) :
  getSocketAddress' s = Ret r s1 →
  sockAddr (lst s2) = sockAddr (lst s) → BindAddr (lst s2) = BindAddr (lst s) →
  ∃ s3, getSocketAddress' s2 = Ret r s3.
Proof.
  unfold getSocketAddress. unfold_M. intros H Hsa Hb. rewrite Hsa, Hb.
  destruct (sockAddr (lst s)) as [sa0|]; [injection H as <- _; eauto|].
  destruct (SplitHostPort _) as [?|[host port]]; [injection H as <- _; eauto|].
  destruct (ParseInt _ _ _); [injection H as <- _; eauto|].
  destruct (ResolveIPAddr _ _); [injection H as <- _; eauto|].
  destruct (_ || _); simpl in *; injection H as <- _; eauto.
Qed.

End Address.

(** X4.  The bind address is resolved once: after a call of
    [getSocketAddress] that returned an address, a later call returns
    that address again and changes nothing, whatever the library would
    answer then and whatever [BindAddr] has been set to since. *)
Theorem getSocketAddress_cached
  (SplitHostPort SplitHostPort' : string -> error + (string * string))
  (ParseInt ParseInt' : string -> Z -> Z -> error + Z)
  (ResolveIPAddr ResolveIPAddr' : string -> string -> error + net_IPAddr)
  (s s1 : Store) (sa : Sockaddr) (b : string) :
  getSocketAddress SplitHostPort ParseInt ResolveIPAddr s = Ret (inr sa) s1 →
  let s2 := set_lst (set_BindAddr b) s1 in
  getSocketAddress SplitHostPort' ParseInt' ResolveIPAddr' s2 = Ret (inr sa) s2.
Proof.
  intros H s2. apply getSocketAddress_inr in H.
  unfold getSocketAddress. unfold_M. subst s2. rewrite H. reflexivity.
Qed.

Lemma getSocketAddress_cached_witness :
  let sa := SockaddrInet6 6080 Example.localhost in
  let s1 := with_address sa (Some (mkTCPAddr Example.localhost 6080 "")) Example.s0 in
  let s2 := set_lst (set_BindAddr "example.org:https") s1 in
  getSocketAddress (λ _, inl "missing port in address") Example.ParseInt
    (λ _ _, inl "no such host") s2
  = Ret (inr sa) s2.
Proof.
  intros sa s1.
  apply (getSocketAddress_cached Example.SplitHostPort _ Example.ParseInt _
           Example.ResolveIPAddr _ Example.s0 s1 sa).
  vm_compute. reflexivity.
Defined.

(** *** What Start builds *)

Lemma stop_workers_nil (n : nat) (s : Store) :
  stop_workers (replicate n None) s = Ret tt s.
Proof. induction n as [|n IH]; [done|exact IH]. Qed.

Lemma worker_count_pos (l : Listener) :
  0 ≤ Listeners l → ∃ n, Z.to_nat (worker_count l) = S n.
Proof.
  intros H. unfold worker_count. destruct (Listeners l =? 0) eqn:E.
  - by exists 0%nat.
  - exists (Z.to_nat (Listeners l) - 1)%nat. lia.
Qed.

Section StartBuilds.

Variable SplitHostPort : string -> error + (string * string).
Variable ParseInt : string -> Z -> Z -> error + Z.
Variable ResolveIPAddr : string -> string -> error + net_IPAddr.
Variable kernel_listen : nat -> Z -> Sockaddr -> error + nat.

Abbreviation getSocketAddress' := (getSocketAddress SplitHostPort ParseInt ResolveIPAddr).
Abbreviation buildSocket' :=
  (buildSocket SplitHostPort ParseInt ResolveIPAddr kernel_listen).
Abbreviation Start_loop' :=
  (Start_loop SplitHostPort ParseInt ResolveIPAddr kernel_listen).
Abbreviation Start' :=
  (Listener_Start SplitHostPort ParseInt ResolveIPAddr kernel_listen).

(** One round of the loop of [Start] when the address resolves and the
    kernel gives a socket. *)
Lemma Start_loop_round (n i sk : nat) (s : Store) (sa : Sockaddr) (a : option net_TCPAddr) :
  getSocketAddress' s = Ret (inr sa) (with_address sa a s) →
  kernel_listen (syscalls s) (family_of sa) sa = inr sk →
  (i < length (workers (lst s)))%nat →
  Start_loop' (S n) i s = Start_loop' n (S i) (Start_round sa a i sk s).
Proof.
  intros Hg Hk Hi.
  assert (Hb : buildSocket' s
               = Ret (inr sk) (set_syscalls (S (syscalls s)) (with_address sa a s))).
  { unfold buildSocket. rewrite (bind_Ret _ _ _ _ _ Hg). unfold_M. simpl.
    fold (family_of sa). by rewrite Hk. }
  simpl. rewrite (bind_Ret _ _ _ _ _ Hb). unfold new_worker. unfold_M. simpl.
  apply Nat.ltb_lt in Hi. rewrite Hi. unfold modify. simpl.
  set (s3 := set_lst _ _).
  assert (Hw0 : workerHeap s3 !! length (workerHeap s) = Some (mkWorker false sk false)).
  { subst s3. simpl. rewrite lookup_app_r by lia. by rewrite Nat.sub_diag. }
  rewrite (start_idle s3 _ _ Hw0 eq_refl eq_refl). f_equal.
  subst s3. unfold Start_round, upd, set_goroutines, set_workerHeap, set_lst. simpl.
  f_equal. rewrite insert_app_r_alt by lia. by rewrite Nat.sub_diag.
Qed.

Lemma Start_round_resolved (i sk : nat) (s : Store) (sa : Sockaddr) (a : option net_TCPAddr) :
  let s1 := Start_round sa a i sk s in
  getSocketAddress' s1 = Ret (inr sa) (with_address sa a s1).
Proof.
  intros s1.
  assert (H : with_address sa a s1 = s1) by exact (with_address_id sa s1 eq_refl).
  rewrite H. reflexivity.
Qed.

Lemma Start_loop_builds (n i : nat) (s : Store) (sa : Sockaddr) (a : option net_TCPAddr) :
  getSocketAddress' s = Ret (inr sa) (with_address sa a s) →
  (i + n = length (workers (lst s)))%nat →
  (∀ j, (j < n)%nat →
        ∃ sk, kernel_listen (syscalls s + j)%nat (family_of sa) sa = inr sk) →
  ∃ s', Start_loop' n i s = Ret None s'
        ∧ workers (lst s')
          = take i (workers (lst s)) ++ (Some <$> seq (length (workerHeap s)) n)
        ∧ take (length (workerHeap s)) (workerHeap s') = workerHeap s
        ∧ length (workerHeap s') = (length (workerHeap s) + n)%nat
        ∧ (∀ j, (j < n)%nat →
                ∃ sk, kernel_listen (syscalls s + j)%nat (family_of sa) sa = inr sk
                      ∧ workerHeap s' !! (length (workerHeap s) + j)%nat
                        = Some (mkWorker true sk false))
        ∧ goroutines s'
          = goroutines s ++ (GoListen <$> seq (length (workerHeap s)) n)
        ∧ syscalls s' = (syscalls s + n)%nat
        ∧ ((0 < n)%nat → sockAddr (lst s') = Some sa ∧ addr (lst s') = a)
        ∧ Listeners (lst s') = Listeners (lst s)
        ∧ channels (lst s') = channels (lst s)
        ∧ defaultChannel (lst s') = defaultChannel (lst s)
        ∧ errors (lst s') = errors (lst s)
        ∧ connChans s' = connChans s
        ∧ errChans s' = errChans s
        ∧ closedSockets s' = closedSockets s
        ∧ closedConns s' = closedConns s.
Proof.
  revert i s. induction n as [|n IH]; intros i s Hg Hlen Hk.
  - exists s. simpl. rewrite !app_nil_r, Nat.add_0_r in *.
    rewrite Hlen, !firstn_all. repeat split; try done; lia.
  - destruct (Hk 0%nat) as [sk Hsk]; [lia|]. rewrite Nat.add_0_r in Hsk.
    rewrite (Start_loop_round n i sk s sa a Hg Hsk) by lia.
    set (s1 := Start_round sa a i sk s).
    destruct (IH (S i) s1 (Start_round_resolved i sk s sa a))
      as (s' & Hrun & Hws & Hold & Hhl & Hnew & Hgo & Hsys & Hsa & Hfr).
    { subst s1. simpl. rewrite length_insert. lia. }
    { intros j Hj. subst s1. simpl. destruct (Hk (S j)) as [sk' Hsk']; [lia|].
      exists sk'. by rewrite <- Nat.add_succ_r. }
    subst s1. simpl in *. rewrite length_app in *. simpl in *.
    exists s'. split; [exact Hrun|]. split; [|split; [|split; [|split; [|split; [|split; [|split]]]]]].
    + rewrite Hws. rewrite (take_S_r _ _ (Some (length (workerHeap s)))).
      * rewrite take_insert_ge by lia. rewrite <- app_assoc. simpl.
        by rewrite Nat.add_1_r.
      * apply list_lookup_insert_eq. lia.
    + assert (E : take (length (workerHeap s)) (workerHeap s')
                  = take (length (workerHeap s))
                      (take (length (workerHeap s) + 1) (workerHeap s'))).
      { rewrite take_take. f_equal. lia. }
      rewrite E, Hold. by rewrite take_app_length.
    + lia.
    + intros [|j] Hj.
      * exists sk. rewrite !Nat.add_0_r. split; [done|].
        rewrite <- (lookup_take_lt _ (length (workerHeap s) + 1)) by lia.
        rewrite Hold. rewrite lookup_app_r by lia. by rewrite Nat.sub_diag.
      * destruct (Hnew j) as (sk' & Hsk' & Hl); [lia|]. exists sk'.
        rewrite <- Nat.add_succ_r in Hsk'. split; [done|].
        rewrite <- Hl. f_equal. lia.
    + rewrite Hgo, <- app_assoc. simpl. by rewrite Nat.add_1_r.
    + lia.
    + intros _. destruct n as [|n].
      * simpl in Hrun. injection Hrun as <-. by simpl.
      * apply Hsa. lia.
    + exact Hfr.
Qed.

End StartBuilds.

Section StartSucceeds.

Variable SplitHostPort : string -> error + (string * string).
Variable ParseInt : string -> Z -> Z -> error + Z.
Variable ResolveIPAddr : string -> string -> error + net_IPAddr.
Variable kernel_listen : nat -> Z -> Sockaddr -> error + nat.

Abbreviation getSocketAddress' := (getSocketAddress SplitHostPort ParseInt ResolveIPAddr).
Abbreviation buildSocket' :=
  (buildSocket SplitHostPort ParseInt ResolveIPAddr kernel_listen).
Abbreviation Start_loop' :=
  (Start_loop SplitHostPort ParseInt ResolveIPAddr kernel_listen).
Abbreviation Start' :=
  (Listener_Start SplitHostPort ParseInt ResolveIPAddr kernel_listen).

(** What [getSocketAddress] answers in [s] it answers in a state with the
    same [BindAddr], cached address and reported address. *)
Lemma getSocketAddress_inr_transfer (s s1 s2 : Store) (sa : Sockaddr) :
  getSocketAddress' s = Ret (inr sa) s1 →
  BindAddr (lst s2) = BindAddr (lst s) → sockAddr (lst s2) = sockAddr (lst s) →
  addr (lst s2) = addr (lst s) →
  getSocketAddress' s2 = Ret (inr sa) (with_address sa (addr (lst s1)) s2).
Proof.
  unfold getSocketAddress. unfold_M. intros H Hb Hsa Ha. rewrite Hsa, Hb.
  destruct (sockAddr (lst s)) as [sa0|] eqn:E.
  - injection H as <- <-. rewrite <- Ha. by rewrite with_address_id.
  - destruct (SplitHostPort _) as [?|[host port]]; [discriminate|].
    destruct (ParseInt _ _ _); [discriminate|].
    destruct (ResolveIPAddr _ _); [discriminate|].
    destruct (_ || _); simpl in *; [|discriminate].
    by injection H as <- <-.
Qed.

(** When the address resolves and the kernel gives a socket for each
    worker, [Start] returns no error and has built the workers. *)
Lemma Start_succeeds (s s1 : Store) (sa : Sockaddr) :
  0 ≤ Listeners (lst s) →
  getSocketAddress' s = Ret (inr sa) s1 →
  (∀ j, (j < Z.to_nat (worker_count (lst s)))%nat →
        ∃ sk, kernel_listen (syscalls s + j)%nat (family_of sa) sa = inr sk) →
  ∃ s', Start' s = Ret None s'
        ∧ Start_built kernel_listen sa (Z.to_nat (worker_count (lst s))) s s'
        ∧ Listeners (lst s') = worker_count (lst s)
        ∧ addr (lst s') = addr (lst s1).
Proof.
  intros Hn Hg Hk. rewrite (Start_unfold _ _ _ _ s Hn).
  destruct (worker_count_pos (lst s) Hn) as [m Hm].
  destruct (Start_loop_builds SplitHostPort ParseInt ResolveIPAddr kernel_listen
              (Z.to_nat (worker_count (lst s))) 0 (Start_entry s) sa (addr (lst s1)))
    as (s' & Hrun & Hws & Hold & Hhl & Hnew & Hgo & Hsys & Hsa & HL & Hch & Hd & He
        & Hcc & Hec & Hcs & Hcn).
  - by apply (getSocketAddress_inr_transfer s s1).
  - simpl. by rewrite length_replicate.
  - exact Hk.
  - exists s'. split; [exact Hrun|]. simpl in *.
    destruct Hsa as [Hsa Ha]; [lia|].
    split; [by split|]. by split.
Qed.

(** What a round of the loop of [Start] that was followed by a return
    without an error has found. *)
Lemma Start_loop_success_inv (n i : nat) (s s' : Store) :
  Start_loop' (S n) i s = Ret None s' →
  ∃ sa s1 sk, getSocketAddress' s = Ret (inr sa) s1
              ∧ kernel_listen (syscalls s) (family_of sa) sa = inr sk
              ∧ (i < length (workers (lst s)))%nat.
Proof.
  simpl. intros H. apply bind_Ret_inv in H as ([err|sk] & s2 & Hb & H).
  { apply bind_Ret_inv in H as (? & ? & _ & H). discriminate. }
  unfold buildSocket in Hb. apply bind_Ret_inv in Hb as ([e|sa] & s1 & Hg & Hb).
  { discriminate. }
  pose proof (getSocketAddress_inr _ _ _ _ _ _ Hg) as Hs1.
  revert Hb. unfold_M. simpl. fold (family_of sa). intros [= Hk <-].
  assert (Hsys : syscalls s1 = syscalls s) by (by rewrite Hs1).
  rewrite Hsys in Hk.
  exists sa, s1, sk. split; [done|]. split; [done|].
  revert H. unfold new_worker. unfold_M. simpl.
  destruct (i <? length (workers (lst s1)))%nat eqn:Hi; [|discriminate].
  intros _. apply Nat.ltb_lt in Hi. by rewrite Hs1 in Hi.
Qed.

Lemma Start_loop_kernel (n i : nat) (s s' : Store) (sa : Sockaddr) (a : option net_TCPAddr) :
  Start_loop' n i s = Ret None s' →
  getSocketAddress' s = Ret (inr sa) (with_address sa a s) →
  ∀ j, (j < n)%nat →
       ∃ sk, kernel_listen (syscalls s + j)%nat (family_of sa) sa = inr sk.
Proof.
  revert i s. induction n as [|n IH]; intros i s H Hg j Hj; [lia|].
  destruct (Start_loop_success_inv n i s s' H) as (sa' & s1 & sk & Hg' & Hk & Hi).
  rewrite Hg in Hg'. injection Hg' as <- _.
  destruct j as [|j]; [rewrite Nat.add_0_r; eauto|].
  rewrite (Start_loop_round _ _ _ _ n i sk s sa a Hg Hk Hi) in H.
  destruct (IH (S i) _ H (Start_round_resolved _ _ _ i sk s sa a) j) as [sk' Hk'];
    [lia|].
  exists sk'. simpl in Hk'. by rewrite <- Nat.add_succ_r in Hk'.
Qed.

(** When [Start] returns no error, the address was resolved and the
    workers are built. *)
Lemma Start_success_built (s s' : Store) :
  Start' s = Ret None s' →
  ∃ sa, Start_built kernel_listen sa (Z.to_nat (worker_count (lst s))) s s'
        ∧ Listeners (lst s') = worker_count (lst s)
        ∧ (0 < Z.to_nat (worker_count (lst s)))%nat.
Proof.
  intros H. destruct (decide (0 ≤ Listeners (lst s))) as [Hn|Hn].
  2:{ rewrite Start_negative in H by lia. discriminate. }
  pose proof H as H0. rewrite (Start_unfold _ _ _ _ s Hn) in H.
  destruct (worker_count_pos (lst s) Hn) as [m Hm].
  rewrite Hm in H.
  destruct (Start_loop_success_inv m 0 _ s' H) as (sa & s1 & sk & Hg & Hk & Hi).
  pose proof (getSocketAddress_inr _ _ _ _ _ _ Hg) as Hs1.
  assert (Hg1 : getSocketAddress' (Start_entry s)
                = Ret (inr sa) (with_address sa (addr (lst s1)) (Start_entry s)))
    by (by rewrite <- Hs1).
  pose proof (Start_loop_kernel _ _ _ _ _ _ H Hg1) as Hall.
  assert (Hg0 : getSocketAddress' s
                = Ret (inr sa) (with_address sa (addr (lst s1)) s)).
  { by apply (getSocketAddress_inr_transfer (Start_entry s) s1 s). }
  destruct (Start_succeeds s _ sa Hn Hg0) as (s'' & Hrun & Hb & HL & _).
  { rewrite Hm. exact Hall. }
  rewrite H0 in Hrun. injection Hrun as <-.
  exists sa. split; [exact Hb|]. split; [exact HL|]. lia.
Qed.

End StartSucceeds.

(** X5.  When the bind address cannot be resolved, [Start] on a listener
    whose registry is in order returns the error of [getSocketAddress]
    wrapped twice.  The kernel was not asked for a socket, no worker was
    made, no socket closed and no accept loop launched, and the address
    the listener reports is as before. *)
Theorem Start_unresolved_address
  (SplitHostPort : string -> error + (string * string))
  (ParseInt : string -> Z -> Z -> error + Z)
  (ResolveIPAddr : string -> string -> error + net_IPAddr)
  (kernel_listen : nat -> Z -> Sockaddr -> error + nat)
  (s s1 : Store) (e : error) :
  registry_ok s = true → 0 ≤ Listeners (lst s) →
  getSocketAddress SplitHostPort ParseInt ResolveIPAddr s = Ret (inl e) s1 →
  ∃ s', Listener_Start SplitHostPort ParseInt ResolveIPAddr kernel_listen s
        = Ret (Some ("builder worker socket: "
                       +:+ ("get socket address for bind: " +:+ e))) s'
        ∧ syscalls s' = syscalls s
        ∧ workerHeap s' = workerHeap s
        ∧ closedSockets s' = closedSockets s
        ∧ goroutines s' = goroutines s
        ∧ Listener_Addr s' = Listener_Addr s.
Proof.
  intros Hreg Hn Hg. rewrite (Start_unfold _ _ _ _ s Hn).
  destruct (worker_count_pos (lst s) Hn) as [m Hm].
  set (s0 := Start_entry s).
  assert (Hg0 : getSocketAddress SplitHostPort ParseInt ResolveIPAddr s0 = Ret (inl e) s0).
  { destruct (getSocketAddress_transfer _ _ _ s s1 s0 _ Hg eq_refl eq_refl) as [s3 H3].
    by destruct (getSocketAddress_inl _ _ _ _ _ _ H3) as [_ ->]. }
  assert (Hb : buildSocket SplitHostPort ParseInt ResolveIPAddr kernel_listen s0
               = Ret (inl ("get socket address for bind: " +:+ e)) s0).
  { unfold buildSocket. by rewrite (bind_Ret _ _ _ _ _ Hg0). }
  assert (Hws : stop_workers (workers (lst s0)) s0 = Ret tt s0)
    by apply stop_workers_nil.
  destruct (Stop_returns s0 (length (connChans s))) as [s' Hstop].
  { intros w Hw. simpl in Hw. apply elem_of_replicate in Hw as [? _]. discriminate. }
  { reflexivity. }
  { exact (registry_ok_routes_open s Hreg). }
  exists s'. split.
  { rewrite Hm. simpl. rewrite (bind_Ret _ _ _ _ _ Hb).
    by rewrite (bind_Ret _ _ _ _ _ Hstop). }
  pose proof (preserves_Ret Stop_frame _ _ _ _ Stop_frame_Stop Hstop) as Hf.
  rewrite Stop_unfold, (bind_Ret _ _ _ _ _ Hws) in Hstop.
  apply (preserves_Ret same_workers) in Hstop as [Hh Hc].
  2:{ apply (preserves_bind same_workers); [apply same_workers_close_protocols|].
      intros _. apply same_workers_Stop_tail. }
  split; [exact (frame_syscalls _ _ Hf)|]. split; [exact Hh|]. split; [exact Hc|].
  split; [exact (frame_goroutines _ _ Hf)|]. exact (frame_addr _ _ Hf).
Qed.

Lemma Start_unresolved_address_witness :
  ∃ s', Example.Start 99 (Example.init "localhost" 4)
        = Ret (Some ("builder worker socket: "
                       +:+ ("get socket address for bind: "
                              +:+ "split listener address to host and port: address localhost: missing port in address"))) s'
        ∧ syscalls s' = 0%nat
        ∧ workerHeap s' = []
        ∧ closedSockets s' = []
        ∧ goroutines s' = []
        ∧ Listener_Addr s' = None.
Proof.
  apply (Start_unresolved_address Example.SplitHostPort Example.ParseInt
           Example.ResolveIPAddr (Example.kernel_listen 99)
           (Example.init "localhost" 4) (Example.init "localhost" 4)).
  - vm_compute. reflexivity.
  - vm_compute. discriminate.
  - vm_compute. reflexivity.
Defined.

(** X6.  When the bind address resolves to [sa] and the kernel answers
    each of the requests with a socket, [Start] returns no error.  The
    worker count is [Listeners], or 1 when that was 0, and is stored; the
    worker list names that many new workers in the order they were made,
    the workers that existed are untouched, each new worker is running
    with its mutex free on the socket the kernel gave for its request on
    [sa], one accept loop was launched for each in that order, the
    address is cached, the default and the error channel are fresh, empty
    and of capacity 1, and the registry and the queues of the routes are
    as they were. *)
Theorem Start_builds_workers
  (SplitHostPort : string -> error + (string * string))
  (ParseInt : string -> Z -> Z -> error + Z)
  (ResolveIPAddr : string -> string -> error + net_IPAddr)
  (kernel_listen : nat -> Z -> Sockaddr -> error + nat)
  (s s1 : Store) (sa : Sockaddr) :
  0 ≤ Listeners (lst s) →
  getSocketAddress SplitHostPort ParseInt ResolveIPAddr s = Ret (inr sa) s1 →
  (∀ j, (j < Z.to_nat (worker_count (lst s)))%nat →
        ∃ sk, kernel_listen (syscalls s + j)%nat (family_of sa) sa = inr sk) →
  ∃ s', Listener_Start SplitHostPort ParseInt ResolveIPAddr kernel_listen s
        = Ret None s'
        ∧ Start_built kernel_listen sa (Z.to_nat (worker_count (lst s))) s s'
        ∧ Listeners (lst s') = worker_count (lst s)
        ∧ Listener_Addr s' = Listener_Addr s1.
Proof. apply Start_succeeds. Qed.

Lemma Start_builds_workers_witness :
  let s := Example.registered 3 in
  let sa := SockaddrInet6 6080 Example.localhost in
  ∃ s', Example.Start 99 s = Ret None s'
        ∧ Start_built (Example.kernel_listen 99) sa 3 s s'
        ∧ Listeners (lst s') = 3
        ∧ Listener_Addr s' = Some (mkTCPAddr Example.localhost 6080 "").
Proof.
  intros s sa.
  apply (Start_builds_workers Example.SplitHostPort Example.ParseInt
           Example.ResolveIPAddr (Example.kernel_listen 99) s
           (with_address sa (Some (mkTCPAddr Example.localhost 6080 "")) s) sa).
  - vm_compute. discriminate.
  - vm_compute. reflexivity.
  - intros j Hj. exists j. change (Z.to_nat (worker_count (lst s))) with 3%nat in Hj.
    change (syscalls s) with 0%nat. simpl. unfold Example.kernel_listen.
    destruct (Nat.eqb_spec j 99); [lia|reflexivity].
Defined.

(** X7.  Routes are registered before [Start]: once [Start] has returned
    without an error, [Protocol] refuses every name, configured or not,
    and changes nothing. *)
Theorem Protocol_refused_after_Start
  (SplitHostPort : string -> error + (string * string))
  (ParseInt : string -> Z -> Z -> error + Z)
  (ResolveIPAddr : string -> string -> error + net_IPAddr)
  (kernel_listen : nat -> Z -> Sockaddr -> error + nat)
  (s s' : Store) (p : string) :
  Listener_Start SplitHostPort ParseInt ResolveIPAddr kernel_listen s = Ret None s' →
  Listener_Protocol p s'
  = Ret (None, Some "protocol listener must be created before starting listener") s'.
Proof.
  intros H.
  destruct (Start_success_built _ _ _ _ s s' H) as (sa & Hb & _ & Hpos).
  apply Protocol_after_start.
  rewrite (built_workers _ _ _ _ _ Hb), length_fmap, length_seq. exact Hpos.
Qed.

Lemma Protocol_refused_after_Start_witness :
  Listener_Protocol "h2" (Example.started 2)
  = Ret (None, Some "protocol listener must be created before starting listener")
      (Example.started 2).
Proof.
  apply (Protocol_refused_after_Start Example.SplitHostPort Example.ParseInt
           Example.ResolveIPAddr (Example.kernel_listen 99) (Example.registered 2)).
  vm_compute. reflexivity.
Defined.

(** X8.  [Stop] after a [Start] that returned no error, on a listener
    whose registry was in order, returns: every worker [Start] made is
    stopped (not running, its socket closed, its mutex free), the worker
    list, the registry and the cached address are cleared and the default
    channel is closed.  The accept loops are not waited for: the
    goroutines are those there were. *)
Theorem Stop_after_Start
  (SplitHostPort : string -> error + (string * string))
  (ParseInt : string -> Z -> Z -> error + Z)
  (ResolveIPAddr : string -> string -> error + net_IPAddr)
  (kernel_listen : nat -> Z -> Sockaddr -> error + nat)
  (s s1 : Store) :
  registry_ok s = true →
  Listener_Start SplitHostPort ParseInt ResolveIPAddr kernel_listen s = Ret None s1 →
  ∃ s2, Listener_Stop s1 = Ret tt s2
        ∧ rolled_back (length (workerHeap s)) s2
        ∧ length (workerHeap s2) = length (workerHeap s1)
        ∧ goroutines s2 = goroutines s1.
Proof.
  intros Hreg H.
  destruct (Start_success_built _ _ _ _ s s1 H) as (sa & Hb & _ & Hpos).
  destruct Hb as [Hws Hold Hlen Hnew Hgo Hsys Hsa Hch Hd He Hcc Hec Hcs Hcn].
  assert (Hin : ∀ w, Some w ∈ workers (lst s1) ↔
                     (length (workerHeap s) ≤ w
                      < length (workerHeap s) + Z.to_nat (worker_count (lst s)))%nat).
  { intros w. rewrite Hws, list_elem_of_fmap. split.
    - intros (w' & [= ->] & Hw'). apply elem_of_seq in Hw'. lia.
    - intros Hw. exists w. split; [done|]. apply elem_of_seq. lia. }
  destruct (Stop_returns s1 (length (connChans s))) as [s2 Hstop].
  { intros w Hw. apply Hin in Hw.
    destruct (Hnew (w - length (workerHeap s))%nat) as (sk & _ & Hl); [lia|].
    replace (length (workerHeap s) + (w - length (workerHeap s)))%nat with w in Hl by lia.
    by eexists. }
  { exact Hd. }
  { pose proof (registry_ok_routes_open s Hreg) as Hro.
    unfold routes_open, registry in *. rewrite Hch, Hcc. exact Hro. }
  exists s2. split; [exact Hstop|].
  destruct (Stop_clears s1 s2 Hstop) as (Hw2 & Hc2 & Ha2).
  destruct (Stop_stops_workers s1 s2 Hstop) as (Hall & Hl2).
  destruct (Stop_closes_default s1 s2 Hstop) as (q & ch & _ & Hd2 & Hq & Hcl & _).
  pose proof (preserves_Ret Stop_frame _ _ _ _ Stop_frame_Stop Hstop) as Hf.
  split; [|split; [exact Hl2|exact (frame_goroutines _ _ Hf)]].
  repeat split; try done; [|by exists q, ch].
  intros w Hw. apply Hall, Hin. lia.
Qed.

Lemma Stop_after_Start_witness :
  ∃ s2, Listener_Stop (Example.started 2) = Ret tt s2
        ∧ rolled_back (length (workerHeap (Example.registered 2))) s2
        ∧ length (workerHeap s2) = length (workerHeap (Example.started 2))
        ∧ goroutines s2 = goroutines (Example.started 2).
Proof.
  apply (Stop_after_Start Example.SplitHostPort Example.ParseInt
           Example.ResolveIPAddr (Example.kernel_listen 99) (Example.registered 2)).
  - vm_compute. reflexivity.
  - vm_compute. reflexivity.
Defined.

(** *** Delivery and Accept *)

Lemma Listener_Accept_queued
      (TCPAddr_String : net_TCPAddr -> string)
      (s : Store) (d : nat) (ch : chan tls_Conn) (conn : tls_Conn)
      (rest : list tls_Conn) (pick : bool) :
  defaultChannel (lst s) = Some d →
  connChans s !! d = Some ch → buf ch = conn :: rest →
  pick = true ∨ heap_recv_ready (errors (lst s)) (errChans s) = false →
  Listener_Accept TCPAddr_String pick s
  = Ret (Some conn, None)
        (set_connChans (<[d := mkChan rest (cap ch) (closed ch)]> (connChans s)) s).
Proof.
  intros Hd Hq Hb Hpick.
  unfold Listener_Accept, recv_conn, heap_recv_ready. unfold_M. simpl.
  rewrite Hd. simpl. rewrite Hq, Hb. simpl.
  assert (Hsel : negb match heap_recv (errors (lst s)) (errChans s) with
                      | ChBlock => false
                      | _ => true
                      end || pick = true).
  { destruct Hpick as [->|He]; [apply orb_true_r|].
    unfold heap_recv_ready in He. by rewrite He. }
  rewrite Hsel. simpl. by rewrite Hq, Hb.
Qed.

Lemma Listener_Accept_error
      (TCPAddr_String : net_TCPAddr -> string)
      (s : Store) (e : nat) (ch : chan error) (err : error)
      (rest : list error) (pick : bool) :
  errors (lst s) = Some e →
  errChans s !! e = Some ch → buf ch = err :: rest →
  pick = false ∨ heap_recv_ready (defaultChannel (lst s)) (connChans s) = false →
  Listener_Accept TCPAddr_String pick s
  = Ret (None, Some err)
        (set_errChans (<[e := mkChan rest (cap ch) (closed ch)]> (errChans s)) s).
Proof.
  intros He Hq Hb Hpick.
  unfold Listener_Accept, recv_err, heap_recv_ready. unfold_M. simpl.
  rewrite He. simpl. rewrite Hq, Hb. simpl.
  assert (Hsel : match heap_recv (defaultChannel (lst s)) (connChans s) with
                 | ChBlock => false
                 | _ => true
                 end && pick = false).
  { destruct Hpick as [->|Hd]; [apply andb_false_r|].
    unfold heap_recv_ready in Hd. by rewrite Hd. }
  rewrite Hsel. simpl. by rewrite Hq, Hb.
Qed.

(** A send into an empty open queue followed by a receive leaves the
    heap as it was. *)
Lemma push_pop {A} (h : list (chan A)) (q : nat) (ch : chan A) (x : A) :
  h !! q = Some ch → closed ch = false → buf ch = [] →
  <[q := mkChan [] (cap ch) false]> (<[q := pushed x ch]> h) = h.
Proof.
  intros Hq Hc Hb. rewrite list_insert_insert_eq. apply list_insert_id.
  rewrite Hq. destruct ch. simpl in *. by subst.
Qed.

Lemma set_connChans_id (s : Store) : set_connChans (connChans s) s = s.
Proof. by destruct s. Qed.

Lemma set_errChans_id (s : Store) : set_errChans (errChans s) s = s.
Proof. by destruct s. Qed.

Lemma has_room_empty {A} (ch : chan A) :
  closed ch = false → buf ch = [] → (0 < cap ch)%nat → has_room ch = true.
Proof.
  intros Hc Hb Hcap. unfold has_room. rewrite Hc, Hb. simpl.
  by apply Nat.ltb_lt.
Qed.

(** X9.  A route and its [Accept] hand a connection over unchanged: a
    connection that negotiated the name of a registered route mutually,
    delivered while the queue of the route is empty, is the one the next
    [Accept] on the route returns, with no error, and the state is then
    as it was before the delivery. *)
Theorem route_round_trip (s : Store) (conn : tls_Conn) (p : Protocol)
        (ch : chan tls_Conn) :
  Handshake conn = None →
  registry (lst s) !! NegotiatedProtocol (ConnectionState conn) = Some p →
  NegotiatedProtocolIsMutual (ConnectionState conn) = true →
  connChans s !! channel p = Some ch →
  closed ch = false → buf ch = [] → (0 < cap ch)%nat →
  ∃ s1, connectionReceived conn s = Ret tt s1
        ∧ queue s1 (channel p) = Some [conn]
        ∧ Protocol_Accept p s1 = Ret (Some conn, None) s.
Proof.
  intros Hh Hp Hm Hq Hc Hb Hcap.
  rewrite (connectionReceived_target s conn Hh). unfold spec_target.
  rewrite Hp, Hm. simpl.
  rewrite (send_conn_room s _ ch conn Hq (has_room_empty ch Hc Hb Hcap)).
  eexists. split; [reflexivity|].
  assert (Hlt : (channel p < length (connChans s))%nat) by (by eapply lookup_lt_Some).
  split.
  - unfold queue. simpl. rewrite list_lookup_insert_eq by done. simpl. by rewrite Hb.
  - erewrite Protocol_Accept_queued.
    2:{ simpl. by apply list_lookup_insert_eq. }
    2:{ simpl. by rewrite Hb. }
    unfold set_connChans. simpl. rewrite (push_pop _ _ ch conn Hq Hc Hb).
    by destruct s.
Qed.

Lemma route_round_trip_witness :
  let s := Example.started 1 in
  let conn := Example.conn_ok 5 "h2" true in
  ∃ s1, connectionReceived conn s = Ret tt s1
        ∧ queue s1 0 = Some [conn]
        ∧ Protocol_Accept (mkProtocol "h2" 0) s1 = Ret (Some conn, None) s.
Proof.
  intros s conn.
  apply (route_round_trip s conn (mkProtocol "h2" 0) (make_chan 1)).
  - reflexivity.
  - vm_compute. reflexivity.
  - reflexivity.
  - vm_compute. reflexivity.
  - reflexivity.
  - reflexivity.
  - simpl. lia.
Defined.

(** X10.  The default route hands a connection over unchanged: a
    connection that negotiated no registered name, or a registered name
    without the negotiation being mutual, delivered while the default
    queue is empty, is the one the next [Accept] of the listener returns,
    with no error, when the [select] takes the default channel (as it
    must when no worker error is pending); the state is then as it was
    before the delivery. *)
Theorem default_round_trip
        (TCPAddr_String : net_TCPAddr -> string)
        (s : Store) (conn : tls_Conn) (d : nat) (ch : chan tls_Conn) (pick : bool) :
  Handshake conn = None →
  registry (lst s) !! NegotiatedProtocol (ConnectionState conn) = None
  ∨ NegotiatedProtocolIsMutual (ConnectionState conn) = false →
  defaultChannel (lst s) = Some d →
  connChans s !! d = Some ch →
  closed ch = false → buf ch = [] → (0 < cap ch)%nat →
  pick = true ∨ heap_recv_ready (errors (lst s)) (errChans s) = false →
  ∃ s1, connectionReceived conn s = Ret tt s1
        ∧ queue s1 d = Some [conn]
        ∧ Listener_Accept TCPAddr_String pick s1 = Ret (Some conn, None) s.
Proof.
  intros Hh Hdef Hd Hq Hc Hb Hcap Hpick.
  rewrite (connectionReceived_target s conn Hh).
  assert (Ht : spec_target (lst s) (ConnectionState conn) = Some d).
  { unfold spec_target. destruct Hdef as [Hn|Hm].
    - rewrite Hn. simpl. exact Hd.
    - rewrite Hm, andb_false_r. exact Hd. }
  rewrite Ht.
  rewrite (send_conn_room s _ ch conn Hq (has_room_empty ch Hc Hb Hcap)).
  eexists. split; [reflexivity|].
  assert (Hlt : (d < length (connChans s))%nat) by (by eapply lookup_lt_Some).
  split.
  - unfold queue. simpl. rewrite list_lookup_insert_eq by done. simpl. by rewrite Hb.
  - erewrite (Listener_Accept_queued TCPAddr_String _ d).
    2:{ exact Hd. }
    2:{ simpl. by apply list_lookup_insert_eq. }
    2:{ simpl. by rewrite Hb. }
    2:{ exact Hpick. }
    unfold set_connChans. simpl. rewrite (push_pop _ _ ch conn Hq Hc Hb).
    by destruct s.
Qed.

Lemma default_round_trip_witness :
  let s := Example.started 1 in
  let conn := Example.conn_ok 5 "h2" false in
  ∃ s1, connectionReceived conn s = Ret tt s1
        ∧ queue s1 1 = Some [conn]
        ∧ Example.Accept false s1 = Ret (Some conn, None) s.
Proof.
  intros s conn.
  apply (default_round_trip Example.TCPAddr_String s conn 1 (make_chan 1) false).
  - reflexivity.
  - right. reflexivity.
  - vm_compute. reflexivity.
  - vm_compute. reflexivity.
  - reflexivity.
  - reflexivity.
  - simpl. lia.
  - right. vm_compute. reflexivity.
Defined.

(** X11.  A full queue holds deliveries back: while the queue of a route
    is full, the delivery of a connection for that route parks and
    changes nothing; [Accept] on the route takes the oldest connection of
    the queue, and the delivery then completes behind the connections
    that were waiting. *)
Theorem full_route_parks_until_Accept
        (s : Store) (conn x : tls_Conn) (rest : list tls_Conn)
        (p : Protocol) (ch : chan tls_Conn) :
  Handshake conn = None →
  registry (lst s) !! NegotiatedProtocol (ConnectionState conn) = Some p →
  NegotiatedProtocolIsMutual (ConnectionState conn) = true →
  connChans s !! channel p = Some ch →
  closed ch = false → buf ch = x :: rest → length (buf ch) = cap ch →
  connectionReceived conn s = Block s
  ∧ ∃ s1 s2, Protocol_Accept p s = Ret (Some x, None) s1
             ∧ connectionReceived conn s1 = Ret tt s2
             ∧ queue s2 (channel p) = Some (rest ++ [conn]).
Proof.
  intros Hh Hp Hm Hq Hc Hb Hfull.
  assert (Hlt : (channel p < length (connChans s))%nat) by (by eapply lookup_lt_Some).
  split.
  - rewrite (connectionReceived_target s conn Hh). unfold spec_target.
    rewrite Hp, Hm. simpl. unfold send_conn, heap_send. simpl.
    rewrite Hq, Hc, Hfull, Nat.ltb_irrefl. reflexivity.
  - rewrite (Protocol_Accept_queued s p ch x rest Hq Hb).
    set (s1 := set_connChans _ s). exists s1.
    assert (Hq1 : connChans s1 !! channel p = Some (mkChan rest (cap ch) (closed ch))).
    { subst s1. simpl. by apply list_lookup_insert_eq. }
    rewrite (connectionReceived_target s1 conn Hh). unfold spec_target.
    change (lst s1) with (lst s). rewrite Hp, Hm. simpl.
    rewrite (send_conn_room s1 _ _ conn Hq1).
    2:{ unfold has_room. simpl. rewrite Hc. simpl. apply Nat.ltb_lt.
        rewrite <- Hfull, Hb. simpl. lia. }
    eexists. split; [reflexivity|]. split; [reflexivity|].
    unfold queue. simpl. rewrite list_lookup_insert_eq; [done|].
    subst s1. simpl. by rewrite length_insert.
Qed.

Lemma full_route_parks_until_Accept_witness :
  let x := Example.conn_ok 5 "h2" true in
  let conn := Example.conn_ok 6 "h2" true in
  let s := outcome_store (connectionReceived x (Example.started 1)) in
  connectionReceived conn s = Block s
  ∧ ∃ s1 s2, Protocol_Accept (mkProtocol "h2" 0) s = Ret (Some x, None) s1
             ∧ connectionReceived conn s1 = Ret tt s2
             ∧ queue s2 0 = Some [conn].
Proof.
  intros x conn s.
  apply (full_route_parks_until_Accept s conn x [] (mkProtocol "h2" 0)
           (mkChan [x] 1 false)).
  - reflexivity.
  - vm_compute. reflexivity.
  - reflexivity.
  - vm_compute. reflexivity.
  - reflexivity.
  - reflexivity.
  - reflexivity.
Defined.

(** X12.  A delivery that comes after [Stop] brings the program down:
    when [Stop] has returned, [connectionReceived] for a connection whose
    handshake succeeds, whatever it negotiated, sends on the closed
    default channel and panics. *)
Theorem connectionReceived_after_Stop (s s' : Store) (conn : tls_Conn) :
  Listener_Stop s = Ret tt s' → Handshake conn = None →
  connectionReceived conn s' = Panic "send on closed channel" s'.
Proof.
  intros Hstop Hh.
  destruct (Stop_clears s s' Hstop) as (_ & Hc & _).
  destruct (Stop_closes_default s s' Hstop) as (q & ch & _ & Hd & Hq & Hcl & _).
  rewrite (connectionReceived_target s' conn Hh). unfold spec_target, registry.
  rewrite Hc. simpl. rewrite lookup_empty. simpl. rewrite Hd.
  unfold send_conn, heap_send. simpl. by rewrite Hq, Hcl.
Qed.

Lemma connectionReceived_after_Stop_witness :
  let s' := outcome_store (Listener_Stop (Example.started 1)) in
  connectionReceived (Example.conn_ok 5 "h2" true) s'
  = Panic "send on closed channel" s'.
Proof.
  intros s'.
  apply (connectionReceived_after_Stop (Example.started 1) s').
  - vm_compute. reflexivity.
  - reflexivity.
Defined.

(** *** A turn of the accept loop *)

(** X13.  One turn of the accept loop of a running worker whose socket
    is open: the loop tests the flag under the mutex, takes the
    connection that arrives and hands it to a new goroutine that runs
    [connectionReceived]; it is then back at its test.  Nothing else has
    changed: the loop itself does not wait for the handshake or for room
    in a queue. *)
Theorem listen_hands_over (s : Store) (w i : nat) (x : worker) (conn : tls_Conn)
        (pool : list thread) :
  pool !! i = Some (w, listen_isRunning_Lock) →
  workerHeap s !! w = Some x → lock x = false → running x = true →
  nat_mem (socket x) (closedSockets s) = false →
  run (steps 4 i ++ [(i, Some (inr conn)); (i, None)]) pool s
  = Ret pool (set_goroutines (goroutines s ++ [GoConnectionReceived conn]) s).
Proof.
  intros Hi Hw Hl Hr Hsk. unfold steps. simpl replicate. simpl app.
  rewrite (run_listen_isRunning i w x pool s None None None _ Hi Hw Hl). rewrite Hr.
  rewrite (run_at i None _ _ s s (w, listen_for true) (w, listen_Accept)
             (pool_lookup_insert _ _ _ _ Hi) eq_refl).
  rewrite list_insert_insert_eq.
  rewrite (run_at i (Some (inr conn)) _ _ s s (w, listen_Accept) (w, listen_go conn)
             (pool_lookup_insert _ _ _ _ Hi)).
  2:{ unfold step_thread. simpl.
      rewrite (bind_Ret _ _ _ _ _ (get_worker_Some _ w x Hw)).
      unfold_M. simpl. by rewrite Hsk. }
  rewrite list_insert_insert_eq.
  rewrite (run_at i None _ _ s
             (set_goroutines (goroutines s ++ [GoConnectionReceived conn]) s)
             (w, listen_go conn) (w, listen_isRunning_Lock)
             (pool_lookup_insert _ _ _ _ Hi) eq_refl).
  rewrite list_insert_insert_eq. simpl. by rewrite list_insert_id.
Qed.

Lemma listen_hands_over_witness :
  let s := Example.started 1 in
  let conn := Example.conn_ok 5 "h2" true in
  let pool := [(0%nat, listen_isRunning_Lock)] in
  run (steps 4 0 ++ [(0%nat, Some (inr conn)); (0%nat, None)]) pool s
  = Ret pool (set_goroutines (goroutines s ++ [GoConnectionReceived conn]) s).
Proof.
  intros s conn pool.
  apply (listen_hands_over s 0 0 (mkWorker true 0 false) conn pool); reflexivity.
Defined.

(** X14.  An error of [Accept] on the socket of a worker reaches the
    caller of the listener's [Accept]: the loop sends it on the error
    channel (here empty, so the send completes) and goes back to its
    test, the worker as it was; the next [Accept] of the listener
    returns that error with no connection, when the [select] takes the
    error channel (as it must when the default queue has nothing), and
    the state is then as it was before the error. *)
Theorem accept_error_reaches_Accept
        (TCPAddr_String : net_TCPAddr -> string)
        (s : Store) (w i e : nat) (x : worker) (ch : chan error) (err : error)
        (pool : list thread) (pick : bool) :
  pool !! i = Some (w, listen_Accept) →
  workerHeap s !! w = Some x →
  nat_mem (socket x) (closedSockets s) = false →
  errors (lst s) = Some e → errChans s !! e = Some ch →
  closed ch = false → buf ch = [] → (0 < cap ch)%nat →
  pick = false ∨ heap_recv_ready (defaultChannel (lst s)) (connChans s) = false →
  ∃ s1, run [(i, Some (inl err)); (i, None)] pool s
        = Ret (<[i := (w, listen_isRunning_Lock)]> pool) s1
        ∧ err_queue s1 e = Some [err]
        ∧ workerHeap s1 = workerHeap s
        ∧ Listener_Accept TCPAddr_String pick s1 = Ret (None, Some err) s.
Proof.
  intros Hi Hw Hsk He Hch Hc Hb Hcap Hpick.
  assert (Hlt : (e < length (errChans s))%nat) by (by eapply lookup_lt_Some).
  rewrite (run_at i (Some (inl err)) _ pool s s (w, listen_Accept) (w, listen_send err) Hi).
  2:{ unfold step_thread. simpl.
      rewrite (bind_Ret _ _ _ _ _ (get_worker_Some _ w x Hw)).
      unfold_M. simpl. by rewrite Hsk. }
  set (s1 := set_errChans (<[e := pushed err ch]> (errChans s)) s).
  rewrite (run_at i None _ _ s s1 (w, listen_send err) (w, listen_isRunning_Lock)
             (pool_lookup_insert _ _ _ _ Hi)).
  2:{ unfold step_thread, send_err, heap_send. unfold_M. simpl.
      rewrite He, Hch, Hc, Hb. simpl.
      apply Nat.ltb_lt in Hcap. rewrite Hcap. simpl. subst s1. unfold pushed.
      by rewrite Hb. }
  rewrite list_insert_insert_eq. exists s1. split; [reflexivity|].
  split; [|split; [reflexivity|]].
  - unfold err_queue. subst s1. simpl. rewrite list_lookup_insert_eq by done.
    simpl. by rewrite Hb.
  - erewrite (Listener_Accept_error TCPAddr_String s1 e).
    2:{ exact He. }
    2:{ subst s1. simpl. by apply list_lookup_insert_eq. }
    2:{ simpl. by rewrite Hb. }
    2:{ exact Hpick. }
    subst s1. unfold set_errChans. simpl. rewrite (push_pop _ _ ch err Hch Hc Hb).
    by destruct s.
Qed.

Lemma accept_error_reaches_Accept_witness :
  let s := Example.started 1 in
  let err := "accept tcp 127.0.0.1:6080: accept4: too many open files" in
  ∃ s1, run [(0%nat, Some (inl err)); (0%nat, None)] [(0%nat, listen_Accept)] s
        = Ret (<[0%nat := (0%nat, listen_isRunning_Lock)]> [(0%nat, listen_Accept)]) s1
        ∧ err_queue s1 0 = Some [err]
        ∧ workerHeap s1 = workerHeap s
        ∧ Example.Accept true s1 = Ret (None, Some err) s.
Proof.
  intros s err.
  apply (accept_error_reaches_Accept Example.TCPAddr_String s 0 0 0
           (mkWorker true 0 false) (make_chan 1) err [(0%nat, listen_Accept)] true).
  - reflexivity.
  - vm_compute. reflexivity.
  - vm_compute. reflexivity.
  - vm_compute. reflexivity.
  - vm_compute. reflexivity.
  - reflexivity.
  - reflexivity.
  - simpl. lia.
  - right. vm_compute. reflexivity.
Defined.

(** X15.  A full error channel holds a stopped worker's loop back: the
    loop that [stop()] made fail in [Accept] stays at its send, however
    many steps it is given, while the error channel is full; when
    [Accept] of the listener has taken the oldest error, the send
    completes behind the errors that were waiting and the loop ends at
    its next test. *)
Theorem full_error_channel_parks_loop
        (TCPAddr_String : net_TCPAddr -> string)
        (s0 s : Store) (w e i : nat) (ch : chan error) (old : error)
        (rest : list error) (pool : list thread) (n : nat) (pick : bool) :
  stop w s0 = Ret tt s →
  errors (lst s) = Some e → errChans s !! e = Some ch →
  closed ch = false → buf ch = old :: rest → length (buf ch) = cap ch →
  pool !! i = Some (w, listen_Accept) →
  pick = false ∨ heap_recv_ready (defaultChannel (lst s)) (connChans s) = false →
  run (steps (S n) i) pool s
  = Ret (<[i := (w, listen_send ErrNetClosing)]> pool) s
  ∧ ∃ s1 s2,
      Listener_Accept TCPAddr_String pick s = Ret (None, Some old) s1
      ∧ run (steps 5 i) (<[i := (w, listen_send ErrNetClosing)]> pool) s1
        = Ret (<[i := (w, returned)]> pool) s2
      ∧ err_queue s2 e = Some (rest ++ [ErrNetClosing]).
Proof.
  intros Hstop He Hch Hc Hb Hfull Hi Hpick. split.
  - apply (listen_after_stop_parked s0 s w e i ch pool n Hstop He Hch Hc); [|done].
    unfold has_room. by rewrite Hc, Hfull, Nat.ltb_irrefl.
  - apply stop_Ret_inv in Hstop as (x & Hw & Hr & Hl & Hsk & _).
    assert (Hlt : (e < length (errChans s))%nat) by (by eapply lookup_lt_Some).
    rewrite (Listener_Accept_error TCPAddr_String s e ch old rest pick He Hch Hb Hpick).
    set (ch1 := mkChan rest (cap ch) (closed ch)).
    set (s1 := set_errChans (<[e := ch1]> (errChans s)) s).
    set (s2 := set_errChans (<[e := pushed ErrNetClosing ch1]> (errChans s1)) s1).
    exists s1, s2. split; [reflexivity|].
    assert (Hch1 : errChans s1 !! e = Some ch1).
    { subst s1. simpl. by apply list_lookup_insert_eq. }
    assert (Hroom : has_room ch1 = true).
    { unfold has_room. subst ch1. simpl. rewrite Hc. simpl. apply Nat.ltb_lt.
      rewrite <- Hfull, Hb. simpl. lia. }
    assert (Hi1 := pool_lookup_insert _ _ _ (w, listen_send ErrNetClosing) Hi).
    split.
    + unfold steps. simpl replicate.
      rewrite (run_at i None _ _ s1 s2 (w, listen_send ErrNetClosing)
                 (w, listen_isRunning_Lock) Hi1).
      2:{ unfold step_thread, send_err. unfold_M. simpl. rewrite He.
          by rewrite (heap_send_room _ _ _ _ Hch1 Hroom). }
      rewrite list_insert_insert_eq.
      rewrite (run_listen_isRunning i w x _ s2 None None None _
                 (pool_lookup_insert _ _ _ _ Hi) Hw Hl).
      rewrite list_insert_insert_eq, Hr.
      rewrite (run_at i None _ _ _ _ (w, listen_for false) (w, returned)
                 (pool_lookup_insert _ _ _ _ Hi) eq_refl).
      by rewrite list_insert_insert_eq.
    + unfold err_queue. subst s2. simpl.
      rewrite list_lookup_insert_eq; [done|].
      subst s1. simpl. by rewrite length_insert.
Qed.

Lemma full_error_channel_parks_loop_witness :
  let s0 := set_errChans [mkChan ["accept: too many open files"] 1 false]
              (Example.started 1) in
  let s := outcome_store (stop 0 s0) in
  let pool := [(0%nat, listen_Accept)] in
  run (steps 9 0) pool s
  = Ret (<[0%nat := (0%nat, listen_send ErrNetClosing)]> pool) s
  ∧ ∃ s1 s2,
      Example.Accept false s = Ret (None, Some "accept: too many open files") s1
      ∧ run (steps 5 0) (<[0%nat := (0%nat, listen_send ErrNetClosing)]> pool) s1
        = Ret (<[0%nat := (0%nat, returned)]> pool) s2
      ∧ err_queue s2 0 = Some ([] ++ [ErrNetClosing]).
Proof.
  intros s0 s pool.
  apply (full_error_channel_parks_loop Example.TCPAddr_String s0 s 0 0 0
           (mkChan ["accept: too many open files"] 1 false)
           "accept: too many open files" [] pool 8 false).
  - vm_compute. reflexivity.
  - vm_compute. reflexivity.
  - vm_compute. reflexivity.
  - reflexivity.
  - reflexivity.
  - reflexivity.
  - reflexivity.
  - left. reflexivity.
Defined.

(** *** The mutex of a worker *)

Lemma mutex_holders_insert (pool : list thread) (i w w' : nat) (p p' : pc) :
  pool !! i = Some (w, p) →
  (mutex_holders (<[i := ((w', p') : thread)]> pool)
   + (if holds_mutex p then 1 else 0)
   = mutex_holders pool + (if holds_mutex p' then 1 else 0))%nat.
Proof.
  unfold mutex_holders. revert i.
  induction pool as [|a pool IH]; intros [|i] H; simpl in *; try discriminate.
  - injection H as ->. simpl. lia.
  - specialize (IH i H). lia.
Qed.

Lemma mutex_holders_app (pool new : list thread) :
  mutex_holders (pool ++ new) = (mutex_holders pool + mutex_holders new)%nat.
Proof. unfold mutex_holders. induction pool as [|a pool IH]; simpl; lia. Qed.

(** A step of a goroutine of a worker keeps the mutex in order and does
    not panic. *)
Lemma step_worker_ok (w i : nat) (ev : option accept_event)
      (pool : list thread) (s : Store) :
  worker_ok w pool s →
  match step i ev pool s with
  | Ret pool' s' => worker_ok w pool' s'
  | Panic _ _ => False
  | Block _ => True
  end.
Proof.
  intros (Hpool & (x & Hw & Hh) & Herr).
  unfold step. destruct (pool !! i) as [[w' p]|] eqn:Hi; [|done].
  pose proof (proj1 (Forall_lookup _ _) Hpool i _ Hi) as Hw'.
  simpl in Hw'. subst w'.
  assert (Hlt : (w < length (workerHeap s))%nat) by (by eapply lookup_lt_Some).
  pose proof (λ w' p', mutex_holders_insert pool i w w' p p' Hi) as Hins.
  assert (Hheld : holds_mutex p = true → lock x = true).
  { intros Hp. specialize (Hins w returned). simpl in Hins.
    rewrite Hp in Hins. destruct (lock x); [done|lia]. }
  assert (Hkeep : ∀ p' y, lock y = lock x → holds_mutex p' = holds_mutex p →
            worker_ok w (<[i := ((w, p') : thread)]> pool) (upd w y s)).
  { intros p' y Hy Hp'. split; [by apply Forall_insert|]. split; [|done].
    exists y. split; [by apply list_lookup_insert_eq|].
    specialize (Hins w p'). rewrite Hp' in Hins.
    rewrite Hy. lia. }
  assert (Hsame : ∀ p', holds_mutex p' = holds_mutex p →
            worker_ok w (<[i := ((w, p') : thread)]> pool) s).
  { intros p' Hp'. rewrite <- (upd_id s w x Hw). by apply Hkeep. }
  assert (Htake : ∀ p', holds_mutex p = false → holds_mutex p' = true →
            lock x = false →
            worker_ok w (<[i := ((w, p') : thread)]> pool)
              (upd w (mkWorker (running x) (socket x) true) s)).
  { intros p' Hp Hp' Hl. split; [by apply Forall_insert|]. split; [|done].
    eexists. split; [by apply list_lookup_insert_eq|].
    specialize (Hins w p'). rewrite Hp, Hp', Hl in *.
    simpl. lia. }
  assert (Hfree : ∀ p', holds_mutex p = true → holds_mutex p' = false →
            worker_ok w (<[i := ((w, p') : thread)]> pool)
              (upd w (mkWorker (running x) (socket x) false) s)).
  { intros p' Hp Hp'. split; [by apply Forall_insert|]. split; [|done].
    eexists. split; [by apply list_lookup_insert_eq|].
    specialize (Hins w p'). rewrite Hp, Hp' in *.
    rewrite (Hheld eq_refl) in Hh. simpl. lia. }
  destruct p; unfold step_thread, mutex_Lock, mutex_Unlock, set_running; unfold_M;
    simpl; rewrite ?(get_worker_Some s w x Hw); simpl;
    try (destruct (lock x) eqn:Hl; simpl; [done|]; rewrite app_nil_r;
         by apply Htake);
    try (rewrite (Hheld eq_refl); simpl; rewrite app_nil_r; by apply Hfree);
    try (rewrite app_nil_r; by apply Hsame).
  - (* start_if *)
    rewrite app_nil_r. apply Hsame. by destruct r.
  - (* start_set *)
    rewrite app_nil_r. by apply Hkeep.
  - (* start_go *)
    destruct (Hsame start_Unlock eq_refl) as (Hp1 & (y & Hy & Hh1) & He1).
    split; [|split].
    + apply Forall_app. split; [done|]. by repeat constructor.
    + exists y. split; [done|]. rewrite mutex_holders_app, Hh1.
      unfold mutex_holders. simpl. lia.
    + done.
  - (* stop_set *)
    rewrite app_nil_r. by apply Hkeep.
  - (* listen_for *)
    rewrite app_nil_r. apply Hsame. by destruct r.
  - (* listen_Accept *)
    destruct (nat_mem (socket x) (closedSockets s)); simpl.
    + rewrite app_nil_r. by apply Hsame.
    + destruct ev as [[err|conn]|]; simpl; [| |done];
        rewrite app_nil_r; by apply Hsame.
  - (* listen_send *)
    unfold send_err, heap_send.
    destruct (errors (lst s)) as [e|] eqn:He; simpl; [|done].
    destruct (Herr e eq_refl) as (ch & Hch & Hcl). rewrite Hch, Hcl.
    destruct (_ <? _)%nat; simpl; [|done]. rewrite app_nil_r.
    destruct (Hsame listen_isRunning_Lock eq_refl) as (Hp1 & Hx1 & He1).
    split; [done|]. split; [done|].
    simpl. intros e' He'. rewrite He in He'. injection He' as <-.
    eexists. split; [apply list_lookup_insert_eq; by eapply lookup_lt_Some|done].
  - (* returned *)
    done.
Qed.

(** X16.  The mutex of a worker does its work in every interleaving of
    calls of [start] and [stop], at any point of their bodies, and accept
    loops on that worker: no step panics, so no [Unlock] finds the mutex
    free and no send finds the error channel closed, and afterwards the
    mutex is held exactly when one goroutine is between a [Lock] and its
    [Unlock]; at most one goroutine is there at a time. *)
Theorem mutex_discipline (w : nat) (sched : list (nat * option accept_event))
        (pool : list thread) (s : Store) :
  worker_ok w pool s →
  ∃ pool' s', run sched pool s = Ret pool' s'
              ∧ worker_ok w pool' s'
              ∧ (mutex_holders pool' ≤ 1)%nat.
Proof.
  revert pool s. induction sched as [|[i ev] rest IH]; intros pool s Hok; simpl.
  - exists pool, s. split; [done|]. split; [done|].
    destruct Hok as (_ & (x & _ & Hh) & _). rewrite Hh. by destruct (lock x); lia.
  - pose proof (step_worker_ok w i ev pool s Hok) as Hstep.
    destruct (step i ev pool s) as [pool1 s1|msg s1|s1]; [|done|]; by apply IH.
Qed.

Lemma mutex_discipline_witness :
  let pool := [(0%nat, start_isRunning_Lock); (0%nat, stop_Lock);
               (0%nat, listen_isRunning_Lock)] in
  let sched := [(0%nat, None); (1%nat, None); (2%nat, None); (0%nat, None);
                (2%nat, None); (0%nat, None); (1%nat, None); (1%nat, None);
                (2%nat, Some (inl "accept: too many open files")); (1%nat, None)] in
  ∃ pool' s', run sched pool (Example.started 1) = Ret pool' s'
              ∧ worker_ok 0 pool' s'
              ∧ (mutex_holders pool' ≤ 1)%nat.
Proof.
  intros pool sched. apply (mutex_discipline 0 sched pool (Example.started 1)).
  split; [by repeat constructor|]. split.
  - exists (mkWorker true 0 false). split; vm_compute; reflexivity.
  - intros e He. vm_compute in He. injection He as <-.
    exists (make_chan 1). split; vm_compute; reflexivity.
Defined.

(** *** Stop on a listener that is running *)

#[local] Instance queues_kept_preorder : PreOrder queues_kept.
Proof.
  split.
  - intros s. by split.
  - intros s1 s2 s3 [H1 H1'] [H2 H2']. split; [congruence|].
    intros q. by rewrite H2', H1'.
Qed.

#[local] Instance closed_kept_preorder : PreOrder closed_kept.
Proof.
  split.
  - intros s q ch Hq Hc. by exists ch.
  - intros s1 s2 s3 H1 H2 q ch Hq Hc.
    destruct (H1 q ch Hq Hc) as (ch' & Hq' & Hc'). by apply (H2 q ch').
Qed.

(** On a listener whose registry and default channel are in order, the
    routes can be closed one after the other. *)
Lemma running_routes_open (s : Store) :
  registry_ok s = true → default_ok s = true →
  ∃ d, defaultChannel (lst s) = Some d
       ∧ routes_open d (map_to_list (registry (lst s))).*1 s.
Proof.
  unfold registry_ok, default_ok. intros H Hdef.
  apply andb_true_iff in H as [Hall Hnd]. apply bool_decide_eq_true in Hnd.
  rewrite forallb_forall in Hall.
  destruct (defaultChannel (lst s)) as [d|]; [|discriminate].
  destruct (connChans s !! d) as [chd|] eqn:Hd; [|discriminate].
  apply andb_true_iff in Hdef as [Hopen Hne]. rewrite forallb_forall in Hne.
  exists d. split; [done|].
  split; [apply NoDup_fst_map_to_list|]. split; [|split].
  - intros k Hk. apply list_elem_of_fmap in Hk as ([k' p] & -> & Hkp).
    pose proof Hkp as Hlook. apply elem_of_map_to_list in Hlook.
    apply list_elem_of_In in Hkp.
    pose proof (Hall _ Hkp) as Hok. pose proof (Hne _ Hkp) as Hn.
    unfold route_ok in Hok. simpl in *. apply andb_true_iff in Hok as [Hk Hch].
    apply String.eqb_eq in Hk.
    destruct (connChans s !! channel p) as [ch|] eqn:Hq; [|discriminate].
    exists p, ch. split; [done|]. split; [done|]. split.
    + apply negb_true_iff, Nat.eqb_neq in Hn. exact Hn.
    + split; [done|]. by destruct (closed ch).
  - intros k1 k2 p1 p2 _ _ H1 H2 Heq.
    apply elem_of_map_to_list in H1, H2.
    apply list_elem_of_lookup in H1 as [i1 H1]. apply list_elem_of_lookup in H2 as [i2 H2].
    assert (i1 = i2).
    { eapply NoDup_lookup; [exact Hnd| |].
      - rewrite list_lookup_fmap, H1. reflexivity.
      - rewrite list_lookup_fmap, H2. simpl. by rewrite Heq. }
    subst i2. rewrite H1 in H2. by injection H2.
  - exists chd. split; [done|]. by destruct (closed chd).
Qed.

Lemma queue_insert_same_buf (s : Store) (q p : nat) (ch ch' : chan tls_Conn) :
  connChans s !! p = Some ch → buf ch' = buf ch →
  queue (set_connChans (<[p := ch']> (connChans s)) s) q = queue s q.
Proof.
  intros Hp Hb. unfold queue. simpl. destruct (decide (q = p)) as [->|Hne].
  - rewrite list_lookup_insert_eq by (by eapply lookup_lt_Some).
    rewrite Hp. simpl. by rewrite Hb.
  - by rewrite list_lookup_insert_ne.
Qed.

(** A [close] keeps the queues and closes no connection. *)
Lemma queues_kept_close (c : option nat) : preserves queues_kept (close_conn_chan c).
Proof.
  intros s. unfold close_conn_chan, heap_close.
  destruct c as [p|]; simpl; [|done].
  destruct (connChans s !! p) as [ch|] eqn:Hp; simpl; [|done].
  destruct (closed ch); simpl; [done|]. split; [done|].
  intros q. by apply (queue_insert_same_buf s q p ch).
Qed.

Lemma queues_kept_Protocol_Close (p : Protocol) :
  preserves queues_kept (Protocol_Close p).
Proof.
  unfold Protocol_Close.
  apply (preserves_bind queues_kept); [apply (preserves_get_listener queues_kept)|].
  intros l. destruct (registry l !! proto p); [|apply (preserves_ret queues_kept)].
  apply (preserves_bind queues_kept); [apply queues_kept_close|]. intros _.
  preserves_walk queues_kept ltac:(by split).
Qed.

Lemma queues_kept_close_protocols (keys : list string) :
  preserves queues_kept (close_protocols keys).
Proof.
  induction keys as [|k keys IH]; simpl; [apply (preserves_ret queues_kept)|].
  apply (preserves_bind queues_kept); [apply (preserves_get_listener queues_kept)|].
  intros l. destruct (registry l !! k); [|exact IH].
  apply (preserves_bind queues_kept); [apply queues_kept_Protocol_Close|].
  intros _. exact IH.
Qed.

Lemma queues_kept_stop_workers (ws : list (option nat)) :
  preserves queues_kept (stop_workers ws).
Proof. apply (preserves_stop_workers queues_kept); intros; by split. Qed.

(** What the end of [Stop] does to the queues: a single connection
    waiting in the default queue is taken and closed. *)
Lemma Stop_tail_queues (s s' : Store) (d : nat) (chd : chan tls_Conn) :
  Stop_tail (Some d) s = Ret tt s' → connChans s !! d = Some chd →
  closedConns s'
  = closedConns s ++ (if (length (buf chd) =? 1)%nat then conn_fd <$> buf chd else [])
  ∧ queue s' d = Some (if (length (buf chd) =? 1)%nat then [] else buf chd)
  ∧ ∀ q, q ≠ d → queue s' q = queue s q.
Proof.
  intros H Hd. revert H.
  assert (Hlt : (d < length (connChans s))%nat) by (by eapply lookup_lt_Some).
  unfold Stop_tail, recv_conn, close_conn_chan, conn_Close. unfold_M. simpl.
  rewrite Hd. simpl. unfold queue.
  destruct (buf chd) as [|x [|y rest]] eqn:Hb; simpl.
  - rewrite Hd. simpl. destruct (closed chd); simpl; [discriminate|].
    intros [= <-]. simpl. rewrite app_nil_r, list_lookup_insert_eq by done.
    simpl. rewrite Hb. split; [done|]. split; [done|].
    intros q Hq. by rewrite list_lookup_insert_ne.
  - rewrite Hd, Hb. simpl. rewrite list_lookup_insert_eq by done. simpl.
    destruct (closed chd); simpl; [discriminate|].
    intros [= <-]. simpl. rewrite list_lookup_insert_eq by (by rewrite length_insert).
    split; [done|]. split; [done|].
    intros q Hq. by rewrite !list_lookup_insert_ne.
  - rewrite Hd. simpl. destruct (closed chd); simpl; [discriminate|].
    intros [= <-]. simpl. rewrite app_nil_r, list_lookup_insert_eq by done.
    simpl. rewrite Hb. split; [done|]. split; [done|].
    intros q Hq. by rewrite list_lookup_insert_ne.
Qed.

Lemma closed_kept_insert (s : Store) (p : nat) (ch ch' : chan tls_Conn) :
  connChans s !! p = Some ch → (closed ch = true → closed ch' = true) →
  closed_kept s (set_connChans (<[p := ch']> (connChans s)) s).
Proof.
  intros Hp Hc q c Hq Hcl. simpl. destruct (decide (q = p)) as [->|Hne].
  - exists ch'. rewrite list_lookup_insert_eq by (by eapply lookup_lt_Some).
    split; [done|]. apply Hc. rewrite Hp in Hq. by injection Hq as ->.
  - exists c. by rewrite list_lookup_insert_ne.
Qed.

Lemma closed_kept_close (c : option nat) : preserves closed_kept (close_conn_chan c).
Proof.
  intros s. unfold close_conn_chan, heap_close.
  destruct c as [p|]; simpl; [|reflexivity].
  destruct (connChans s !! p) as [ch|] eqn:Hp; simpl; [|reflexivity].
  destruct (closed ch); simpl; [reflexivity|].
  by apply (closed_kept_insert s p ch).
Qed.

Lemma closed_kept_recv (c : option nat) : preserves closed_kept (recv_conn c).
Proof.
  intros s. unfold recv_conn, heap_recv.
  destruct c as [p|]; simpl; [|reflexivity].
  destruct (connChans s !! p) as [ch|] eqn:Hp; simpl; [|reflexivity].
  destruct (buf ch); simpl; [destruct (closed ch); simpl; [by destruct s|reflexivity]|].
  by apply (closed_kept_insert s p ch).
Qed.

Lemma closed_kept_Stop_tail (d : option nat) : preserves closed_kept (Stop_tail d).
Proof.
  unfold Stop_tail, conn_Close.
  apply (preserves_bind closed_kept); [apply (preserves_gets closed_kept)|]. intros n.
  apply (preserves_bind closed_kept).
  { destruct (n =? 1)%nat; [|apply (preserves_ret closed_kept)].
    apply (preserves_bind closed_kept); [apply closed_kept_recv|].
    intros [conn|]; [|apply (preserves_panic closed_kept)].
    apply (preserves_modify closed_kept). intros s q ch Hq Hc. by exists ch. }
  intros _. apply (preserves_bind closed_kept); [apply closed_kept_close|].
  intros _. preserves_walk closed_kept ltac:(intros q ch Hq Hc; by exists ch).
Qed.

Lemma closed_kept_Protocol_Close (p : Protocol) :
  preserves closed_kept (Protocol_Close p).
Proof.
  unfold Protocol_Close.
  apply (preserves_bind closed_kept); [apply (preserves_get_listener closed_kept)|].
  intros l. destruct (registry l !! proto p); [|apply (preserves_ret closed_kept)].
  apply (preserves_bind closed_kept); [apply closed_kept_close|]. intros _.
  preserves_walk closed_kept ltac:(intros q ch Hq Hc; by exists ch).
Qed.

Lemma closed_kept_close_protocols (keys : list string) :
  preserves closed_kept (close_protocols keys).
Proof.
  induction keys as [|k keys IH]; simpl; [apply (preserves_ret closed_kept)|].
  apply (preserves_bind closed_kept); [apply (preserves_get_listener closed_kept)|].
  intros l. destruct (registry l !! k); [|exact IH].
  apply (preserves_bind closed_kept); [apply closed_kept_Protocol_Close|].
  intros _. exact IH.
Qed.

(** The loop over the routes closes the channel of each. *)
Lemma close_protocols_closes (d : nat) (keys : list string) (s s' : Store) :
  routes_open d keys s → close_protocols keys s = Ret tt s' →
  ∀ k p, k ∈ keys → registry (lst s) !! k = Some p →
         ∃ ch, connChans s' !! channel p = Some ch ∧ closed ch = true.
Proof.
  revert s. induction keys as [|k keys IH]; intros s Hro Hrun k' p' Hk' Hp'.
  - inversion Hk'.
  - destruct (close_protocols_cons d k keys s Hro)
      as (p & ch & Hp & Hpk & Hq & Hstep & Hro' & Hother).
    rewrite Hstep in Hrun.
    destruct (decide (k' = k)) as [->|Hne].
    + rewrite Hp in Hp'. injection Hp' as <-.
      apply (preserves_Ret closed_kept _ _ _ _ (closed_kept_close_protocols keys) Hrun
               (channel p) (mkChan (buf ch) (cap ch) true)); [|done].
      unfold closed_route. simpl.
      apply list_lookup_insert_eq. by eapply lookup_lt_Some.
    + apply elem_of_cons in Hk' as [?|Hk']; [done|].
      destruct (Hother k' p' Hk' Hp') as [Hr _].
      by apply (IH _ Hro' Hrun k' p').
Qed.

(** [Stop] on a running listener, cut into its three parts. *)
Lemma Stop_running (s : Store) :
  workers_free s → registry_ok s = true → default_ok s = true →
  ∃ d s1 s2 s' chd,
    defaultChannel (lst s) = Some d
    ∧ routes_open d (map_to_list (registry (lst s))).*1 s
    ∧ stop_workers (workers (lst s)) s = Ret tt s1
    ∧ conn_frame s s1
    ∧ close_protocols (map_to_list (registry (lst s))).*1 s1 = Ret tt s2
    ∧ connChans s2 !! d = Some chd
    ∧ Stop_tail (Some d) s2 = Ret tt s'
    ∧ Listener_Stop s = Ret tt s'.
Proof.
  intros Hfree Hreg Hdef.
  destruct (running_routes_open s Hreg Hdef) as (d & Hd & Hro).
  destruct (stop_workers_returns (workers (lst s)) s Hfree) as (s1 & Hws & Hl1 & Hc1).
  assert (Hro1 : routes_open d (map_to_list (registry (lst s))).*1 s1).
  { unfold routes_open. by rewrite Hl1, Hc1. }
  destruct (close_protocols_returns d _ s1 Hro1) as (s2 & Hps & Hd2 & chd & Hchd & Hcl).
  destruct (Stop_tail_returns s2 d chd Hchd Hcl) as [s' Htail].
  exists d, s1, s2, s', chd. repeat (split; [done|]).
  rewrite Stop_unfold, (bind_Ret _ _ _ _ _ Hws), (bind_Ret _ _ _ _ _ Hps).
  by rewrite Hd.
Qed.

(** X17.  [Stop] on a running listener (the mutexes of its workers free,
    the registry and the default channel in order) returns, and it has
    closed every route: the channel of each route that was registered is
    closed, the connections queued in it are still queued, to be
    returned by [Accept] on the route, and a later [Close] on the route
    returns the error "listener already closed". *)
Theorem Stop_closes_routes (s : Store) :
  workers_free s → registry_ok s = true → default_ok s = true →
  ∃ s', Listener_Stop s = Ret tt s'
        ∧ ∀ k p, registry (lst s) !! k = Some p →
                 (∃ ch, connChans s' !! channel p = Some ch ∧ closed ch = true)
                 ∧ queue s' (channel p) = queue s (channel p)
                 ∧ Protocol_Close p s' = Ret (Some "listener already closed") s'.
Proof.
  intros Hfree Hreg Hdef.
  destruct (Stop_running s Hfree Hreg Hdef)
    as (d & s1 & s2 & s' & chd2 & Hd & Hro & Hws & [Hl1 Hc1] & Hps & Hd2 & Htail
        & Hstop).
  exists s'. split; [exact Hstop|]. intros k p Hp.
  assert (Hk : k ∈ (map_to_list (registry (lst s))).*1).
  { apply list_elem_of_fmap. exists (k, p). split; [done|].
    by apply elem_of_map_to_list. }
  destruct Hro as (Hnd & Hall & Hinj & Hchd).
  destruct (Hall k Hk) as (p0 & ch & Hp0 & Hpk & Hne & Hq & Hc).
  rewrite Hp in Hp0. injection Hp0 as <-.
  assert (Hro1 : routes_open d (map_to_list (registry (lst s))).*1 s1).
  { unfold routes_open. by rewrite Hl1, Hc1. }
  split; [|split].
  - destruct (close_protocols_closes d _ s1 s2 Hro1 Hps k p Hk) as (ch2 & Hq2 & Hc2).
    { by rewrite Hl1. }
    exact (preserves_Ret closed_kept _ _ _ _ (closed_kept_Stop_tail _) Htail
             _ _ Hq2 Hc2).
  - destruct (Stop_tail_queues s2 s' d chd2 Htail Hd2) as (_ & _ & Hoth).
    rewrite (Hoth (channel p) Hne).
    pose proof (preserves_Ret queues_kept _ _ _ _
                  (queues_kept_close_protocols _) Hps) as [_ Hq12].
    rewrite Hq12. unfold queue. by rewrite Hc1.
  - destruct (Stop_clears s s' Hstop) as (_ & Hch' & _).
    unfold Protocol_Close, registry. unfold_M. by rewrite Hch'.
Qed.

Lemma Stop_closes_routes_witness :
  let s := outcome_store (connectionReceived (Example.conn_ok 5 "h2" true)
                            (Example.started 1)) in
  ∃ s', Listener_Stop s = Ret tt s'
        ∧ ∀ k p, registry (lst s) !! k = Some p →
                 (∃ ch, connChans s' !! channel p = Some ch ∧ closed ch = true)
                 ∧ queue s' (channel p) = queue s (channel p)
                 ∧ Protocol_Close p s' = Ret (Some "listener already closed") s'.
Proof.
  intros s. apply (Stop_closes_routes s).
  - intros w Hw. vm_compute in Hw. apply list_elem_of_singleton in Hw.
    injection Hw as ->. exists (mkWorker true 0 false). split; reflexivity.
  - vm_compute. reflexivity.
  - vm_compute. reflexivity.
Defined.

(** X18.  [Stop] on a running listener returns, and the connection that
    waits alone in the default queue for an [Accept] is taken from the
    queue and closed; no other connection is closed. *)
Theorem Stop_closes_waiting_connection (s : Store) (d : nat) (chd : chan tls_Conn) :
  workers_free s → registry_ok s = true → default_ok s = true →
  defaultChannel (lst s) = Some d → connChans s !! d = Some chd →
  ∃ s', Listener_Stop s = Ret tt s'
        ∧ closedConns s'
          = closedConns s
            ++ (if (length (buf chd) =? 1)%nat then conn_fd <$> buf chd else [])
        ∧ queue s' d = Some (if (length (buf chd) =? 1)%nat then [] else buf chd).
Proof.
  intros Hfree Hreg Hdef Hd Hchd.
  destruct (Stop_running s Hfree Hreg Hdef)
    as (d' & s1 & s2 & s' & chd2 & Hd' & Hro & Hws & Hfr & Hps & Hd2 & Htail & Hstop).
  rewrite Hd in Hd'. injection Hd' as <-.
  exists s'. split; [exact Hstop|].
  pose proof (preserves_Ret queues_kept _ _ _ _ (queues_kept_stop_workers _) Hws)
    as [Hc1 Hq1].
  pose proof (preserves_Ret queues_kept _ _ _ _ (queues_kept_close_protocols _) Hps)
    as [Hc2 Hq2].
  assert (Hb : buf chd2 = buf chd).
  { specialize (Hq2 d). specialize (Hq1 d). unfold queue in *.
    rewrite Hd2, Hq1, Hchd in Hq2. simpl in Hq2. by injection Hq2. }
  destruct (Stop_tail_queues s2 s' d chd2 Htail Hd2) as (Hcl & Hq & _).
  rewrite Hb in *. by rewrite Hcl, Hc2, Hc1.
Qed.

Lemma Stop_closes_waiting_connection_witness :
  let conn := Example.conn_ok 7 "" false in
  let s := outcome_store (connectionReceived conn (Example.started 1)) in
  ∃ s', Listener_Stop s = Ret tt s'
        ∧ closedConns s' = closedConns s ++ [7%nat]
        ∧ queue s' 1 = Some [].
Proof.
  intros conn s.
  apply (Stop_closes_waiting_connection s 1 (mkChan [conn] 1 false)).
  - intros w Hw. vm_compute in Hw. apply list_elem_of_singleton in Hw.
    injection Hw as ->. exists (mkWorker true 0 false). split; reflexivity.
  - vm_compute. reflexivity.
  - vm_compute. reflexivity.
  - vm_compute. reflexivity.
  - vm_compute. reflexivity.
Defined.

(** X19.  Go leaves the order of the iteration over the registry open:
    on a listener whose registry and default channel are in order,
    [Stop] ends in the same way and in the same state whatever the
    order in which the routes are closed. *)
Theorem Stop_order_irrelevant (s : Store) (keys : list string) :
  registry_ok s = true → default_ok s = true →
  keys ≡ₚ (map_to_list (registry (lst s))).*1 →
  (stop_workers (workers (lst s));;
   close_protocols keys;;
   Stop_tail (defaultChannel (lst s))) s
  = Listener_Stop s.
Proof.
  intros Hreg Hdef Hp.
  destruct (running_routes_open s Hreg Hdef) as (d & Hd & Hro).
  by apply (Stop_any_order s d).
Qed.

Lemma Stop_order_irrelevant_witness :
  let l := mkListener "127.0.0.1:6080" (Some (mkConfig ["h2"; "http/1.1"])) 1
             [] None None None None None in
  let s := outcome_store
             ((Listener_Protocol "h2";; Listener_Protocol "http/1.1";;
               Example.Start 99) (mkStore l [] [] [] [] [] [] 0)) in
  (stop_workers (workers (lst s));;
   close_protocols (reverse (map_to_list (registry (lst s))).*1);;
   Stop_tail (defaultChannel (lst s))) s
  = Listener_Stop s.
Proof.
  intros l s. apply (Stop_order_irrelevant s).
  - vm_compute. reflexivity.
  - vm_compute. reflexivity.
  - apply reverse_Permutation.
Defined.

(** *** A running listener stays in order *)

#[local] Instance flags_kept_preorder : PreOrder flags_kept.
Proof.
  split.
  - intros s. by split.
  - intros s1 s2 s3 (H1 & H1' & H1'') (H2 & H2' & H2'').
    split; [congruence|]. split; [congruence|]. intros q. by rewrite H2'', H1''.
Qed.

Lemma forallb_eq {A} (f g : A → bool) (l : list A) :
  (∀ x, f x = g x) → forallb f l = forallb g l.
Proof. intros H. induction l as [|a l IH]; simpl; [done|]. by rewrite H, IH. Qed.

Lemma flags_kept_in_order (s s' : Store) :
  flags_kept s s' → in_order s → in_order s'.
Proof.
  intros (Hch & Hd & Hfl) [Hreg Hdef].
  assert (Hr : registry (lst s') = registry (lst s)) by (unfold registry; by rewrite Hch).
  assert (Hroute : ∀ kp, route_ok s' kp = route_ok s kp).
  { intros kp. unfold route_ok. f_equal. specialize (Hfl (channel kp.2)).
    destruct (connChans s' !! channel kp.2), (connChans s !! channel kp.2);
      simpl in Hfl; try done. by injection Hfl as ->. }
  split.
  - unfold registry_ok in *. rewrite Hr.
    by rewrite (forallb_eq _ _ _ Hroute).
  - unfold default_ok in *. rewrite Hr, Hd.
    destruct (defaultChannel (lst s)) as [d|]; [|done].
    specialize (Hfl d).
    destruct (connChans s' !! d), (connChans s !! d); simpl in Hfl; try done.
    by injection Hfl as ->.
Qed.

Lemma flags_kept_insert (s : Store) (p : nat) (ch ch' : chan tls_Conn) :
  connChans s !! p = Some ch → closed ch' = closed ch →
  flags_kept s (set_connChans (<[p := ch']> (connChans s)) s).
Proof.
  intros Hp Hc. split; [done|]. split; [done|]. intros q. simpl.
  destruct (decide (q = p)) as [->|Hne].
  - rewrite list_lookup_insert_eq by (by eapply lookup_lt_Some).
    rewrite Hp. simpl. by rewrite Hc.
  - by rewrite list_lookup_insert_ne.
Qed.

Lemma flags_kept_send (c : option nat) (x : tls_Conn) :
  preserves flags_kept (send_conn c x).
Proof.
  intros s. unfold send_conn, heap_send.
  destruct c as [p|]; simpl; [|reflexivity].
  destruct (connChans s !! p) as [ch|] eqn:Hp; simpl; [|reflexivity].
  destruct (closed ch) eqn:Hc; simpl; [reflexivity|].
  destruct (_ <? _)%nat; simpl; [|reflexivity].
  by apply (flags_kept_insert s p ch).
Qed.

Lemma flags_kept_recv (c : option nat) : preserves flags_kept (recv_conn c).
Proof.
  intros s. unfold recv_conn, heap_recv.
  destruct c as [p|]; simpl; [|reflexivity].
  destruct (connChans s !! p) as [ch|] eqn:Hp; simpl; [|reflexivity].
  destruct (buf ch); simpl; [destruct (closed ch); simpl; [by destruct s|reflexivity]|].
  by apply (flags_kept_insert s p ch).
Qed.

Ltac flags_kept_leaf := by (split; [|split]).

Lemma flags_kept_connectionReceived (conn : tls_Conn) :
  preserves flags_kept (connectionReceived conn).
Proof.
  unfold connectionReceived, conn_Close.
  preserves_walk flags_kept flags_kept_leaf; apply flags_kept_send.
Qed.

Lemma flags_kept_Accept (TCPAddr_String : net_TCPAddr -> string) (pick : bool) :
  preserves flags_kept (Listener_Accept TCPAddr_String pick).
Proof.
  unfold Listener_Accept, recv_err.
  preserves_walk flags_kept flags_kept_leaf;
    try apply flags_kept_recv.
  all: apply (preserves_bind flags_kept); [apply flags_kept_recv|intros ?].
  all: preserves_walk flags_kept flags_kept_leaf.
Qed.

Lemma flags_kept_Protocol_Accept (p : Protocol) :
  preserves flags_kept (Protocol_Accept p).
Proof.
  unfold Protocol_Accept.
  apply (preserves_bind flags_kept); [apply flags_kept_recv|intros ?].
  preserves_walk flags_kept flags_kept_leaf.
Qed.

Lemma flags_kept_step (i : nat) (ev : option accept_event) (pool : list thread) :
  preserves flags_kept (step i ev pool).
Proof.
  unfold step. destruct (pool !! i) as [[w p]|]; [|apply (preserves_block flags_kept)].
  apply (preserves_bind flags_kept);
    [|intros ?; apply (preserves_ret flags_kept)].
  unfold step_thread, socket_Close, send_err. simpl.
  destruct p; preserves_walk flags_kept flags_kept_leaf.
Qed.

(** The same, route by route. *)
Lemma in_order_spec (s : Store) :
  in_order s ↔
  ∃ d chd,
    defaultChannel (lst s) = Some d
    ∧ connChans s !! d = Some chd ∧ closed chd = false
    ∧ (∀ k p, registry (lst s) !! k = Some p →
              proto p = k ∧ channel p ≠ d
              ∧ ∃ ch, connChans s !! channel p = Some ch ∧ closed ch = false)
    ∧ (∀ k1 k2 p1 p2, registry (lst s) !! k1 = Some p1 →
                      registry (lst s) !! k2 = Some p2 →
                      channel p1 = channel p2 → k1 = k2).
Proof.
  split.
  - intros [Hreg Hdef].
    destruct (running_routes_open s Hreg Hdef) as (d & Hd & _ & Hall & Hinj & chd & Hchd & Hc).
    assert (Hin : ∀ k p, registry (lst s) !! k = Some p →
                         k ∈ (map_to_list (registry (lst s))).*1).
    { intros k p Hp. apply list_elem_of_fmap. exists (k, p). split; [done|].
      by apply elem_of_map_to_list. }
    exists d, chd. repeat (split; [done|]). split.
    + intros k p Hp. destruct (Hall k (Hin k p Hp)) as (p' & ch & Hp' & ? & ? & ? & ?).
      rewrite Hp in Hp'. injection Hp' as <-. eauto.
    + intros k1 k2 p1 p2 H1 H2. apply Hinj; eauto.
  - intros (d & chd & Hd & Hchd & Hc & Hall & Hinj). split.
    + unfold registry_ok. apply andb_true_iff. split.
      * apply forallb_forall. intros [k p] Hkp.
        apply list_elem_of_In, elem_of_map_to_list in Hkp.
        destruct (Hall k p Hkp) as (Hk & _ & ch & Hch & Hcl).
        unfold route_ok. simpl. rewrite Hch, Hcl. simpl. rewrite andb_true_r.
        by apply String.eqb_eq.
      * apply bool_decide_eq_true. apply NoDup_fmap_2_strong; [|apply NoDup_map_to_list].
        intros [k1 p1] [k2 p2] H1 H2 Heq. simpl in Heq.
        apply elem_of_map_to_list in H1, H2.
        assert (k1 = k2) by (by eapply Hinj). subst k2.
        rewrite H1 in H2. by injection H2 as ->.
    + unfold default_ok. rewrite Hd, Hchd, Hc. simpl.
      apply forallb_forall. intros [k p] Hkp.
      apply list_elem_of_In, elem_of_map_to_list in Hkp.
      destruct (Hall k p Hkp) as (_ & Hne & _). simpl.
      by apply negb_true_iff, Nat.eqb_neq.
Qed.

(** [Close] on a registered route keeps the listener in order. *)
Lemma in_order_Protocol_Close (s : Store) (p : Protocol) :
  in_order s → registry (lst s) !! proto p = Some p →
  ∃ s', Protocol_Close p s = Ret None s' ∧ in_order s'.
Proof.
  intros Hok Hp. apply in_order_spec in Hok as (d & chd & Hd & Hchd & Hc & Hall & Hinj).
  destruct (Hall _ _ Hp) as (_ & Hne & ch & Hch & Hcl).
  rewrite (Protocol_Close_open s p ch (mk_is_Some _ _ Hp) Hch Hcl).
  eexists. split; [reflexivity|]. apply in_order_spec.
  exists d, chd. simpl. split; [done|].
  split; [by rewrite list_lookup_insert_ne|]. split; [done|].
  rewrite registry_delete. split.
  - intros k q Hq. apply lookup_delete_Some in Hq as [Hk Hq].
    destruct (Hall k q Hq) as (Hpk & Hqd & ch' & Hch' & Hcl').
    split; [done|]. split; [done|]. exists ch'. split; [|done].
    rewrite list_lookup_insert_ne; [done|]. intros Heq. apply Hk.
    by apply (Hinj _ _ p q).
  - intros k1 k2 p1 p2 H1 H2. apply lookup_delete_Some in H1 as [_ H1].
    apply lookup_delete_Some in H2 as [_ H2]. by apply Hinj.
Qed.

Section StartInOrder.

Variable kernel_listen : nat -> Z -> Sockaddr -> error + nat.

(** The workers a [Start] has built on a registry in order leave the
    listener in order, with the mutexes of its workers free. *)
Lemma Start_built_in_order (s s' : Store) (sa : Sockaddr) (n : nat) :
  registry_ok s = true → Start_built kernel_listen sa n s s' →
  in_order s' ∧ workers_free s'.
Proof.
  intros Hreg [Hws Hold Hlen Hnew Hgo Hsys Hsa Hch Hd He Hcc Hec Hcs Hcn].
  split.
  - pose proof (registry_ok_routes_open s Hreg) as Hro. unfold routes_open in Hro.
    change (registry (lst (Start_entry s))) with (registry (lst s)) in Hro.
    change (connChans (Start_entry s)) with (connChans s ++ [make_chan 1]) in Hro.
    destruct Hro as (_ & Hall & Hinj & chd & Hchd & Hc).
    assert (Hr : registry (lst s') = registry (lst s))
      by (unfold registry; by rewrite Hch).
    assert (Hin : ∀ k p, registry (lst s) !! k = Some p →
                         k ∈ (map_to_list (registry (lst s))).*1).
    { intros k p Hp. apply list_elem_of_fmap. exists (k, p). split; [done|].
      by apply elem_of_map_to_list. }
    apply in_order_spec. exists (length (connChans s)), chd.
    rewrite Hr, Hcc. repeat (split; [done|]). split.
    + intros k p Hp. destruct (Hall k (Hin k p Hp)) as (p' & ch & Hp' & ? & ? & ? & ?).
      rewrite Hp in Hp'. injection Hp' as <-. eauto.
    + intros k1 k2 p1 p2 H1 H2. apply Hinj; eauto.
  - intros w Hw. rewrite Hws in Hw. apply list_elem_of_fmap in Hw as (w' & [= Heq] & Hw').
    subst w'.
    apply elem_of_seq in Hw'.
    destruct (Hnew (w - length (workerHeap s))%nat) as (sk & _ & Hl); [lia|].
    replace (length (workerHeap s) + (w - length (workerHeap s)))%nat with w in Hl by lia.
    by eexists.
Qed.

End StartInOrder.

(** X20.  A listener that is running stays fit for [Stop]: when the
    registry and the default channel are in order (every route filed
    under its own name with an open channel of its own, the default
    channel open and not the channel of a route), they are in order
    after a delivery, after an [Accept] of the listener or of a route,
    after a [Close] of a registered route, which returns no error, and
    after a step of a goroutine of a worker, however these end. *)
Theorem running_listener_stays_in_order (s : Store) :
  in_order s →
  (∀ conn, in_order (outcome_store (connectionReceived conn s)))
  ∧ (∀ TCPAddr_String pick,
        in_order (outcome_store (Listener_Accept TCPAddr_String pick s)))
  ∧ (∀ p, in_order (outcome_store (Protocol_Accept p s)))
  ∧ (∀ p, registry (lst s) !! proto p = Some p →
          ∃ s', Protocol_Close p s = Ret None s' ∧ in_order s')
  ∧ (∀ i ev pool, in_order (outcome_store (step i ev pool s))).
Proof.
  intros Hok. split; [|split; [|split; [|split]]].
  - intros conn. eapply flags_kept_in_order; [apply flags_kept_connectionReceived|done].
  - intros f pick. eapply flags_kept_in_order; [apply flags_kept_Accept|done].
  - intros p. eapply flags_kept_in_order; [apply flags_kept_Protocol_Accept|done].
  - intros p. by apply in_order_Protocol_Close.
  - intros i ev pool. eapply flags_kept_in_order; [apply flags_kept_step|done].
Qed.

Lemma running_listener_stays_in_order_witness :
  let s := Example.started 1 in
  let conn := Example.conn_ok 5 "h2" true in
  in_order (outcome_store (connectionReceived conn s))
  ∧ ∃ s', Protocol_Close (mkProtocol "h2" 0) s = Ret None s' ∧ in_order s'.
Proof.
  intros s conn.
  destruct (running_listener_stays_in_order s) as (Hdeliver & _ & _ & Hclose & _).
  - split; vm_compute; reflexivity.
  - split; [apply Hdeliver|]. apply Hclose. vm_compute. reflexivity.
Defined.

(** X21.  A [Start] that returns no error on a listener whose registry
    is in order leaves a running listener: the registry and the default
    channel are in order and the mutex of every worker is free. *)
Theorem Start_leaves_listener_running
  (SplitHostPort : string -> error + (string * string))
  (ParseInt : string -> Z -> Z -> error + Z)
  (ResolveIPAddr : string -> string -> error + net_IPAddr)
  (kernel_listen : nat -> Z -> Sockaddr -> error + nat)
  (s s' : Store) :
  registry_ok s = true →
  Listener_Start SplitHostPort ParseInt ResolveIPAddr kernel_listen s = Ret None s' →
  in_order s' ∧ workers_free s' ∧ (0 < length (workers (lst s')))%nat.
Proof.
  intros Hreg H.
  destruct (Start_success_built _ _ _ _ s s' H) as (sa & Hb & _ & Hpos).
  destruct (Start_built_in_order kernel_listen s s' sa _ Hreg Hb) as [Hok Hfree].
  split; [done|]. split; [done|].
  by rewrite (built_workers _ _ _ _ _ Hb), length_fmap, length_seq.
Qed.

Lemma Start_leaves_listener_running_witness :
  in_order (Example.started 2) ∧ workers_free (Example.started 2)
  ∧ (0 < length (workers (lst (Example.started 2))))%nat.
Proof.
  apply (Start_leaves_listener_running Example.SplitHostPort Example.ParseInt
           Example.ResolveIPAddr (Example.kernel_listen 99) (Example.registered 2)).
  - vm_compute. reflexivity.
  - vm_compute. reflexivity.
Defined.

(** *** Start on a listener that is running *)

(** The loop over the workers of [Stop] touches the workers of the list
    only, and closes their sockets only. *)
Lemma stop_workers_others (ws : list (option nat)) (s s' : Store) :
  stop_workers ws s = Ret tt s' →
  (∀ w, Some w ∉ ws → workerHeap s' !! w = workerHeap s !! w)
  ∧ (∀ w, (socket <$> workerHeap s' !! w) = (socket <$> workerHeap s !! w))
  ∧ (∀ sk, nat_mem sk (closedSockets s') = true →
           nat_mem sk (closedSockets s) = true
           ∨ ∃ w x, Some w ∈ ws ∧ workerHeap s !! w = Some x ∧ socket x = sk).
Proof.
  revert s. induction ws as [|[w|] ws IH]; intros s H; simpl in H.
  - injection H as <-. split; [done|]. split; [done|]. intros sk Hsk. by left.
  - apply bind_Ret_inv in H as ([] & s1 & Hstop & H).
    destruct (IH s1 H) as (Hoth & Hsock & Hcl).
    destruct (stop_Ret_pre s s1 w Hstop) as (x & Hx & Hl).
    rewrite (stop_free s w x Hx Hl) in Hstop. injection Hstop as <-.
    assert (Hlt : (w < length (workerHeap s))%nat) by (by eapply lookup_lt_Some).
    simpl in *. split; [|split].
    + intros w' Hw'. rewrite Hoth by (intros Hin; apply Hw'; by right).
      rewrite list_lookup_insert_ne; [done|]. intros ->. apply Hw'. by left.
    + intros w'. rewrite Hsock. destruct (decide (w' = w)) as [->|Hne].
      * rewrite list_lookup_insert_eq by done. by rewrite Hx.
      * by rewrite list_lookup_insert_ne.
    + intros sk Hsk. destruct (Hcl sk Hsk) as [Hin|(w' & x' & Hw' & Hx' & Hs')].
      * rewrite nat_mem_app in Hin. apply orb_true_iff in Hin as [Hin|Hin]; [by left|].
        right. exists w, x. split; [by left|]. split; [done|].
        unfold nat_mem in Hin. simpl in Hin. rewrite orb_false_r in Hin.
        by apply Nat.eqb_eq in Hin.
      * right. destruct (decide (w' = w)) as [->|Hne].
        -- rewrite list_lookup_insert_eq in Hx' by done. injection Hx' as <-.
           exists w, x. split; [by left|done].
        -- rewrite list_lookup_insert_ne in Hx' by done.
           exists w', x'. split; [by right|done].
  - destruct (IH s H) as (Hoth & Hsock & Hcl). split; [|split; [done|]].
    + intros w' Hw'. apply Hoth. intros Hin. apply Hw'. by right.
    + intros sk Hsk. destruct (Hcl sk Hsk) as [?|(w' & x' & ? & ? & ?)]; [by left|].
      right. exists w', x'. split; [by right|done].
Qed.

(** X22.  [Start] does not test whether the listener is running.  A
    second [Start] that returns no error makes a new worker list, and the
    workers of the first are in it no more: the [Stop] that follows
    returns, and it has stopped the workers of the second [Start] only.
    Each worker of the first is still running, and the only sockets
    closed are those of workers of the second. *)
Theorem second_Start_abandons_workers
  (SplitHostPort SplitHostPort' : string -> error + (string * string))
  (ParseInt ParseInt' : string -> Z -> Z -> error + Z)
  (ResolveIPAddr ResolveIPAddr' : string -> string -> error + net_IPAddr)
  (kernel_listen kernel_listen' : nat -> Z -> Sockaddr -> error + nat)
  (s s1 s2 : Store) :
  registry_ok s = true →
  Listener_Start SplitHostPort ParseInt ResolveIPAddr kernel_listen s = Ret None s1 →
  Listener_Start SplitHostPort' ParseInt' ResolveIPAddr' kernel_listen' s1
  = Ret None s2 →
  ∃ s3, Listener_Stop s2 = Ret tt s3
        ∧ (∀ w, (length (workerHeap s) ≤ w < length (workerHeap s1))%nat →
                (Some w ∉ workers (lst s2))
                ∧ ∃ x, workerHeap s3 !! w = Some x
                       ∧ running x = true
                       ∧ workerHeap s1 !! w = Some x)
        ∧ (∀ sk, nat_mem sk (closedSockets s3) = true →
                 nat_mem sk (closedSockets s) = true
                 ∨ ∃ w x, (length (workerHeap s1) ≤ w)%nat
                          ∧ workerHeap s2 !! w = Some x ∧ socket x = sk).
Proof.
  intros Hreg H1 H2.
  destruct (Start_success_built _ _ _ _ s s1 H1) as (sa1 & Hb1 & _ & _).
  destruct (Start_built_in_order kernel_listen s s1 sa1 _ Hreg Hb1) as [[Hreg1 _] _].
  destruct (Start_success_built _ _ _ _ s1 s2 H2) as (sa2 & Hb2 & _ & _).
  destruct (Start_built_in_order kernel_listen' s1 s2 sa2 _ Hreg1 Hb2)
    as [[Hreg2 Hdef2] Hfree2].
  destruct (Stop_running s2 Hfree2 Hreg2 Hdef2)
    as (d & sa & sb & s3 & chd & Hd & Hro & Hws & Hfr & Hps & Hchd & Htail & Hstop).
  exists s3. split; [exact Hstop|].
  destruct (stop_workers_others _ _ _ Hws) as (Hoth & _ & Hcl).
  pose proof (preserves_Ret same_workers _ _ _ _
                (same_workers_close_protocols _) Hps) as [Hh1 Hc1].
  pose proof (preserves_Ret same_workers _ _ _ _
                (same_workers_Stop_tail _) Htail) as [Hh2 Hc2].
  assert (Hin : ∀ w, Some w ∈ workers (lst s2) → (length (workerHeap s1) ≤ w)%nat).
  { intros w Hw. rewrite (built_workers _ _ _ _ _ Hb2) in Hw.
    apply list_elem_of_fmap in Hw as (w' & [= Heq] & Hw'). subst w'.
    apply elem_of_seq in Hw'. lia. }
  split.
  - intros w Hw.
    assert (Hnot : Some w ∉ workers (lst s2)).
    { intros Hw'. apply Hin in Hw'. lia. }
    split; [exact Hnot|].
    destruct (built_heap_new _ _ _ _ _ Hb1 (w - length (workerHeap s))%nat)
      as (sk & _ & Hx).
    { rewrite (built_heap_length _ _ _ _ _ Hb1) in Hw. lia. }
    replace (length (workerHeap s) + (w - length (workerHeap s)))%nat with w in Hx by lia.
    exists (mkWorker true sk false). split; [|done].
    rewrite Hh2, Hh1, (Hoth w Hnot).
    rewrite <- (built_heap_old _ _ _ _ _ Hb2) in Hx.
    by rewrite lookup_take_lt in Hx by lia.
  - intros sk Hsk. rewrite Hc2, Hc1 in Hsk.
    destruct (Hcl sk Hsk) as [Hold|(w & x & Hw & Hx & Hs)].
    + left. by rewrite (built_closedSockets _ _ _ _ _ Hb2),
                (built_closedSockets _ _ _ _ _ Hb1) in Hold.
    + right. exists w, x. split; [by apply Hin|done].
Qed.

Lemma second_Start_abandons_workers_witness :
  let s := Example.registered 1 in
  let s1 := Example.started 1 in
  let s2 := outcome_store (Example.Start 99 s1) in
  ∃ s3, Listener_Stop s2 = Ret tt s3
        ∧ (∀ w, (length (workerHeap s) ≤ w < length (workerHeap s1))%nat →
                (Some w ∉ workers (lst s2))
                ∧ ∃ x, workerHeap s3 !! w = Some x
                       ∧ running x = true
                       ∧ workerHeap s1 !! w = Some x)
        ∧ (∀ sk, nat_mem sk (closedSockets s3) = true →
                 nat_mem sk (closedSockets s) = true
                 ∨ ∃ w x, (length (workerHeap s1) ≤ w)%nat
                          ∧ workerHeap s2 !! w = Some x ∧ socket x = sk).
Proof.
  intros s s1 s2.
  apply (second_Start_abandons_workers
           Example.SplitHostPort Example.SplitHostPort
           Example.ParseInt Example.ParseInt
           Example.ResolveIPAddr Example.ResolveIPAddr
           (Example.kernel_listen 99) (Example.kernel_listen 99) s s1 s2).
  - vm_compute. reflexivity.
  - vm_compute. reflexivity.
  - vm_compute. reflexivity.
Defined.

(** *** Close twice *)

(** X23.  [Close] of the listener can be called once: it reports no
    error when it returns, and a [Close] that follows one that returned
    panics, on the default channel that is closed already, and changes
    nothing. *)
Theorem Close_twice_panics (s s1 : Store) (r : option error) :
  Listener_Close s = Ret r s1 →
  r = None ∧ Listener_Close s1 = Panic "close of closed channel" s1.
Proof.
  unfold Listener_Close. intros H.
  apply bind_Ret_inv in H as ([] & s' & Hstop & H). injection H as <- <-.
  split; [done|]. unfold_M. by rewrite (Stop_again s s' Hstop).
Qed.

Lemma Close_twice_panics_witness :
  let s1 := outcome_store (Listener_Close (Example.started 1)) in
  @None error = None ∧ Listener_Close s1 = Panic "close of closed channel" s1.
Proof.
  intros s1. apply (Close_twice_panics (Example.started 1) s1 None).
  vm_compute. reflexivity.
Defined.

(** *** The socket that cannot be built *)

Section StartFirstFailure.

Variable SplitHostPort : string -> error + (string * string).
Variable ParseInt : string -> Z -> Z -> error + Z.
Variable ResolveIPAddr : string -> string -> error + net_IPAddr.
Variable kernel_listen : nat -> Z -> Sockaddr -> error + nat.

Abbreviation getSocketAddress' := (getSocketAddress SplitHostPort ParseInt ResolveIPAddr).
Abbreviation buildSocket' :=
  (buildSocket SplitHostPort ParseInt ResolveIPAddr kernel_listen).
Abbreviation Start_loop' :=
  (Start_loop SplitHostPort ParseInt ResolveIPAddr kernel_listen).
Abbreviation Start' :=
  (Listener_Start SplitHostPort ParseInt ResolveIPAddr kernel_listen).

(** The loop of [Start] when the kernel gives [k] sockets and refuses the
    next: [k] rounds, then [Stop] and the error of the refusal. *)
Lemma Start_loop_fails (k m i : nat) (s : Store) (sa : Sockaddr)
      (a : option net_TCPAddr) (e : error) :
  getSocketAddress' s = Ret (inr sa) (with_address sa a s) →
  (i + k < length (workers (lst s)))%nat →
  (∀ j, (j < k)%nat →
        ∃ sk, kernel_listen (syscalls s + j)%nat (family_of sa) sa = inr sk) →
  kernel_listen (syscalls s + k)%nat (family_of sa) sa = inl e →
  ∃ s1, Start_loop' (k + S m) i s
        = (Listener_Stop;; mret (Some ("builder worker socket: " +:+ e))) s1
        ∧ syscalls s1 = (syscalls s + k + 1)%nat
        ∧ length (workerHeap s1) = (length (workerHeap s) + k)%nat.
Proof.
  revert i s. induction k as [|k IH]; intros i s Hg Hlen Hk He.
  - rewrite Nat.add_0_r in He.
    exists (set_syscalls (S (syscalls s)) (with_address sa a s)).
    split; [|split; simpl; lia].
    assert (Hb : buildSocket' s
                 = Ret (inl e) (set_syscalls (S (syscalls s)) (with_address sa a s))).
    { unfold buildSocket. rewrite (bind_Ret _ _ _ _ _ Hg). unfold_M. simpl.
      fold (family_of sa). by rewrite He. }
    simpl. by rewrite (bind_Ret _ _ _ _ _ Hb).
  - destruct (Hk 0%nat) as [sk Hsk]; [lia|]. rewrite Nat.add_0_r in Hsk.
    change (S k + S m)%nat with (S (k + S m)).
    rewrite (Start_loop_round _ _ _ _ (k + S m) i sk s sa a Hg Hsk) by lia.
    destruct (IH (S i) (Start_round sa a i sk s)) as (s1 & Hrun & Hsys & Hheap).
    + apply Start_round_resolved.
    + simpl. rewrite length_insert. lia.
    + intros j Hj. simpl. destruct (Hk (S j)) as [sk' Hsk']; [lia|].
      exists sk'. by rewrite <- Nat.add_succ_r.
    + simpl. by rewrite <- Nat.add_succ_r.
    + exists s1. split; [exact Hrun|]. simpl in *. rewrite length_app in Hheap.
      simpl in Hheap. lia.
Qed.

End StartFirstFailure.

(** X24.  [Start] reports the first socket that cannot be built: when
    the bind address resolves, the kernel answers the requests for the
    first [k] workers with sockets and refuses the next with the error
    [e], [Start] (on a listener whose registry is in order) returns
    "builder worker socket: " followed by [e]; the kernel was asked
    [k + 1] times, [k] workers were made, and all is rolled back: each of
    them is stopped, the worker list, the registry and the cached address
    are cleared and the default channel is closed. *)
Theorem Start_reports_first_failure
  (SplitHostPort : string -> error + (string * string))
  (ParseInt : string -> Z -> Z -> error + Z)
  (ResolveIPAddr : string -> string -> error + net_IPAddr)
  (kernel_listen : nat -> Z -> Sockaddr -> error + nat)
  (s s1 : Store) (sa : Sockaddr) (k : nat) (e : error) :
  registry_ok s = true → 0 ≤ Listeners (lst s) →
  getSocketAddress SplitHostPort ParseInt ResolveIPAddr s = Ret (inr sa) s1 →
  (k < Z.to_nat (worker_count (lst s)))%nat →
  (∀ j, (j < k)%nat →
        ∃ sk, kernel_listen (syscalls s + j)%nat (family_of sa) sa = inr sk) →
  kernel_listen (syscalls s + k)%nat (family_of sa) sa = inl e →
  ∃ s', Listener_Start SplitHostPort ParseInt ResolveIPAddr kernel_listen s
        = Ret (Some ("builder worker socket: " +:+ e)) s'
        ∧ syscalls s' = (syscalls s + k + 1)%nat
        ∧ length (workerHeap s') = (length (workerHeap s) + k)%nat
        ∧ rolled_back (length (workerHeap s)) s'.
Proof.
  intros Hreg Hn Hg Hk Hsocks He.
  destruct (Start_returns SplitHostPort ParseInt ResolveIPAddr kernel_listen s Hreg Hn)
    as (r & s' & Hstart & Hpost).
  pose proof Hstart as Hrun. rewrite (Start_unfold _ _ _ _ s Hn) in Hrun.
  destruct (Start_loop_fails SplitHostPort ParseInt ResolveIPAddr kernel_listen
              k (Z.to_nat (worker_count (lst s)) - k - 1) 0 (Start_entry s) sa
              (addr (lst s1)) e)
    as (sk & Hloop & Hsys & Hheap).
  - by apply (getSocketAddress_inr_transfer _ _ _ s s1).
  - simpl. rewrite length_replicate. lia.
  - exact Hsocks.
  - exact He.
  - replace (k + S (Z.to_nat (worker_count (lst s)) - k - 1))%nat
      with (Z.to_nat (worker_count (lst s))) in Hloop by lia.
    rewrite Hloop in Hrun.
    apply bind_Ret_inv in Hrun as ([] & s2 & Hstop & Hret).
    injection Hret as <- <-.
    exists s2. split; [exact Hstart|].
    pose proof (preserves_Ret Stop_frame _ _ _ _ Stop_frame_Stop Hstop) as Hf.
    destruct (Stop_stops_workers _ _ Hstop) as [_ Hlen].
    split; [by rewrite (frame_syscalls _ _ Hf)|]. split; [by rewrite Hlen|].
    apply Hpost.
Qed.

Lemma Start_reports_first_failure_witness :
  ∃ s', Example.Start 2 (Example.registered 4)
        = Ret (Some ("builder worker socket: "
                       +:+ "failed to bind socket to address: address already in use")) s'
        ∧ syscalls s' = 3%nat
        ∧ length (workerHeap s') = 2%nat
        ∧ rolled_back 0 s'.
Proof.
  apply (Start_reports_first_failure Example.SplitHostPort Example.ParseInt
           Example.ResolveIPAddr (Example.kernel_listen 2) (Example.registered 4)
           (with_address (SockaddrInet6 6080 Example.localhost)
              (Some (mkTCPAddr Example.localhost 6080 "")) (Example.registered 4))
           (SockaddrInet6 6080 Example.localhost) 2).
  - vm_compute. reflexivity.
  - vm_compute. discriminate.
  - vm_compute. reflexivity.
  - vm_compute. lia.
  - intros j Hj. exists j. change (syscalls (Example.registered 4)) with 0%nat.
    simpl. unfold Example.kernel_listen. destruct (Nat.eqb_spec j 2); [lia|reflexivity].
  - reflexivity.
Defined.

(** *** The system calls of buildSocket *)

Lemma build_fd_inr (K : Kernel) (so_reuseport : Z) (n : nat) (sa : Sockaddr) (sk : nat) :
  (build_fd K so_reuseport n (family_of sa) sa).1 = inr sk ↔
  ∃ fd, socket_made K so_reuseport n sa fd sk.
Proof.
  unfold build_fd, socket_made. split.
  - destruct (sys_Socket _ _ _ _ _) as [?|fd] eqn:E0; [discriminate|].
    destruct (sys_SetsockoptInt K n fd SOL_SOCKET SO_REUSEADDR 1) eqn:E1;
      [discriminate|].
    destruct (sys_SetsockoptInt K n fd SOL_SOCKET so_reuseport 1) eqn:E2;
      [discriminate|].
    destruct (sys_SetNonblock _ _ _ _) eqn:E3; [discriminate|].
    destruct (sys_Bind _ _ _ _) eqn:E4; [discriminate|].
    destruct (sys_Listen _ _ _ _) eqn:E5; [discriminate|].
    destruct (net_FileListener _ _ _) as [?|sk'] eqn:E6; [discriminate|].
    simpl. intros [= ->]. exists fd. by repeat split.
  - intros (fd & -> & -> & -> & -> & -> & -> & ->). reflexivity.
Qed.

(** X25.  A socket of a worker is a reusable one on the address of the
    listener: [buildSocket] returns a socket exactly when the address
    resolves and every system call succeeds, namely the creation of a
    stream socket of the family of the address, the setting of
    SO_REUSEADDR and of SO_REUSEPORT, the switch to non-blocking, the
    bind to the address, the listen and the conversion to a listener,
    all on the same descriptor and in that request; the call has then
    changed nothing but the cached address, the address the listener
    reports and the count of requests. *)
Theorem buildSocket_makes_reusable_socket
  (SplitHostPort : string -> error + (string * string))
  (ParseInt : string -> Z -> Z -> error + Z)
  (ResolveIPAddr : string -> string -> error + net_IPAddr)
  (K : Kernel) (so_reuseport : Z) (s s' : Store) (sk : nat) :
  buildSocket SplitHostPort ParseInt ResolveIPAddr (kernel_of K so_reuseport) s
  = Ret (inr sk) s'
  ↔ ∃ sa s1 fd,
      getSocketAddress SplitHostPort ParseInt ResolveIPAddr s = Ret (inr sa) s1
      ∧ socket_made K so_reuseport (syscalls s) sa fd sk
      ∧ s' = set_syscalls (S (syscalls s)) s1.
Proof.
  split.
  - intros H. unfold buildSocket in H.
    apply bind_Ret_inv in H as ([e|sa] & s1 & Hg & H); [discriminate|].
    pose proof (getSocketAddress_inr _ _ _ _ _ _ Hg) as Hs1.
    assert (Hsys : syscalls s1 = syscalls s) by (by rewrite Hs1).
    revert H. unfold_M. simpl. fold (family_of sa). rewrite Hsys.
    intros [= Hk <-]. unfold kernel_of in Hk.
    apply build_fd_inr in Hk as [fd Hfd].
    by exists sa, s1, fd.
  - intros (sa & s1 & fd & Hg & Hfd & ->).
    pose proof (getSocketAddress_inr _ _ _ _ _ _ Hg) as Hs1.
    assert (Hsys : syscalls s1 = syscalls s) by (by rewrite Hs1).
    unfold buildSocket. rewrite (bind_Ret _ _ _ _ _ Hg). unfold_M. simpl.
    fold (family_of sa). rewrite Hsys. unfold kernel_of.
    by rewrite (proj2 (build_fd_inr K so_reuseport (syscalls s) sa sk)) by eauto.
Qed.

